(** * Synthesis threat-modelling pipeline: a shallow embedding

    The development follows the TypeScript sources of the threat engine:

    - [JsNum]        the fragment of JavaScript [number] arithmetic the
                     risk engine uses ([Math.round], [Math.min], [Math.max],
                     [+], [/], [<]), with [NaN] and the infinities, and
                     the value of a numeric literal;
    - [RiskEngine]   [src/lib/threat-engine/owasp-risk-engine.ts];
    - [Extractor]    [extractArchitecture] of
                     [src/lib/threat-engine/repo-analyzer.ts];
    - [Scanner]      [scanSecurity] of the same file;
    - [Provider]     [callLLM] of the LLM provider module;
    - [Json], [Generator]  [src/lib/threat-engine/threat-generator.ts];
    - [Orchestrator] the analysis route ([analyzeGitHubRepo],
                     [analyzeDesignDoc]) and [createThreat] of the
                     database module;
    - [Dfd]          [src/lib/threat-engine/dfd-generator.ts];
    - [Analyzer]     [analyzeRepo], [cloneRepo], [walkDir] and the
                     detectors of [repo-analyzer.ts]. *)

From Stdlib Require Import ZArith QArith Qround List Bool Ascii String Lia.
From Stdlib Require Import DecimalString DecimalNat Setoid.
Import ListNotations.

Set Implicit Arguments.
#[local] Set Warnings "-register-all".
Close Scope Q_scope.

(* ================================================================== *)
(** * JavaScript numbers *)
(* ================================================================== *)

Module JsNum.

(** An IEEE double is [NaN], an infinity, or a (dyadic) rational.  The
    engine only adds small integers and divides them by 8 and by 4, all of
    which is exact on doubles, so finite values are carried as rationals. *)
Inductive jsnum : Type :=
| NaN
| PosInf
| NegInf
| Fin (q : Q).

Definition ofZ (z : Z) : jsnum := Fin (inject_Z z).

Definition Qltb (a b : Q) : bool :=
  (Qnum a * QDen b <? Qnum b * QDen a)%Z.

(** [a < b] of JavaScript: false as soon as one side is [NaN]. *)
Definition lt (a b : jsnum) : bool :=
  match a, b with
  | NaN, _ | _, NaN => false
  | PosInf, _ => false
  | _, NegInf => false
  | NegInf, _ => true
  | _, PosInf => true
  | Fin x, Fin y => Qltb x y
  end.

(** [Math.round]: the nearest integer, ties towards [+Infinity]. *)
Definition round (a : jsnum) : jsnum :=
  match a with
  | Fin q => ofZ (Qfloor (q + (1 # 2))%Q)
  | other => other
  end.

(** [Math.min] and [Math.max]: [NaN] is contagious. *)
Definition min (a b : jsnum) : jsnum :=
  match a, b with
  | NaN, _ | _, NaN => NaN
  | _, _ => if lt b a then b else a
  end.

Definition max (a b : jsnum) : jsnum :=
  match a, b with
  | NaN, _ | _, NaN => NaN
  | _, _ => if lt a b then b else a
  end.

Definition add (a b : jsnum) : jsnum :=
  match a, b with
  | NaN, _ | _, NaN => NaN
  | PosInf, NegInf | NegInf, PosInf => NaN
  | PosInf, _ | _, PosInf => PosInf
  | NegInf, _ | _, NegInf => NegInf
  | Fin x, Fin y => Fin (x + y)%Q
  end.

(** Division and multiplication by a positive integer literal
    ([/ 8], [/ 4], [* 100], [/ 100]). *)
Definition divp (a : jsnum) (d : positive) : jsnum :=
  match a with
  | Fin x => Fin (x / inject_Z (Zpos d))%Q
  | other => other
  end.

Definition mulp (a : jsnum) (d : positive) : jsnum :=
  match a with
  | Fin x => Fin (x * inject_Z (Zpos d))%Q
  | other => other
  end.

Definition mul (a b : jsnum) : jsnum :=
  match a, b with
  | Fin x, Fin y => Fin (x * y)%Q
  | NaN, _ | _, NaN => NaN
  | Fin x, (PosInf | NegInf) | (PosInf | NegInf), Fin x =>
      if Qeq_bool x 0%Q then NaN
      else if Qltb x 0%Q
           then match a, b with
                | PosInf, _ | _, PosInf => NegInf
                | _, _ => PosInf
                end
           else match a, b with
                | PosInf, _ | _, PosInf => PosInf
                | _, _ => NegInf
                end
  | PosInf, PosInf | NegInf, NegInf => PosInf
  | _, _ => NegInf
  end.

(** ** Numeric literals

    The value of a decimal literal is the double nearest to the rational
    that the literal denotes, ties going to the even significand; beyond
    the largest double it is an infinity. *)
Definition pow2 (e : Z) : Q :=
  if (0 <=? e)%Z then inject_Z (2 ^ e) else (1 / inject_Z (2 ^ (- e)))%Q.

Definition roundHalfEven (q : Q) : Z :=
  let f := Qfloor q in
  match Qcompare (q - inject_Z f)%Q (1 # 2) with
  | Lt => f
  | Gt => (f + 1)%Z
  | Eq => if Z.even f then f else (f + 1)%Z
  end.

(** The exponent [e] of a positive rational: [2^e <= a < 2^(e+1)]. *)
Definition exponentOf (a : Q) : Z :=
  let e := (Z.log2 (Qnum a) - Z.log2 (Zpos (Qden a)))%Z in
  if Qltb a (pow2 e) then (e - 1)%Z else e.

(** A significand of 53 bits, or of fewer bits below [2^-1022]. *)
Definition nearestDouble (q : Q) : jsnum :=
  let a := if Qltb q 0%Q then (- q)%Q else q in
  if Qeq_bool a 0%Q then Fin 0%Q
  else
    let unit := pow2 (Z.max (exponentOf a - 52) (- 1074)) in
    let v := Qred (inject_Z (roundHalfEven (a / unit)%Q) * unit)%Q in
    if Qle_bool (pow2 1024) v then
      if Qltb q 0%Q then NegInf else PosInf
    else Fin (if Qltb q 0%Q then (- v)%Q else v).

(** An integer between 0 and 9, as the interfaces document each factor. *)
Definition is_factor (a : jsnum) : Prop :=
  exists k : Z, (0 <= k <= 9)%Z /\ a = ofZ k.

End JsNum.

(* ================================================================== *)
(** * The OWASP risk rating engine (owasp-risk-engine.ts) *)
(* ================================================================== *)

Module RiskEngine.
Import JsNum.

Record OwaspLikelihood : Type := {
  skillLevel : jsnum;
  motive : jsnum;
  opportunity : jsnum;
  size : jsnum;
  easeOfDiscovery : jsnum;
  easeOfExploit : jsnum;
  awareness : jsnum;
  intrusionDetection : jsnum
}.

Record OwaspImpact : Type := {
  confidentiality : jsnum;
  integrity : jsnum;
  availability : jsnum;
  accountability : jsnum
}.

(** [Partial<OwaspLikelihood>]: every key may be absent.  A field holds
    what [Math.round] is applied to, that is the property after the
    [ToNumber] coercion: a value that is no number there (a text such as
    "high" in the model's answer) is [NaN]; [undefined] and [null] are
    [None]. *)
Record PartialLikelihood : Type := {
  skillLevel' : option jsnum;
  motive' : option jsnum;
  opportunity' : option jsnum;
  size' : option jsnum;
  easeOfDiscovery' : option jsnum;
  easeOfExploit' : option jsnum;
  awareness' : option jsnum;
  intrusionDetection' : option jsnum
}.

Record PartialImpact : Type := {
  confidentiality' : option jsnum;
  integrity' : option jsnum;
  availability' : option jsnum;
  accountability' : option jsnum
}.

Inductive RiskLevel : Type := LOW | MEDIUM | HIGH.
Inductive RiskSeverity : Type := Note | Low | Medium | High | Critical.

Record OwaspRiskRating : Type := {
  likelihood : OwaspLikelihood;
  impact : OwaspImpact;
  likelihoodScore : jsnum;
  impactScore : jsnum;
  likelihoodLevel : RiskLevel;
  impactLevel : RiskLevel;
  riskSeverity : RiskSeverity;
  overallRiskScore : jsnum
}.

(** [Math.max(0, Math.min(9, Math.round(value)))] *)
Definition clamp (value : jsnum) : jsnum :=
  JsNum.max (ofZ 0) (JsNum.min (ofZ 9) (JsNum.round value)).

Definition getLevel (score : jsnum) : RiskLevel :=
  if lt score (ofZ 3) then LOW
  else if lt score (ofZ 6) then MEDIUM
  else HIGH.

(** [RISK_MATRIX[impactLevel][likelihoodLevel]] *)
Definition RISK_MATRIX (impactLevel likelihoodLevel : RiskLevel)
  : RiskSeverity :=
  match impactLevel with
  | HIGH =>
      match likelihoodLevel with
      | LOW => Medium | MEDIUM => High | HIGH => Critical
      end
  | MEDIUM =>
      match likelihoodLevel with
      | LOW => Low | MEDIUM => Medium | HIGH => High
      end
  | LOW =>
      match likelihoodLevel with
      | LOW => Note | MEDIUM => Low | HIGH => Medium
      end
  end.

Definition getRiskSeverity (impactLevel likelihoodLevel : RiskLevel)
  : RiskSeverity :=
  RISK_MATRIX impactLevel likelihoodLevel.

(** [a ?? b] *)
Definition nullish (a : option jsnum) (b : jsnum) : jsnum :=
  match a with
  | Some v => v
  | None => b
  end.

Definition defaultLikelihood : OwaspLikelihood := {|
  skillLevel := ofZ 5; motive := ofZ 5; opportunity := ofZ 5;
  size := ofZ 5; easeOfDiscovery := ofZ 5; easeOfExploit := ofZ 5;
  awareness := ofZ 5; intrusionDetection := ofZ 5
|}.

Definition defaultImpact : OwaspImpact := {|
  confidentiality := ofZ 5; integrity := ofZ 5;
  availability := ofZ 5; accountability := ofZ 5
|}.

Definition validateLikelihood (raw : option PartialLikelihood)
  : OwaspLikelihood :=
  let defaults := defaultLikelihood in
  match raw with
  | None => defaults
  | Some raw => {|
      skillLevel := clamp (nullish (skillLevel' raw) (skillLevel defaults));
      motive := clamp (nullish (motive' raw) (motive defaults));
      opportunity :=
        clamp (nullish (opportunity' raw) (opportunity defaults));
      size := clamp (nullish (size' raw) (size defaults));
      easeOfDiscovery :=
        clamp (nullish (easeOfDiscovery' raw) (easeOfDiscovery defaults));
      easeOfExploit :=
        clamp (nullish (easeOfExploit' raw) (easeOfExploit defaults));
      awareness := clamp (nullish (awareness' raw) (awareness defaults));
      intrusionDetection :=
        clamp (nullish (intrusionDetection' raw)
                       (intrusionDetection defaults))
    |}
  end.

Definition validateImpact (raw : option PartialImpact) : OwaspImpact :=
  let defaults := defaultImpact in
  match raw with
  | None => defaults
  | Some raw => {|
      confidentiality :=
        clamp (nullish (confidentiality' raw) (confidentiality defaults));
      integrity := clamp (nullish (integrity' raw) (integrity defaults));
      availability :=
        clamp (nullish (availability' raw) (availability defaults));
      accountability :=
        clamp (nullish (accountability' raw) (accountability defaults))
    |}
  end.

(** The two means, before the two-decimal rounding of the result. *)
Definition rawLikelihoodScore (l : OwaspLikelihood) : jsnum :=
  divp (add (add (add (add (add (add (add
    (skillLevel l) (motive l)) (opportunity l)) (size l))
    (easeOfDiscovery l)) (easeOfExploit l)) (awareness l))
    (intrusionDetection l)) 8.

Definition rawImpactScore (i : OwaspImpact) : jsnum :=
  divp (add (add (add
    (confidentiality i) (integrity i)) (availability i))
    (accountability i)) 4.

(** [Math.round(x * 100) / 100]; the last quotient is the real one, of
    which JavaScript keeps the nearest double. *)
Definition round2 (x : jsnum) : jsnum :=
  divp (JsNum.round (mulp x 100)) 100.

Definition calculateRiskRating
  (rawLikelihood : option PartialLikelihood)
  (rawImpact : option PartialImpact) : OwaspRiskRating :=
  let likelihood := validateLikelihood rawLikelihood in
  let impact := validateImpact rawImpact in
  let likelihoodScore := rawLikelihoodScore likelihood in
  let impactScore := rawImpactScore impact in
  let likelihoodLevel := getLevel likelihoodScore in
  let impactLevel := getLevel impactScore in
  let riskSeverity := getRiskSeverity impactLevel likelihoodLevel in
  {| likelihood := likelihood;
     impact := impact;
     likelihoodScore := round2 likelihoodScore;
     impactScore := round2 impactScore;
     likelihoodLevel := likelihoodLevel;
     impactLevel := impactLevel;
     riskSeverity := riskSeverity;
     overallRiskScore :=
       divp (JsNum.round (mulp (mul likelihoodScore impactScore) 100)) 100
  |}.

(** A complete factor record seen at the type [Partial<...>]. *)
Definition partialOfLikelihood (l : OwaspLikelihood) : PartialLikelihood := {|
  skillLevel' := Some (skillLevel l);
  motive' := Some (motive l);
  opportunity' := Some (opportunity l);
  size' := Some (size l);
  easeOfDiscovery' := Some (easeOfDiscovery l);
  easeOfExploit' := Some (easeOfExploit l);
  awareness' := Some (awareness l);
  intrusionDetection' := Some (intrusionDetection l)
|}.

Definition partialOfImpact (i : OwaspImpact) : PartialImpact := {|
  confidentiality' := Some (confidentiality i);
  integrity' := Some (integrity i);
  availability' := Some (availability i);
  accountability' := Some (accountability i)
|}.

End RiskEngine.

(* ================================================================== *)
(** * String helpers (the JavaScript [String] methods the sources use) *)
(* ================================================================== *)

Module Str.
Local Open Scope string_scope.

Definition lowerChar (c : ascii) : ascii :=
  let n := nat_of_ascii c in
  if ((65 <=? n) && (n <=? 90))%nat then ascii_of_nat (n + 32) else c.

(** [s.toLowerCase()] on the ASCII letters. *)
Fixpoint toLowerCase (s : string) : string :=
  match s with
  | EmptyString => EmptyString
  | String c r => String (lowerChar c) (toLowerCase r)
  end.

(** [s.toLowerCase()] on a text in its UTF-8 form.  Besides the ASCII
    capitals, two characters have an ASCII letter in their lower case:
    the Kelvin sign U+212A, which becomes [k], and the capital I with a
    dot U+0130, which becomes [i] followed by the combining dot U+0307.
    Every other letter beyond ASCII has a lower case beyond ASCII and is
    left as it is, which no comparison with an ASCII text tells apart. *)
Fixpoint toLowerCaseUtf8 (s : string) : string :=
  match s with
  | EmptyString => EmptyString
  | String c1 r1 =>
      match r1 with
      | EmptyString => String (lowerChar c1) EmptyString
      | String c2 r2 =>
          if ((nat_of_ascii c1 =? 196) && (nat_of_ascii c2 =? 176))%nat
          then String "i" (String "204" (String "135" (toLowerCaseUtf8 r2)))
          else
            match r2 with
            | EmptyString => String (lowerChar c1) (toLowerCaseUtf8 r1)
            | String c3 r3 =>
                if ((nat_of_ascii c1 =? 226) && (nat_of_ascii c2 =? 132)
                    && (nat_of_ascii c3 =? 170))%nat
                then String "k" (toLowerCaseUtf8 r3)
                else String (lowerChar c1) (toLowerCaseUtf8 r1)
            end
      end
  end.

Definition startsWith (s p : string) : bool := String.prefix p s.

(** [s.includes(needle)] *)
Fixpoint includes (s needle : string) : bool :=
  if startsWith s needle then true
  else match s with
       | EmptyString => false
       | String _ r => includes r needle
       end.

(** [s.endsWith(suffix)] *)
Definition endsWith (s suffix : string) : bool :=
  let n := String.length s in
  let m := String.length suffix in
  if (m <=? n)%nat
  then String.eqb (String.substring (n - m) m s) suffix
  else false.

(** A pattern [/(?:w1|w2|...)/i]: one of the words occurs, whatever the
    case of its letters. *)
Definition includesAnyCI (s : string) (words : list string) : bool :=
  existsb (includes (toLowerCase s)) words.

(** A pattern [/(?:w1|w2|...)$/i]. *)
Definition endsWithAnyCI (s : string) (words : list string) : bool :=
  existsb (endsWith (toLowerCase s)) words.

Definition endsWithAny (s : string) (words : list string) : bool :=
  existsb (endsWith s) words.

(** [s.split(sep)] for a one-character separator. *)
Fixpoint split (sep : ascii) (s : string) : list string :=
  match s with
  | EmptyString => [EmptyString]
  | String c r =>
      if Ascii.eqb c sep then EmptyString :: split sep r
      else match split sep r with
           | [] => [String c EmptyString]
           | w :: ws => String c w :: ws
           end
  end.

(** White space of [trim], of [\s] and of [ToNumber], in the UTF-8 form
    of a text.  In one byte: TAB, LF, VT, FF, CR, SP. *)
Definition isSpace (c : ascii) : bool :=
  let n := nat_of_ascii c in
  ((9 <=? n) && (n <=? 13) || (n =? 32))%nat.

(** In two bytes: U+00A0. *)
Definition isSpace2 (a b : ascii) : bool :=
  ((nat_of_ascii a =? 194) && (nat_of_ascii b =? 160))%nat.

(** In three bytes: U+1680, U+2000 to U+200A, U+2028, U+2029, U+202F,
    U+205F, U+3000 and U+FEFF. *)
Definition isSpace3 (a b c : ascii) : bool :=
  let x := nat_of_ascii a in
  let y := nat_of_ascii b in
  let z := nat_of_ascii c in
  ((x =? 225) && (y =? 154) && (z =? 128)
   || (x =? 226) && (y =? 128)
      && ((128 <=? z) && (z <=? 138) || (z =? 168) || (z =? 169)
          || (z =? 175))
   || (x =? 226) && (y =? 129) && (z =? 159)
   || (x =? 227) && (y =? 128) && (z =? 128)
   || (x =? 239) && (y =? 187) && (z =? 191))%nat.

(** [s.trimStart()] on the characters of a text. *)
Fixpoint trimStartChars (s : list ascii) : list ascii :=
  match s with
  | [] => []
  | c1 :: r1 =>
      if isSpace c1 then trimStartChars r1
      else
        match r1 with
        | [] => s
        | c2 :: r2 =>
            if isSpace2 c1 c2 then trimStartChars r2
            else
              match r2 with
              | [] => s
              | c3 :: r3 =>
                  if isSpace3 c1 c2 c3 then trimStartChars r3 else s
              end
        end
  end.

(** [s.trimEnd()], on the characters of the text in reverse order. *)
Fixpoint trimEndReversed (s : list ascii) : list ascii :=
  match s with
  | [] => []
  | c1 :: r1 =>
      if isSpace c1 then trimEndReversed r1
      else
        match r1 with
        | [] => s
        | c2 :: r2 =>
            if isSpace2 c2 c1 then trimEndReversed r2
            else
              match r2 with
              | [] => s
              | c3 :: r3 =>
                  if isSpace3 c3 c2 c1 then trimEndReversed r3 else s
              end
        end
  end.

(** [s.trim()] on the characters of a text. *)
Definition trimChars (s : list ascii) : list ascii :=
  rev (trimEndReversed (rev (trimStartChars s))).

Definition trim (s : string) : string :=
  string_of_list_ascii (trimChars (list_ascii_of_string s)).

(** Decimal text of a natural number, as a template literal prints it. *)
Definition ofNat (n : nat) : string :=
  NilEmpty.string_of_uint (Nat.to_uint n).

End Str.

(* ================================================================== *)
(** * Repository analysis types (repo-analyzer.ts) *)
(* ================================================================== *)

Module Repo.

Inductive ComponentType : Type :=
| api | service | database | queue | gateway | external | frontend | config.

Definition ComponentType_eqb (a b : ComponentType) : bool :=
  match a, b with
  | api, api | service, service | database, database | queue, queue
  | gateway, gateway | external, external | frontend, frontend
  | config, config => true
  | _, _ => false
  end.

Record ComponentInfo : Type := {
  name : string;
  type : ComponentType;
  files : list string;
  description : string
}.

Record DataFlow : Type := {
  from : string;
  to : string;
  protocol : string;
  dataType : string
}.

Record TrustBoundary : Type := {
  boundaryName : string;
  members : list string
}.

Inductive Severity : Type := Critical | High | Medium | Low.

Definition Severity_text (s : Severity) : string :=
  match s with
  | Critical => "Critical" | High => "High"
  | Medium => "Medium" | Low => "Low"
  end.

Record SecurityFinding : Type := {
  file : string;
  line : nat;
  pattern : string;
  snippet : string;
  severity : Severity
}.

Record RepoAnalysis : Type := {
  repoUrl : string;
  languages : list string;
  frameworks : list string;
  components : list ComponentInfo;
  dataFlows : list DataFlow;
  trustBoundaries : list TrustBoundary;
  securityFindings : list SecurityFinding;
  fileTree : list string;
  entryPoints : list string
}.

(** The cloned working tree: the text of the file at a relative path, or
    [None] where [fs.readFileSync] throws. *)
Definition FileSystem : Type := string -> option string.

End Repo.

(* ================================================================== *)
(** * The architecture extractor (repo-analyzer.ts, extractArchitecture) *)
(* ================================================================== *)

Module Extractor.
Import Repo.
Local Open Scope string_scope.
Local Open Scope list_scope.

(** [arr.push(x)] under a condition. *)
Definition pushIf {A : Type} (cond : bool) (x : A) (arr : list A) : list A :=
  if cond then arr ++ [x] else arr.

(** [stem\.ext] for every stem and extension of two alternations. *)
Definition suffixes (stems exts : list string) : list string :=
  flat_map (fun st => map (fun e => (st ++ e)%string) exts) stems.

(** [/(?:routes?|controllers?|handlers?|api|endpoints?)\//i.test(f) ||
     /(?:routes?|controllers?|handlers?)\.(?:ts|js|py|go)$/i.test(f)] *)
Definition isApiFile (f : string) : bool :=
  Str.includesAnyCI f
    ["route/"; "routes/"; "controller/"; "controllers/"; "handler/";
     "handlers/"; "api/"; "endpoint/"; "endpoints/"]
  || Str.endsWithAnyCI f
       (suffixes ["route"; "routes"; "controller"; "controllers";
                  "handler"; "handlers"]
                 [".ts"; ".js"; ".py"; ".go"]).

(** [/(?:pages?|views?|components?|screens?)\//i.test(f) &&
     /\.[tj]sx?$/.test(f)] *)
Definition isFrontendFile (f : string) : bool :=
  Str.includesAnyCI f
    ["page/"; "pages/"; "view/"; "views/"; "component/"; "components/";
     "screen/"; "screens/"]
  && Str.endsWithAny f [".ts"; ".tsx"; ".js"; ".jsx"].

Definition dbPatterns (content : string) : bool :=
  Str.includesAnyCI content
    ["mongoose"; "sequelize"; "prisma"; "typeorm"; "knex"; "sqlalchemy";
     "gorm"; "diesel"; "pg"; "mysql"; "mongodb"; "redis"].

Definition queuePatterns (content : string) : bool :=
  Str.includesAnyCI content
    ["mqtt"; "kafka"; "rabbitmq"; "sqs"; "pubsub"; "amqp"; "bull";
     "celery"; "nats"].

(** The [try { readFileSync ... test } catch { return false }] filter. *)
Definition contentMatches (fs : FileSystem) (re : string -> bool)
  (f : string) : bool :=
  match fs f with
  | Some content => re content
  | None => false
  end.

Definition isAuthFile (f : string) : bool :=
  Str.includesAnyCI f
    ["auth"; "login"; "session"; "jwt"; "oauth"; "passport"; "guard"].

(** [/(?:Dockerfile|docker-compose|\.tf$|cloudformation|k8s|helm)/i.test(f)
     || f.endsWith(".env") || f.endsWith(".env.example")] *)
Definition isInfraFile (f : string) : bool :=
  Str.includesAnyCI f
    ["dockerfile"; "docker-compose"; "cloudformation"; "k8s"; "helm"]
  || Str.endsWithAnyCI f [".tf"]
  || Str.endsWith f ".env"
  || Str.endsWith f ".env.example".

Definition isGatewayFile (f : string) : bool :=
  Str.includesAnyCI f
    ["gateway"; "proxy"; "nginx"; "haproxy"; "envoy"; "middleware"].

(** [/\.(ts|js|py|go|rs|java|cs|rb|php)$/.test(f)] *)
Definition isSourceFile (f : string) : bool :=
  Str.endsWithAny f
    [".ts"; ".js"; ".py"; ".go"; ".rs"; ".java"; ".cs"; ".rb"; ".php"].

Definition nonEmpty {A : Type} (l : list A) : bool := (0 <? List.length l)%nat.

(** Lines 402-527: one component per matched category, the generic
    [Application] when none matched. *)
Definition detectComponents (fs : FileSystem) (files : list string)
  : list ComponentInfo :=
  let components : list ComponentInfo := [] in
  let apiFiles := filter isApiFile files in
  let components :=
    pushIf (nonEmpty apiFiles)
      {| name := "API Server"; type := api;
         files := firstn 20 apiFiles;
         description := ("API layer with "
                         ++ Str.ofNat (List.length apiFiles)
                         ++ " route/controller files")%string |} components in
  let frontendFiles := filter isFrontendFile files in
  let components :=
    pushIf (nonEmpty frontendFiles)
      {| name := "Frontend Application"; type := frontend;
         files := firstn 20 frontendFiles;
         description := ("Frontend with "
                         ++ Str.ofNat (List.length frontendFiles)
                         ++ " component/page files")%string |} components in
  let dbFiles := filter (contentMatches fs dbPatterns) files in
  let components :=
    pushIf (nonEmpty dbFiles)
      {| name := "Database"; type := database;
         files := firstn 10 dbFiles;
         description := "Data persistence layer" |} components in
  let queueFiles := filter (contentMatches fs queuePatterns) files in
  let components :=
    pushIf (nonEmpty queueFiles)
      {| name := "Message Queue"; type := queue;
         files := firstn 10 queueFiles;
         description := "Asynchronous messaging layer" |} components in
  let authFiles := filter isAuthFile files in
  let components :=
    pushIf (nonEmpty authFiles)
      {| name := "Auth Service"; type := service;
         files := firstn 10 authFiles;
         description := "Authentication and authorization service" |}
      components in
  let infraFiles := filter isInfraFile files in
  let components :=
    pushIf (nonEmpty infraFiles)
      {| name := "Infrastructure"; type := config;
         files := firstn 10 infraFiles;
         description := "Infrastructure and configuration files" |}
      components in
  let gatewayFiles := filter isGatewayFile files in
  let components :=
    pushIf (nonEmpty gatewayFiles)
      {| name := "API Gateway"; type := gateway;
         files := firstn 10 gatewayFiles;
         description := "API gateway or reverse proxy" |} components in
  let srcFiles := filter isSourceFile files in
  pushIf (List.length components =? 0)%nat
    {| name := "Application"; type := service;
       files := firstn 20 srcFiles;
       description := ("Application with "
                       ++ Str.ofNat (List.length srcFiles)
                       ++ " source files")%string |} components.

(** [components.find(...)] read as a condition. *)
Definition found {A : Type} (p : A -> bool) (l : list A) : bool :=
  match find p l with
  | Some _ => true
  | None => false
  end.

Definition hasType (t : ComponentType) (components : list ComponentInfo)
  : bool :=
  found (fun c => ComponentType_eqb (type c) t) components.

Definition hasName (n : string) (components : list ComponentInfo) : bool :=
  found (fun c => String.eqb (name c) n) components.

Definition endUser : ComponentInfo :=
  {| name := "End User"; type := external; files := [];
     description := "External user accessing the application" |}.

Definition flow (a b p d : string) : DataFlow :=
  {| from := a; to := b; protocol := p; dataType := d |}.

(** Lines 529-570.  The [has...] flags are read before the external entity
    is pushed. *)
Definition inferDataFlows (components : list ComponentInfo)
  : list DataFlow :=
  let hasApi := hasType api components in
  let hasDb := hasType database components in
  let hasQueue := hasType queue components in
  let hasAuth := hasName "Auth Service" components in
  let hasFrontend := hasType frontend components in
  let hasGateway := hasType gateway components in
  let dataFlows : list DataFlow := [] in
  let dataFlows :=
    if hasFrontend && hasApi then
      (dataFlows
         ++ [flow "End User" "Frontend Application" "HTTPS" "User Requests"])
        ++ [flow "Frontend Application" "API Server" "HTTPS/REST"
                 "API Calls"]
    else if hasApi then
      dataFlows
        ++ [flow "End User"
                 (if hasGateway then "API Gateway" else "API Server")
                 "HTTPS" "API Requests"]
    else dataFlows in
  let dataFlows :=
    pushIf (hasGateway && hasApi)
      (flow "API Gateway" "API Server" "HTTP/Internal" "Proxied Requests")
      dataFlows in
  let dataFlows :=
    pushIf (hasAuth && hasApi)
      (flow "API Server" "Auth Service" "Internal" "Auth Tokens")
      dataFlows in
  let dataFlows :=
    pushIf (hasApi && hasDb)
      (flow "API Server" "Database" "TCP" "Queries/Data") dataFlows in
  let dataFlows :=
    pushIf (hasAuth && hasDb)
      (flow "Auth Service" "Database" "TCP" "User Credentials")
      dataFlows in
  pushIf (hasQueue && hasApi)
    (flow "API Server" "Message Queue" "AMQP/MQTT" "Events/Commands")
    dataFlows.

Definition isExternal (c : ComponentInfo) : bool :=
  ComponentType_eqb (type c) external.

(** Lines 572-602. *)
Definition buildTrustBoundaries (components : list ComponentInfo)
  : list TrustBoundary :=
  let trustBoundaries : list TrustBoundary := [] in
  let internalComponents :=
    map name (filter (fun c => negb (isExternal c)) components) in
  let trustBoundaries :=
    pushIf (nonEmpty internalComponents)
      {| boundaryName := "Application Boundary";
         members := internalComponents |} trustBoundaries in
  let externalComponents := map name (filter isExternal components) in
  let trustBoundaries :=
    pushIf (nonEmpty externalComponents)
      {| boundaryName := "External"; members := externalComponents |}
      trustBoundaries in
  match find (fun c => ComponentType_eqb (type c) config) components with
  | Some infraComponent =>
      trustBoundaries
        ++ [{| boundaryName := "Infrastructure";
               members := [name infraComponent] |}]
  | None => trustBoundaries
  end.

Record Architecture : Type := {
  archComponents : list ComponentInfo;
  archDataFlows : list DataFlow;
  archTrustBoundaries : list TrustBoundary
}.

(** [extractArchitecture(rootDir, files, frameworks, findings)]; the last
    two arguments are not read by the function and [rootDir] is the root of
    the file system [fs]. *)
Definition extractArchitecture (fs : FileSystem) (files : list string)
  : Architecture :=
  let detected := detectComponents fs files in
  let dataFlows := inferDataFlows detected in
  let components := detected ++ [endUser] in
  {| archComponents := components;
     archDataFlows := dataFlows;
     archTrustBoundaries := buildTrustBoundaries components |}.

End Extractor.

(* ================================================================== *)
(** * The pattern scanner (repo-analyzer.ts, scanSecurity) *)
(* ================================================================== *)

Module Scanner.
Import Repo.
Local Open Scope string_scope.
Local Open Scope list_scope.

(** A detector of the registry.  [exec] stands for the compiled global
    pattern: the offsets at which the successive calls of
    [pattern.exec(content)] match, from [lastIndex = 0] until [null]. *)
Record SecurityPattern : Type := {
  patternName : string;
  exec : string -> list nat;
  patternSeverity : Severity;
  patternDescription : string
}.

(** [path.extname(p)]: from the last dot of the last path segment, empty
    when that segment has no dot or only a leading one. *)
Definition basename (p : string) : string :=
  last (Str.split "/" p) EmptyString.

Fixpoint lastDot (s : string) (i : nat) (acc : option nat) : option nat :=
  match s with
  | EmptyString => acc
  | String c r =>
      lastDot r (S i) (if Ascii.eqb c "." then Some i else acc)
  end.

Definition extname (p : string) : string :=
  let b := basename p in
  if String.eqb b ".." then EmptyString
  else match lastDot b 0 None with
       | None | Some O => EmptyString
       | Some i => String.substring i (String.length b - i) b
       end.

Definition codeExtensions : list string :=
  [".ts"; ".tsx"; ".js"; ".jsx"; ".py"; ".go"; ".rs"; ".java";
   ".cs"; ".c"; ".cpp"; ".rb"; ".php"; ".yaml"; ".yml"; ".json";
   ".env"; ".cfg"; ".conf"; ".ini"; ".toml"].

Definition isScanned (relFile : string) : bool :=
  let ext := Str.toLowerCase (extname relFile) in
  existsb (String.eqb ext) codeExtensions || Str.includes relFile ".env".

(** [content.substring(0, index).split("\n").length] *)
Definition lineOf (content : string) (index : nat) : nat :=
  List.length (Str.split "010" (String.substring 0 index content)).

(** [findings.filter((f) => f.file === relFile).length] *)
Definition countFor (relFile : string) (findings : list SecurityFinding)
  : nat :=
  List.length (filter (fun f => String.eqb (file f) relFile) findings).

(** The finding pushed for a match at [index]. *)
Definition findingAt (relFile content : string) (lines : list string)
  (p : SecurityPattern) (index : nat) : SecurityFinding :=
  let lineNum := lineOf content index in
  let snippetLine := nth (lineNum - 1) lines EmptyString in
  {| file := relFile;
     line := lineNum;
     pattern := patternName p;
     snippet := String.substring 0 200 (Str.trim snippetLine);
     severity := patternSeverity p |}.

(** The [while ((match = exec(content)) !== null)] loop of one detector:
    a finding per match, left by [break] once the file has 10 findings. *)
Fixpoint scanMatches (relFile content : string) (lines : list string)
  (p : SecurityPattern) (matches : list nat)
  (findings : list SecurityFinding) : list SecurityFinding :=
  match matches with
  | [] => findings
  | index :: rest =>
      let findings :=
        findings ++ [findingAt relFile content lines p index] in
      if (10 <=? countFor relFile findings)%nat then findings
      else scanMatches relFile content lines p rest findings
  end.

(** The [for (const pattern of SECURITY_PATTERNS)] loop over one file. *)
Definition scanFile (SECURITY_PATTERNS : list SecurityPattern)
  (relFile content : string) (findings : list SecurityFinding)
  : list SecurityFinding :=
  let lines := Str.split "010" content in
  fold_left
    (fun findings p =>
       scanMatches relFile content lines p (exec p content) findings)
    SECURITY_PATTERNS findings.

Definition scanSecurity (SECURITY_PATTERNS : list SecurityPattern)
  (fs : FileSystem) (files : list string) : list SecurityFinding :=
  fold_left
    (fun findings relFile =>
       if negb (isScanned relFile) then findings
       else match fs relFile with
            | Some content =>
                scanFile SECURITY_PATTERNS relFile content findings
            | None => findings
            end)
    files [].

(** Findings of one detector for one file. *)
Definition countPair (relFile detector : string)
  (findings : list SecurityFinding) : nat :=
  List.length (filter (fun f => String.eqb (file f) relFile
                                && String.eqb (pattern f) detector) findings).

(** ** A registry of literal detectors

    How a pattern matches is the business of the regular-expression
    engine, and the scan takes the registry as an argument.  A literal
    detector matches at every occurrence of one of its words;
    [literalPatterns] has the names, the order and the severities of
    [SECURITY_PATTERNS], each detector with words that the pattern of the
    source matches.  On the sample scripts below the literal detectors
    match at the offsets at which the patterns of the source do. *)
Fixpoint occurrences (words : list string) (s : string) (i : nat)
  : list nat :=
  match s with
  | EmptyString => []
  | String _ r =>
      if existsb (Str.startsWith s) words
      then i :: occurrences words r (S i)
      else occurrences words r (S i)
  end.

Definition literal (n : string) (words : list string) (sev : Severity)
  (d : string) : SecurityPattern :=
  {| patternName := n;
     exec := fun content => occurrences words content O;
     patternSeverity := sev;
     patternDescription := d |}.

Definition nl : string := String "010" EmptyString.

Definition literalPatterns : list SecurityPattern :=
  [ literal "hardcoded_secret" ["password = 'hunter2hunter2'"] Critical
      "Hardcoded secret or API key found";
    literal "sql_concatenation" ["query(f'"; "execute(f'"] Critical
      "Potential SQL injection via string concatenation";
    literal "eval_usage" ["eval("; "exec("] High
      "Use of eval/exec which may allow code injection";
    literal "missing_https" ["http://example"] Medium
      "Non-HTTPS URL found (potential cleartext transmission)";
    literal "command_injection" ["child_process("; "subprocess("] High
      "System command execution (potential command injection)";
    literal "cors_wildcard" ["cors: '*'"] Medium
      "CORS wildcard configuration";
    literal "debug_enabled" ["DEBUG=true"; "debug=true"] Low
      "Debug mode enabled";
    literal "no_auth_check" [("@app.route('/x')" ++ nl)%string] High
      "Route handler potentially missing authentication";
    literal "insecure_deserialization" ["pickle.loads"; "unserialize"] High
      "Potentially insecure deserialization";
    literal "weak_crypto" ["md5"; "sha1"] Medium
      "Weak cryptographic algorithm usage" ].

(** [n] lines [l]. *)
Fixpoint repeatLine (n : nat) (l : string) : string :=
  match n with
  | O => EmptyString
  | S n => (l ++ nl ++ repeatLine n l)%string
  end.

(** A script with eleven calls of [eval] and one use of [md5]. *)
Definition evalScript : string :=
  (repeatLine 11 "eval(x)" ++ "md5(y)")%string.

(** A working tree with a single file. *)
Definition oneFile (path content : string) : FileSystem :=
  fun p => if String.eqb p path then Some content else None.

(** A script with three calls of [eval] and eleven uses of [md5]. *)
Definition mixedScript : string :=
  (repeatLine 3 "eval(x)" ++ repeatLine 11 "md5(y)")%string.

End Scanner.

(* ================================================================== *)
(** * The model provider (llm-provider, callLLM) *)
(* ================================================================== *)

Module Provider.
Local Open Scope string_scope.
Local Open Scope list_scope.

Inductive LLMProvider : Type := anthropic | gemini.

Record LLMConfig : Type := {
  provider : LLMProvider;
  apiKey : string;
  model : option string;
  geminiEndpoint : option string
}.

(** What the two SDKs accept next to the payload: the options object of
    the client constructor and the per-request options.  [timeout] and
    [maxRetries] are the SDK's knobs for a deadline and a retry bound;
    a key that the caller's object literal does not have is [None]. *)
Record ClientOptions : Type := {
  clientApiKey : string;
  baseUrl : option string;
  timeout : option nat;
  maxRetries : option nat
}.

Record RequestOptions : Type := {
  requestTimeout : option nat;
  requestMaxRetries : option nat
}.

Record Payload : Type := {
  payloadModel : string;
  maxTokens : N;
  system : string;
  userContent : string
}.

(** One call that leaves the process: [client.messages.create(...)] or
    [ai.models.generateContent(...)]. *)
Record Invocation : Type := {
  target : LLMProvider;
  clientOptions : ClientOptions;
  payload : Payload;
  requestOptions : option RequestOptions
}.

Inductive ErrorKind : Type :=
| TimedOut | RateLimited | ServerError | OtherError.

Record Failure : Type := {
  kind : ErrorKind;
  message : string
}.

(** A content block of an Anthropic message. *)
Inductive ContentBlock : Type :=
| TextBlock (text : string)
| OtherBlock.

(** The remote model as the program meets it: each invocation resolves
    (with the content blocks of a message, or with the [text] of a
    response, which may be absent) or rejects. *)
Record Remote : Type := {
  messagesCreate : Invocation -> list ContentBlock + Failure;
  generateContent : Invocation -> option string + Failure
}.

(** An asynchronous computation that talks to the remote model: its
    outcome and the invocations it made, in order. *)
Definition Async (A : Type) : Type :=
  Remote -> (A + Failure) * list Invocation.

Definition ret {A : Type} (a : A) : Async A := fun _ => (inl a, []).

Definition throw {A : Type} (msg : string) : Async A :=
  fun _ => (inr {| kind := OtherError; message := msg |}, []).

Definition bind {A B : Type} (m : Async A) (k : A -> Async B) : Async B :=
  fun remote =>
    match m remote with
    | (inl a, log) =>
        let '(r, log') := k a remote in (r, log ++ log')
    | (inr e, log) => (inr e, log)
    end.

(** [await client.messages.create(...)] and
    [await ai.models.generateContent(...)]: one invocation each; a
    rejection is rethrown. *)
Definition awaitMessagesCreate (i : Invocation)
  : Async (list ContentBlock) :=
  fun remote => (messagesCreate remote i, [i]).

Definition awaitGenerateContent (i : Invocation) : Async (option string) :=
  fun remote => (generateContent remote i, [i]).

Notation "x <- m ;; k" := (bind m (fun x => k))
  (at level 61, m at next level, right associativity).

Definition isText (b : ContentBlock) : bool :=
  match b with
  | TextBlock _ => true
  | OtherBlock => false
  end.

(** The arguments of [new Anthropic({ apiKey })] and of
    [client.messages.create({ model, max_tokens, system, messages })]. *)
Definition anthropicRequest (systemPrompt userPrompt : string)
  (config : LLMConfig) (maxTokens : N) : Invocation :=
  {| target := anthropic;
     clientOptions :=
       {| clientApiKey := apiKey config; baseUrl := None;
          timeout := None; maxRetries := None |};
     payload := {| payloadModel := "claude-sonnet-4-5-20250929";
                   maxTokens := maxTokens;
                   system := systemPrompt;
                   userContent := userPrompt |};
     requestOptions := None |}.

Definition callAnthropic (systemPrompt userPrompt : string)
  (config : LLMConfig) (maxTokens : N) : Async string :=
  content <-
    awaitMessagesCreate
      (anthropicRequest systemPrompt userPrompt config maxTokens) ;;
  match find isText content with
  | Some (TextBlock text) => ret text
  | _ => throw "No text response from Anthropic"
  end.

(** The arguments of [new GoogleGenAI({ apiKey, httpOptions? })] and of
    [ai.models.generateContent({ model, contents, config })]. *)
Definition geminiRequest (systemPrompt userPrompt : string)
  (config : LLMConfig) (maxTokens : N) : Invocation :=
  {| target := gemini;
     clientOptions :=
       {| clientApiKey := apiKey config;
          baseUrl := match geminiEndpoint config with
                     | Some e =>
                         if String.eqb e EmptyString then None else Some e
                     | None => None
                     end;
          timeout := None; maxRetries := None |};
     payload := {| payloadModel :=
                     match model config with
                     | Some m =>
                         if String.eqb m EmptyString
                         then "gemini-2.5-flash" else m
                     | None => "gemini-2.5-flash"
                     end;
                   maxTokens := maxTokens;
                   system := systemPrompt;
                   userContent := userPrompt |};
     requestOptions := None |}.

Definition callGemini (systemPrompt userPrompt : string)
  (config : LLMConfig) (maxTokens : N) : Async string :=
  text <-
    awaitGenerateContent
      (geminiRequest systemPrompt userPrompt config maxTokens) ;;
  match text with
  | Some text =>
      if String.eqb text EmptyString
      then throw "No text response from Gemini"
      else ret text
  | None => throw "No text response from Gemini"
  end.

Definition callLLM (systemPrompt userPrompt : string)
  (config : LLMConfig) (maxTokens : N) : Async string :=
  match provider config with
  | gemini => callGemini systemPrompt userPrompt config maxTokens
  | anthropic => callAnthropic systemPrompt userPrompt config maxTokens
  end.

(** The deadline an invocation carries, from the request options or else
    from the client's. *)
Definition explicitTimeout (i : Invocation) : option nat :=
  match requestOptions i with
  | Some {| requestTimeout := Some t |} => Some t
  | _ => timeout (clientOptions i)
  end.

Definition explicitRetryBound (i : Invocation) : option nat :=
  match requestOptions i with
  | Some {| requestMaxRetries := Some n |} => Some n
  | _ => maxRetries (clientOptions i)
  end.

Definition carriesTimeout (i : Invocation) : bool :=
  match explicitTimeout i with
  | Some _ => true
  | None => false
  end.

(** How the remote answers an invocation when it rejects it. *)
Definition rejection (remote : Remote) (i : Invocation) : option Failure :=
  match target i with
  | anthropic =>
      match messagesCreate remote i with
      | inr e => Some e
      | inl _ => None
      end
  | gemini =>
      match generateContent remote i with
      | inr e => Some e
      | inl _ => None
      end
  end.

(** A configuration for each provider, and a remote model that never
    answers in time. *)
Definition anthropicConfig : LLMConfig :=
  {| provider := anthropic; apiKey := "sk-test"; model := None;
     geminiEndpoint := None |}.

Definition geminiConfig : LLMConfig :=
  {| provider := gemini; apiKey := "g-test";
     model := Some "gemini-2.5-flash"; geminiEndpoint := None |}.

Definition timingOut : Remote :=
  {| messagesCreate := fun _ =>
       inr {| kind := TimedOut; message := "Request timed out." |};
     generateContent := fun _ =>
       inr {| kind := TimedOut; message := "deadline exceeded" |} |}.


End Provider.

(* ================================================================== *)
(** * JSON texts and [JSON.parse] *)
(* ================================================================== *)

Module Json.
Import JsNum.
Local Open Scope char_scope.
Local Open Scope list_scope.

(** A text is its sequence of characters (bytes of the UTF-8 form). *)
Definition text : Type := list ascii.

Definition ofString (s : string) : text := list_ascii_of_string s.

Inductive json : Type :=
| JNull
| JBool (b : bool)
| JNumber (n : jsnum)
| JString (s : text)
| JArray (items : list json)
| JObject (members : list (text * json)).

Definition text_eqb (a b : text) : bool :=
  String.eqb (string_of_list_ascii a) (string_of_list_ascii b).

Definition dquote : ascii := "034".

(** JSON white space: space, TAB, LF, CR. *)
Definition isWs (c : ascii) : bool :=
  Ascii.eqb c " " || Ascii.eqb c "009" || Ascii.eqb c "010"
  || Ascii.eqb c "013".

Fixpoint skipWs (s : text) : text :=
  match s with
  | c :: r => if isWs c then skipWs r else s
  | [] => []
  end.

Definition digitOf (c : ascii) : option Z :=
  let n := Z.of_nat (nat_of_ascii c) in
  if ((48 <=? n) && (n <=? 57))%Z then Some (n - 48)%Z else None.

Definition hexOf (c : ascii) : option Z :=
  let n := Z.of_nat (nat_of_ascii c) in
  if ((48 <=? n) && (n <=? 57))%Z then Some (n - 48)%Z
  else if ((97 <=? n) && (n <=? 102))%Z then Some (n - 87)%Z
  else if ((65 <=? n) && (n <=? 70))%Z then Some (n - 55)%Z
  else None.

Definition byte (z : Z) : ascii := ascii_of_nat (Z.to_nat z).

(** UTF-8 bytes of the code unit of a [\uXXXX] escape (a surrogate half is
    encoded on its own). *)
Definition utf8 (u : Z) : text :=
  if (u <? 128)%Z then [byte u]
  else if (u <? 2048)%Z then [byte (192 + u / 64); byte (128 + u mod 64)]
  else [byte (224 + u / 4096); byte (128 + (u / 64) mod 64);
        byte (128 + u mod 64)].

(** The characters of a string literal after its opening quote, up to and
    with the closing quote. *)
Fixpoint parseString (s : text) (acc : text) : option (text * text) :=
  match s with
  | [] => None
  | c :: r =>
      if Ascii.eqb c dquote then Some (rev acc, r)
      else if Ascii.eqb c "\" then
        match r with
        | [] => None
        | e :: r' =>
            if Ascii.eqb e dquote then parseString r' (dquote :: acc)
            else if Ascii.eqb e "\" then parseString r' ("\" :: acc)
            else if Ascii.eqb e "/" then parseString r' ("/" :: acc)
            else if Ascii.eqb e "b" then parseString r' ("008" :: acc)
            else if Ascii.eqb e "f" then parseString r' ("012" :: acc)
            else if Ascii.eqb e "n" then parseString r' ("010" :: acc)
            else if Ascii.eqb e "r" then parseString r' ("013" :: acc)
            else if Ascii.eqb e "t" then parseString r' ("009" :: acc)
            else if Ascii.eqb e "u" then
              match r' with
              | h1 :: h2 :: h3 :: h4 :: r'' =>
                  match hexOf h1, hexOf h2, hexOf h3, hexOf h4 with
                  | Some a, Some b, Some c', Some d =>
                      parseString r''
                        (rev (utf8 (((a * 16 + b) * 16 + c') * 16 + d))
                           ++ acc)
                  | _, _, _, _ => None
                  end
              | _ => None
              end
            else None
        end
      else if (nat_of_ascii c <? 32)%nat then None
      else parseString r (c :: acc)
  end.

(** A run of decimal digits: its value, its length and what follows. *)
Fixpoint takeDigits (s : text) (value : Z) (count : nat)
  : Z * nat * text :=
  match s with
  | c :: r =>
      match digitOf c with
      | Some d => takeDigits r (value * 10 + d)%Z (S count)
      | None => (value, count, s)
      end
  | [] => (value, count, s)
  end.

Definition pow10 (e : Z) : Q :=
  if (0 <=? e)%Z then inject_Z (10 ^ e) else (1 / inject_Z (10 ^ (- e)))%Q.

(** [s] without the prefix [p], when it starts with it. *)
Fixpoint stripPrefix (p s : text) : option text :=
  match p, s with
  | [], _ => Some s
  | a :: p', c :: s' => if Ascii.eqb a c then stripPrefix p' s' else None
  | _ :: _, [] => None
  end.

Definition isChar (c : ascii) (s : text) : option text :=
  match s with
  | a :: r => if Ascii.eqb a c then Some r else None
  | [] => None
  end.

(** The fraction and exponent that may follow the integer part. *)
Definition parseExponent (m : Q) (neg : bool) (s : text)
  : option (Q * text) :=
  let '(e, k, r) := takeDigits s 0%Z O in
  match k with
  | O => None
  | _ => Some ((m * pow10 (if neg then - e else e))%Q, r)
  end.

Definition parseExp (m : Q) (s : text) : option (Q * text) :=
  match s with
  | c :: r1 =>
      if Ascii.eqb c "e" || Ascii.eqb c "E" then
        match isChar "+" r1, isChar "-" r1 with
        | Some r2, _ => parseExponent m false r2
        | None, Some r2 => parseExponent m true r2
        | None, None => parseExponent m false r1
        end
      else Some (m, s)
  | [] => Some (m, s)
  end.

Definition parseFracExp (intPart : Z) (s : text) : option (Q * text) :=
  match isChar "." s with
  | Some r =>
      let '(f, k, r') := takeDigits r 0%Z O in
      match k with
      | O => None
      | _ =>
          parseExp (inject_Z intPart
                    + inject_Z f * pow10 (- Z.of_nat k))%Q r'
      end
  | None => parseExp (inject_Z intPart) s
  end.

(** A JSON number: an optional minus sign, an integer part without a
    leading zero, an optional fraction and an optional exponent; its value
    is the nearest double. *)
Definition parseNumber (s : text) : option (jsnum * text) :=
  let '(neg, s1) :=
    match isChar "-" s with
    | Some r => (true, r)
    | None => (false, s)
    end in
  let unsigned :=
    match isChar "0" s1 with
    | Some r => parseFracExp 0 r
    | None =>
        match takeDigits s1 0%Z O with
        | (_, O, _) => None
        | (i, _, r) => parseFracExp i r
        end
    end in
  match unsigned with
  | Some (q, r) => Some (nearestDouble (if neg then (- q)%Q else q), r)
  | None => None
  end.

(** [true], [false], [null], a string or a number. *)
Definition parseScalar (s : text) : option (json * text) :=
  match isChar dquote s with
  | Some r =>
      match parseString r [] with
      | Some (str, r') => Some (JString str, r')
      | None => None
      end
  | None =>
      match stripPrefix ["t"; "r"; "u"; "e"] s,
            stripPrefix ["f"; "a"; "l"; "s"; "e"] s,
            stripPrefix ["n"; "u"; "l"; "l"] s with
      | Some r, _, _ => Some (JBool true, r)
      | None, Some r, _ => Some (JBool false, r)
      | None, None, Some r => Some (JNull, r)
      | None, None, None =>
          match parseNumber s with
          | Some (n, r) => Some (JNumber n, r)
          | None => None
          end
      end
  end.

(** The value at the head of [s], white space before it skipped, and the
    rest of the text.  Every call spends one unit of [fuel]. *)
Fixpoint parseValue (fuel : nat) (s : text) : option (json * text) :=
  match fuel with
  | O => None
  | S fuel =>
      let s := skipWs s in
      match isChar "{" s, isChar "[" s with
      | Some r, _ =>
          match isChar "}" (skipWs r) with
          | Some r' => Some (JObject [], r')
          | None => parseMembers fuel r []
          end
      | None, Some r =>
          match isChar "]" (skipWs r) with
          | Some r' => Some (JArray [], r')
          | None => parseElements fuel r []
          end
      | None, None => parseScalar s
      end
  end
with parseElements (fuel : nat) (s : text) (acc : list json)
  : option (json * text) :=
  match fuel with
  | O => None
  | S fuel =>
      match parseValue fuel s with
      | Some (v, r) =>
          match isChar "," (skipWs r), isChar "]" (skipWs r) with
          | Some r', _ => parseElements fuel r' (v :: acc)
          | None, Some r' => Some (JArray (rev (v :: acc)), r')
          | None, None => None
          end
      | None => None
      end
  end
with parseMembers (fuel : nat) (s : text) (acc : list (text * json))
  : option (json * text) :=
  match fuel with
  | O => None
  | S fuel =>
      match isChar dquote (skipWs s) with
      | Some r =>
          match parseString r [] with
          | Some (key, r1) =>
              match isChar ":" (skipWs r1) with
              | Some r2 =>
                  match parseValue fuel r2 with
                  | Some (v, r3) =>
                      match isChar "," (skipWs r3),
                            isChar "}" (skipWs r3) with
                      | Some r4, _ =>
                          parseMembers fuel r4 ((key, v) :: acc)
                      | None, Some r4 =>
                          Some (JObject (rev ((key, v) :: acc)), r4)
                      | None, None => None
                      end
                  | None => None
                  end
              | None => None
              end
          | None => None
          end
      | None => None
      end
  end.

(** [JSON.parse] with a given recursion budget: one value, then only
    white space. *)
Definition parseWith (fuel : nat) (s : text) : option json :=
  match parseValue fuel s with
  | Some (v, r) =>
      match skipWs r with
      | [] => Some v
      | _ => None
      end
  | None => None
  end.

(** [JSON.parse(s)]; [None] is the [SyntaxError].  A value and each of its
    siblings cost at most two units for at least one character, so twice
    the length is a budget that is never exhausted (lemma
    [JSON_parse_budget]). *)
Definition JSON_parse (s : text) : option json :=
  parseWith (2 * List.length s + 2) s.

(** [raw[key]] on a parsed value: the last member of that name of an
    object, [undefined] ([None]) elsewhere. *)
Fixpoint lookup (key : text) (members : list (text * json))
  (found : option json) : option json :=
  match members with
  | [] => found
  | (k, v) :: rest =>
      lookup key rest (if text_eqb k key then Some v else found)
  end.

Definition prop (raw : json) (key : string) : option json :=
  match raw with
  | JObject members => lookup (ofString key) members None
  | _ => None
  end.

End Json.

(* ================================================================== *)
(** * The threat generator (threat-generator.ts) *)
(* ================================================================== *)

Module Generator.
Import JsNum RiskEngine Json.
Local Open Scope char_scope.
Local Open Scope list_scope.

Inductive StrideCategory : Type :=
| Spoofing | Tampering | Repudiation
| InformationDisclosure | DenialOfService | ElevationOfPrivilege.

Definition StrideCategory_text (c : StrideCategory) : string :=
  match c with
  | Spoofing => "Spoofing"
  | Tampering => "Tampering"
  | Repudiation => "Repudiation"
  | InformationDisclosure => "Information Disclosure"
  | DenialOfService => "Denial of Service"
  | ElevationOfPrivilege => "Elevation of Privilege"
  end.

Inductive Framework : Type := STRIDE | OWASP_Top_10 | AWS_Threat_Grammar.

(** [GeneratedThreat], without its prose ([title], [threatSource],
    [prerequisites], [threatAction], [threatImpact], [impactedAssets],
    [trustBoundary], [assumptions], [mitigations], [relatedCve]): text that
    is handed on as it is and that no decision reads. *)
Record GeneratedThreat : Type := {
  strideCategory : StrideCategory;
  severity : Repo.Severity;
  owaspLikelihood : option OwaspLikelihood;
  owaspImpact : option OwaspImpact
}.

(** ** The demo generators *)

Definition categories : list StrideCategory :=
  [Spoofing; Tampering; Repudiation;
   InformationDisclosure; DenialOfService; ElevationOfPrivilege].

(** [severityMap[key]] of [generateDemoThreats]. *)
Definition severityMap (key : string) : option Repo.Severity :=
  if String.eqb key "high" then Some Repo.Critical
  else if String.eqb key "medium" then Some Repo.High
  else if String.eqb key "low" then Some Repo.Medium
  else None.

(** The loop over [analysis.securityFindings.slice(0, 6)]. *)
Fixpoint findingThreats (findings : list Repo.SecurityFinding)
  (threats : list GeneratedThreat) : list GeneratedThreat :=
  match findings with
  | [] => threats
  | finding :: rest =>
      let strideCat :=
        nth (List.length threats mod 6) categories Spoofing in
      findingThreats rest
        (threats
           ++ [{| strideCategory := strideCat;
                  severity :=
                    match severityMap
                            (Repo.Severity_text (Repo.severity finding)) with
                    | Some s => s
                    | None => Repo.Medium
                    end;
                  owaspLikelihood := None;
                  owaspImpact := None |}])
  end.

(** The rows [{ title, cat, sev, boundary }] of [archThreats]. *)
Definition archThreats : list (StrideCategory * Repo.Severity) :=
  [(Spoofing, Repo.High); (DenialOfService, Repo.High);
   (InformationDisclosure, Repo.Medium); (Repudiation, Repo.Medium);
   (Tampering, Repo.High); (ElevationOfPrivilege, Repo.Critical)].

Definition generateDemoThreats (analysis : Repo.RepoAnalysis)
  : list GeneratedThreat :=
  let threats :=
    findingThreats (firstn 6 (Repo.securityFindings analysis)) [] in
  fold_left
    (fun threats aT =>
       threats
         ++ [{| strideCategory := fst aT;
                severity := snd aT;
                owaspLikelihood := None;
                owaspImpact := None |}])
    (firstn (Nat.max 2 (8 - List.length threats)) archThreats)
    threats.

Definition generateDemoThreatsFromDoc (docName : string)
  : list GeneratedThreat :=
  map (fun row => {| strideCategory := fst row;
                     severity := snd row;
                     owaspLikelihood := None;
                     owaspImpact := None |})
    [(Spoofing, Repo.High); (Tampering, Repo.High);
     (Repudiation, Repo.Medium); (InformationDisclosure, Repo.Critical);
     (DenialOfService, Repo.High); (ElevationOfPrivilege, Repo.Critical)].

(** ** Text operations of [parseThreatsResponse] *)

Definition trimStart (s : text) : text := Str.trimStartChars s.

Definition trim (s : text) : text := Str.trimChars s.

(** [s.indexOf(needle)], [None] for [-1]. *)
Fixpoint indexOf (needle s : text) : option nat :=
  match stripPrefix needle s with
  | Some _ => Some O
  | None =>
      match s with
      | [] => None
      | _ :: r =>
          match indexOf needle r with
          | Some i => Some (S i)
          | None => None
          end
      end
  end.

(** [s.lastIndexOf(c)] for one character. *)
Fixpoint lastIndexOf (c : ascii) (s : text) (i : nat) (acc : option nat)
  : option nat :=
  match s with
  | [] => acc
  | a :: r => lastIndexOf c r (S i) (if Ascii.eqb a c then Some i else acc)
  end.

(** [s.substring(a, b)]: the two indices are swapped when [a > b]. *)
Definition substring (s : text) (a b : nat) : text :=
  let lo := Nat.min a b in
  let hi := Nat.max a b in
  firstn (hi - lo) (skipn lo s).

Definition fence : text := ["`"; "`"; "`"].

(** The capture of the pattern: three backquotes, an optional [json], white
    space, then lazily anything up to the next three backquotes. *)
Definition fencedBlock (s : text) : option text :=
  match indexOf fence s with
  | None => None
  | Some p =>
      let rest := skipn (p + 3) s in
      let rest :=
        match stripPrefix ["j"; "s"; "o"; "n"] rest with
        | Some r => r
        | None => rest
        end in
      let rest := trimStart rest in
      match indexOf fence rest with
      | Some q => Some (firstn q rest)
      | None => None
      end
  end.

(** Steps (1) and (2): the slice handed to [JSON.parse]. *)
Definition arraySlice (response : text) : text :=
  let jsonStr := trim response in
  let jsonStr :=
    match fencedBlock jsonStr with
    | Some inner => trim inner
    | None => jsonStr
    end in
  let arrayStart := indexOf ["["] jsonStr in
  let arrayEnd := lastIndexOf "]" jsonStr O None in
  match arrayStart, arrayEnd with
  | Some arrayStart, Some arrayEnd =>
      substring jsonStr arrayStart (arrayEnd + 1)
  | Some arrayStart, None => skipn arrayStart jsonStr
  | None, _ => jsonStr
  end.

(** ** [repairTruncatedJsonArray] *)

Record ScanState : Type := {
  depth : Z;
  inString : bool;
  escape : bool;
  lastCompleteObjectEnd : Z
}.

Definition initialScan : ScanState :=
  {| depth := 0; inString := false; escape := false;
     lastCompleteObjectEnd := -1 |}.

(** One turn of the [for] loop, at index [i] on character [ch]. *)
Definition scanStep (st : ScanState) (i : Z) (ch : ascii) : ScanState :=
  if escape st then
    {| depth := depth st; inString := inString st; escape := false;
       lastCompleteObjectEnd := lastCompleteObjectEnd st |}
  else if Ascii.eqb ch "\" then
    {| depth := depth st; inString := inString st; escape := true;
       lastCompleteObjectEnd := lastCompleteObjectEnd st |}
  else if Ascii.eqb ch dquote then
    {| depth := depth st; inString := negb (inString st); escape := false;
       lastCompleteObjectEnd := lastCompleteObjectEnd st |}
  else if inString st then st
  else
    let depth1 :=
      if Ascii.eqb ch "[" || Ascii.eqb ch "{" then (depth st + 1)%Z
      else depth st in
    if Ascii.eqb ch "]" || Ascii.eqb ch "}" then
      let depth2 := (depth1 - 1)%Z in
      {| depth := depth2; inString := false; escape := false;
         lastCompleteObjectEnd :=
           if (depth2 =? 1)%Z && Ascii.eqb ch "}" then i
           else lastCompleteObjectEnd st |}
    else
      {| depth := depth1; inString := false; escape := false;
         lastCompleteObjectEnd := lastCompleteObjectEnd st |}.

Fixpoint scanFrom (st : ScanState) (i : Z) (s : text) : ScanState :=
  match s with
  | [] => st
  | ch :: r => scanFrom (scanStep st i ch) (i + 1)%Z r
  end.

(** [None] is the thrown "Could not find any complete objects in truncated
    JSON". *)
Definition repairTruncatedJsonArray (jsonStr : text) : option text :=
  let st := scanFrom initialScan 0%Z jsonStr in
  if (0 <? lastCompleteObjectEnd st)%Z then
    Some (firstn (Z.to_nat (lastCompleteObjectEnd st + 1)) jsonStr
            ++ ["]"])
  else None.

(** ** Reading the factors of a parsed element *)

(** Digits of a numeric literal in base 16, 8 or 2. *)
Fixpoint takeRadix (base : Z) (s : text) (value : Z) (count : nat)
  : Z * nat * text :=
  match s with
  | c :: r =>
      match hexOf c with
      | Some d =>
          if (d <? base)%Z then takeRadix base r (value * base + d)%Z (S count)
          else (value, count, s)
      | None => (value, count, s)
      end
  | [] => (value, count, s)
  end.

Definition radixLiteral (base : Z) (digits : text) : jsnum :=
  match takeRadix base digits 0%Z O with
  | (_, O, _) => NaN
  | (v, _, []) => nearestDouble (inject_Z v)
  | (_, _, _ :: _) => NaN
  end.

(** An unsigned decimal literal of [StringToNumber]: digits with an
    optional fraction, or a fraction alone, and an optional exponent. *)
Definition decimalLiteral (s : text) : option Q :=
  let '(i, k1, r) := takeDigits s 0%Z O in
  let mantissa :=
    match isChar "." r with
    | Some r1 =>
        let '(f, k2, r2) := takeDigits r1 0%Z O in
        match (k1 + k2)%nat with
        | O => None
        | _ => Some ((inject_Z i + inject_Z f * pow10 (- Z.of_nat k2))%Q, r2)
        end
    | None =>
        match k1 with
        | O => None
        | _ => Some (inject_Z i, r)
        end
    end in
  match mantissa with
  | Some (m, r) =>
      match parseExp m r with
      | Some (q, []) => Some q
      | _ => None
      end
  | None => None
  end.

Definition signedLiteral (s : text) : jsnum :=
  let '(neg, body) :=
    match isChar "-" s, isChar "+" s with
    | Some r, _ => (true, r)
    | None, Some r => (false, r)
    | None, None => (false, s)
    end in
  if text_eqb body (ofString "Infinity") then
    if neg then NegInf else PosInf
  else match decimalLiteral body with
       | Some q => nearestDouble (if neg then (- q)%Q else q)
       | None => NaN
       end.

(** [ToNumber] of a string. *)
Definition StringToNumber (s : text) : jsnum :=
  match trim s with
  | [] => ofZ 0
  | "0" :: x :: digits =>
      if Ascii.eqb x "x" || Ascii.eqb x "X" then radixLiteral 16 digits
      else if Ascii.eqb x "o" || Ascii.eqb x "O" then radixLiteral 8 digits
      else if Ascii.eqb x "b" || Ascii.eqb x "B" then radixLiteral 2 digits
      else signedLiteral (trim s)
  | other => signedLiteral other
  end.

(** [ToNumber] of a parsed value, as [Math.round] applies it.  An array is
    first joined into a string: the empty array reads 0, an array of one
    element reads as that element's text, a longer one has a comma. *)
Fixpoint toNumber (v : json) : jsnum :=
  match v with
  | JNull => ofZ 0
  | JBool b => if b then ofZ 1 else ofZ 0
  | JNumber n => n
  | JString s => StringToNumber s
  | JArray [] => ofZ 0
  | JArray [x] =>
      match x with
      | JNull => ofZ 0
      | JBool _ => NaN
      | JObject _ => NaN
      | _ => toNumber x
      end
  | JArray _ => NaN
  | JObject _ => NaN
  end.

(** [!!v] *)
Definition truthy (v : json) : bool :=
  match v with
  | JNull => false
  | JBool b => b
  | JNumber (Fin q) => negb (Qeq_bool q 0%Q)
  | JNumber NaN => false
  | JNumber _ => true
  | JString s => negb (text_eqb s [])
  | JArray _ | JObject _ => true
  end.

(** What [raw.key ?? d] tests and [Math.round] then reads. *)
Definition factor (raw : json) (key : string) : option jsnum :=
  match prop raw key with
  | None | Some JNull => None
  | Some v => Some (toNumber v)
  end.

(** [raw.owaspLikelihood as Partial<OwaspLikelihood> | undefined], with
    the [!raw] test of [validateLikelihood] folded in: a falsy value is
    [None]. *)
Definition asLikelihood (v : option json) : option PartialLikelihood :=
  match v with
  | None => None
  | Some raw =>
      if truthy raw then
        Some {| skillLevel' := factor raw "skillLevel";
                motive' := factor raw "motive";
                opportunity' := factor raw "opportunity";
                size' := factor raw "size";
                easeOfDiscovery' := factor raw "easeOfDiscovery";
                easeOfExploit' := factor raw "easeOfExploit";
                awareness' := factor raw "awareness";
                intrusionDetection' := factor raw "intrusionDetection" |}
      else None
  end.

Definition asImpact (v : option json) : option PartialImpact :=
  match v with
  | None => None
  | Some raw =>
      if truthy raw then
        Some {| confidentiality' := factor raw "confidentiality";
                integrity' := factor raw "integrity";
                availability' := factor raw "availability";
                accountability' := factor raw "accountability" |}
      else None
  end.

(** ** [validateThreat] *)

Definition strideOfText (s : text) : option StrideCategory :=
  find (fun c => text_eqb (ofString (StrideCategory_text c)) s) categories.

(** [riskSeverity === "Note" ? "Low" : riskSeverity] *)
Definition noteAsLow (s : RiskSeverity) : RiskSeverity :=
  match s with
  | Note => Low
  | other => other
  end.

(** The cast [as GeneratedThreat["severity"]] of the value above. *)
Definition asSeverity (s : RiskSeverity) : Repo.Severity :=
  match s with
  | Critical => Repo.Critical
  | High => Repo.High
  | Medium => Repo.Medium
  | Low | Note => Repo.Low
  end.

Definition isNull (v : json) : bool :=
  match v with
  | JNull => true
  | _ => false
  end.

(** Whether [String(v)] and [Math.round(v)] return: the conversion of an
    object to a primitive throws when the object has a member [toString]
    of its own (no member of a parsed object is callable), and an array is
    converted by joining the conversions of its elements. *)
Fixpoint converts (v : json) : bool :=
  match v with
  | JObject members =>
      match lookup (ofString "toString") members None with
      | Some _ => false
      | None => true
      end
  | JArray items => forallb converts items
  | _ => true
  end.

(** [String(v || d)], [v ? String(v) : undefined] *)
Definition convertsIfTruthy (v : option json) : bool :=
  match v with
  | Some w => if truthy w then converts w else true
  | None => true
  end.

(** [Array.isArray(v) ? v.map(String) : d] *)
Definition convertsEach (v : option json) : bool :=
  match v with
  | Some (JArray items) => forallb converts items
  | _ => true
  end.

(** The twelve [clamp(raw.key ?? d)] of a truthy [raw]. *)
Definition factorsConvert (v : option json) (keys : list string) : bool :=
  match v with
  | Some raw =>
      if truthy raw then
        forallb (fun key => match prop raw key with
                            | None | Some JNull => true
                            | Some w => converts w
                            end) keys
      else true
  | None => true
  end.

(** The callback of [raw.mitigations.map]: the reads on [m] throw when
    [m] is [null]. *)
Definition mitigationConverts (m : json) : bool :=
  negb (isNull m)
  && forallb (fun key => convertsIfTruthy (prop m key))
       ["description"; "codeFile"; "codeOriginal"; "codeFixed"]%string.

(** Where the body of the [try] throws: on a [null] element, on a [null]
    inside [raw.mitigations], and on a value that cannot be converted
    where the body converts it. *)
Definition throwsOn (raw : json) : bool :=
  isNull raw
  || negb
       (factorsConvert (prop raw "owaspLikelihood")
          ["skillLevel"; "motive"; "opportunity"; "size";
           "easeOfDiscovery"; "easeOfExploit"; "awareness";
           "intrusionDetection"]%string
        && factorsConvert (prop raw "owaspImpact")
             ["confidentiality"; "integrity"; "availability";
              "accountability"]%string
        && forallb (fun key => convertsIfTruthy (prop raw key))
             ["title"; "threatSource"; "prerequisites"; "threatAction";
              "threatImpact"; "trustBoundary"; "relatedCve"]%string
        && convertsEach (prop raw "impactedAssets")
        && convertsEach (prop raw "assumptions")
        && match prop raw "mitigations" with
           | Some (JArray ms) => forallb mitigationConverts ms
           | _ => true
           end).

(** [None] is the [null] returned from the [catch]. *)
Definition validateThreat (raw : json) : option GeneratedThreat :=
  if throwsOn raw then None
  else
    let strideCategory :=
      match prop raw "strideCategory" with
      | Some (JString s) =>
          match strideOfText s with
          | Some c => c
          | None => InformationDisclosure
          end
      | _ => InformationDisclosure
      end in
    let owaspLikelihood := asLikelihood (prop raw "owaspLikelihood") in
    let owaspImpact := asImpact (prop raw "owaspImpact") in
    let riskRating := calculateRiskRating owaspLikelihood owaspImpact in
    let severity := asSeverity (noteAsLow (riskSeverity riskRating)) in
    Some {| strideCategory := strideCategory;
            severity := severity;
            owaspLikelihood := Some (likelihood riskRating);
            owaspImpact := Some (impact riskRating) |}.

(** ** [parseThreatsResponse] *)

Inductive Outcome (A : Type) : Type :=
| Returns (a : A)
| Throws (msg : string).
Arguments Returns {A} a.
Arguments Throws {A} msg.

(** [JSON.parse(s)] followed by the [Array.isArray] test; [None] when
    either throws. *)
Definition parseArray (s : text) : option (list json) :=
  match JSON_parse s with
  | Some (JArray items) => Some items
  | _ => None
  end.

(** The array [parsed] that the function goes on to normalise: of the
    direct parse, or else of the parse of the repaired slice.  Of the
    message of the error thrown at the end, the fixed part is kept. *)
Definition parsedArray (response : text) : Outcome (list json) :=
  let jsonStr := arraySlice response in
  match parseArray jsonStr with
  | Some parsed => Returns parsed
  | None =>
      match repairTruncatedJsonArray jsonStr with
      | Some repaired =>
          match parseArray repaired with
          | Some parsed => Returns parsed
          | None => Throws "Failed to parse threat model response"
          end
      | None => Throws "Failed to parse threat model response"
      end
  end.

(** [parsed.map(validateThreat).filter(Boolean)] *)
Definition normalise (parsed : list json) : list GeneratedThreat :=
  flat_map (fun raw => match validateThreat raw with
                       | Some t => [t]
                       | None => []
                       end) parsed.

Definition parseThreatsResponse (response : text)
  : Outcome (list GeneratedThreat) :=
  match parsedArray response with
  | Returns parsed => Returns (normalise parsed)
  | Throws msg => Throws msg
  end.

(** ** The two entry points *)

(** The prompt texts, which the claims do not read: the constants of the
    file, [buildUserPrompt], and the prompts of the document path. *)
Record Prompts : Type := {
  SYSTEM_PROMPT : string;
  OWASP_SYSTEM_ADDENDUM : string;
  OUTPUT_SCHEMA : string;
  buildUserPrompt : Repo.RepoAnalysis -> Framework -> string;
  documentSystemPrompt : string;
  documentUserPrompt : string -> string -> Framework -> string
}.

Definition newline : string := String "010" EmptyString.

Definition withSchema (P : Prompts) (base : string) (framework : Framework)
  : string :=
  let systemPrompt :=
    match framework with
    | OWASP_Top_10 => (base ++ OWASP_SYSTEM_ADDENDUM P)%string
    | _ => base
    end in
  (systemPrompt ++ newline ++ OUTPUT_SCHEMA P)%string.

Definition parseOrThrow (response : string)
  : Provider.Async (list GeneratedThreat) :=
  match parseThreatsResponse (ofString response) with
  | Returns threats => Provider.ret threats
  | Throws msg => Provider.throw msg
  end.

(** [config] is what [getLLMConfig()] resolved to. *)
Definition generateThreats (P : Prompts) (config : option Provider.LLMConfig)
  (analysis : Repo.RepoAnalysis) (framework : Framework)
  : Provider.Async (list GeneratedThreat) :=
  match config with
  | None => Provider.ret (generateDemoThreats analysis)
  | Some config =>
      let userPrompt := buildUserPrompt P analysis framework in
      let systemPrompt := withSchema P (SYSTEM_PROMPT P) framework in
      Provider.bind
        (Provider.callLLM systemPrompt userPrompt config 16384%N)
        parseOrThrow
  end.

Definition generateThreatsFromDocument (P : Prompts)
  (config : option Provider.LLMConfig)
  (documentContent documentName : string) (framework : Framework)
  : Provider.Async (list GeneratedThreat) :=
  match config with
  | None => Provider.ret (generateDemoThreatsFromDoc documentName)
  | Some config =>
      let systemPrompt := withSchema P (documentSystemPrompt P) framework in
      let userPrompt :=
        documentUserPrompt P documentName documentContent framework in
      Provider.bind
        (Provider.callLLM systemPrompt userPrompt config 16384%N)
        parseOrThrow
  end.

(** ** Sample inputs *)

(** A JSON text written with single quotes where JSON has double ones. *)
Definition js (s : string) : text :=
  map (fun c => if Ascii.eqb c "'" then dquote else c) (ofString s).

Definition jsString (s : string) : string := string_of_list_ascii (js s).

Definition plainPrompts : Prompts :=
  {| SYSTEM_PROMPT := "You are a Principal Security Review Engineer";
     OWASP_SYSTEM_ADDENDUM := "OWASP Top 10 (2021)";
     OUTPUT_SCHEMA := "Output a JSON array";
     buildUserPrompt := fun analysis _ => Repo.repoUrl analysis;
     documentSystemPrompt := "You are a Principal Security Review Engineer";
     documentUserPrompt := fun documentName _ _ => documentName |}.

(** An analysis with one High finding and the two components of a small
    service. *)
Definition sampleAnalysis : Repo.RepoAnalysis :=
  {| Repo.repoUrl := "https://github.com/acme/shop";
     Repo.languages := ["TypeScript"%string];
     Repo.frameworks := [];
     Repo.components :=
       [ {| Repo.name := "API Server"; Repo.type := Repo.api;
            Repo.files := ["api/users.ts"%string];
            Repo.description := "API layer with 1 route/controller files" |};
         Extractor.endUser ];
     Repo.dataFlows :=
       [Extractor.flow "End User" "API Server" "HTTPS" "API Requests"];
     Repo.trustBoundaries := [];
     Repo.securityFindings :=
       [ {| Repo.file := "api/users.ts"; Repo.line := 3;
            Repo.pattern := "eval_usage"; Repo.snippet := "eval(x)";
            Repo.severity := Repo.High |} ];
     Repo.fileTree := ["api/users.ts"%string];
     Repo.entryPoints := ["api/users.ts"%string] |}.

(** An answer with two complete threats, cut inside the third. *)
Definition cutAfterTwo : text :=
  js ("[{'title':'A','impactedAssets':['db']},"
      ++ "{'title':'B','impactedAssets':['api']},"
      ++ "{'title':'C").

(** An answer with one complete element that has a bracket in a string,
    cut inside the second. *)
Definition cutAfterBracketInString : text :=
  js "[{'note':'see [1]'},{'title':'B".

(** What a parse returned: the array, and its length. *)
Definition parsedOf (s : text) : Outcome (list json) :=
  match parseArray s with
  | Some parsed => Returns parsed
  | None => Throws "SyntaxError"
  end.

Definition parsedLength (o : Outcome (list json)) : option nat :=
  match o with
  | Returns parsed => Some (List.length parsed)
  | Throws _ => None
  end.

(** An answer of the model with one threat: every factor is 9, and the
    model suggests the severity Low. *)
Definition criticalAnswer : string :=
  jsString
    ("[{'title':'Injection','strideCategory':'Tampering','severity':'Low',"
     ++ "'owaspLikelihood':{'skillLevel':9,'motive':9,'opportunity':9,"
     ++ "'size':9,'easeOfDiscovery':9,'easeOfExploit':9,'awareness':9,"
     ++ "'intrusionDetection':9},"
     ++ "'owaspImpact':{'confidentiality':9,'integrity':9,"
     ++ "'availability':9,'accountability':9}}]").



End Generator.

(* ================================================================== *)
(** * The orchestrator (the analysis route) *)
(* ================================================================== *)

Module Orchestrator.
Import JsNum RiskEngine Json Generator.
Local Open Scope list_scope.

Definition RiskSeverity_text (s : RiskSeverity) : string :=
  match s with
  | Note => "Note" | Low => "Low" | Medium => "Medium"
  | High => "High" | Critical => "Critical"
  end.

(** ** The identifier of a threat *)

(** [sessionId.split("-").pop() || sessionId.slice(-8)]: the text after
    the last hyphen, and the last eight characters where that is empty. *)
Definition shortId (sessionId : string) : string :=
  match List.last (Str.split "-"%char sessionId) EmptyString with
  | EmptyString =>
      String.substring (String.length sessionId - 8) 8 sessionId
  | segment => segment
  end.

(** [s.padStart(n, fill)] for a filler of one character. *)
Definition padStart (n : nat) (fill : ascii) (s : string) : string :=
  String.append
    (string_of_list_ascii (repeat fill (n - String.length s))) s.

(** [`TC-${shortId}-${String(i + 1).padStart(3, "0")}`] *)
Definition threatId (sessionId : string) (i : nat) : string :=
  String.append "TC-"
    (String.append (shortId sessionId)
       (String.append "-" (padStart 3 "0"%char (Str.ofNat (i + 1))))).

(** ** [JSON.stringify] of the factors

    A JSON text is carried as the value it denotes, that is, as what
    [JSON.parse] reads back from it.  [JSON.stringify] writes a finite
    number as a literal that reads back as the same number, and [NaN] and
    the infinities as [null]. *)
Definition stringifyNumber (v : jsnum) : json :=
  match v with
  | Fin q => JNumber (Fin q)
  | NaN | PosInf | NegInf => JNull
  end.

Definition stringifyLikelihood (l : OwaspLikelihood) : json :=
  JObject
    [ (ofString "skillLevel", stringifyNumber (skillLevel l));
      (ofString "motive", stringifyNumber (motive l));
      (ofString "opportunity", stringifyNumber (opportunity l));
      (ofString "size", stringifyNumber (size l));
      (ofString "easeOfDiscovery", stringifyNumber (easeOfDiscovery l));
      (ofString "easeOfExploit", stringifyNumber (easeOfExploit l));
      (ofString "awareness", stringifyNumber (awareness l));
      (ofString "intrusionDetection",
       stringifyNumber (intrusionDetection l)) ].

Definition stringifyImpact (i : OwaspImpact) : json :=
  JObject
    [ (ofString "confidentiality", stringifyNumber (confidentiality i));
      (ofString "integrity", stringifyNumber (integrity i));
      (ofString "availability", stringifyNumber (availability i));
      (ofString "accountability", stringifyNumber (accountability i)) ].

(** [JSON.stringify({ likelihood, impact })] *)
Definition stringifyFactors (l : OwaspLikelihood) (i : OwaspImpact) : json :=
  JObject
    [ (ofString "likelihood", stringifyLikelihood l);
      (ofString "impact", stringifyImpact i) ].

(** ** The object handed to [createThreat]

    The object literal of the persisting loop, prose left out as in
    [GeneratedThreat].  [owaspFactors] is a JSON text. *)
Record ThreatRecord : Type := {
  recordId : string;
  sessionId : string;
  recordCategory : StrideCategory;
  recordSeverity : string;
  owaspLikelihoodScore : jsnum;
  owaspImpactScore : jsnum;
  owaspRiskLevel : RiskSeverity;
  owaspFactors : json
}.

Definition asPartialLikelihood (l : option OwaspLikelihood)
  : option PartialLikelihood :=
  option_map partialOfLikelihood l.

Definition asPartialImpact (i : option OwaspImpact) : option PartialImpact :=
  option_map partialOfImpact i.

(** The argument of [createThreat] in the body of the persisting [for]
    loop, for [generatedThreats[i]]. *)
Definition threatRecord (sessionId : string) (i : nat)
  (gt : GeneratedThreat) : ThreatRecord :=
  let riskRating :=
    calculateRiskRating (asPartialLikelihood (owaspLikelihood gt))
                        (asPartialImpact (owaspImpact gt)) in
  {| recordId := threatId sessionId i;
     sessionId := sessionId;
     recordCategory := strideCategory gt;
     recordSeverity := RiskSeverity_text (noteAsLow (riskSeverity riskRating));
     owaspLikelihoodScore := likelihoodScore riskRating;
     owaspImpactScore := impactScore riskRating;
     owaspRiskLevel := riskSeverity riskRating;
     owaspFactors :=
       stringifyFactors (likelihood riskRating) (impact riskRating) |}.

(** ** The database (db.ts)

    A row of the [threats] table, prose columns left out: [id],
    [session_id], [stride_category], [severity] and [status].  The table
    has no column for a score, a risk level or the factors. *)
Record ThreatRow : Type := {
  row_id : string;
  row_session_id : string;
  row_stride_category : string;
  row_severity : string;
  row_status : string
}.

(** The identifiers of the rows of [sessions], and the rows of [threats]
    in the order of their insertion. *)
Record Database : Type := {
  sessions : list string;
  threats : list ThreatRow
}.

(** [CHECK(severity IN ('Critical','High','Medium','Low'))] *)
Definition severityCheck (severity : string) : bool :=
  existsb (String.eqb severity)
    ["Critical"%string; "High"%string; "Medium"%string; "Low"%string].

(** The row that the [INSERT] of [createThreat] writes: the thirteen
    columns it names are taken from the argument, [status] gets its
    default, and the four [owasp...] properties of the argument are not
    read. *)
Definition createdRow (threat : ThreatRecord) : ThreatRow :=
  {| row_id := recordId threat;
     row_session_id := sessionId threat;
     row_stride_category := StrideCategory_text (recordCategory threat);
     row_severity := recordSeverity threat;
     row_status := "Identified" |}.

(** [createThreat]: the [INSERT] throws when a constraint of the table
    fails (the [CHECK] on [severity], the primary key [id], the foreign
    key [session_id], enforced by [foreign_keys = ON]); the row that
    [getThreat] then reads is not used by the route. *)
Definition createThreat (threat : ThreatRecord) (db : Database)
  : Outcome Database :=
  if negb (severityCheck (recordSeverity threat)) then
    Throws
      "CHECK constraint failed: severity IN ('Critical','High','Medium','Low')"
  else if existsb (fun row => String.eqb (row_id row) (recordId threat))
            (threats db) then
    Throws "UNIQUE constraint failed: threats.id"
  else if negb (existsb (String.eqb (sessionId threat)) (sessions db)) then
    Throws "FOREIGN KEY constraint failed"
  else
    Returns {| sessions := sessions db;
               threats := threats db ++ [createdRow threat] |}.

(** ** The analysis route *)

(** The persisting loop from index [i] on.  The mitigations, which the
    loop writes to a table of their own, are left out with the prose. *)
Fixpoint persistFrom (sessionId : string) (i : nat)
  (generatedThreats : list GeneratedThreat) (db : Database)
  : Outcome Database :=
  match generatedThreats with
  | [] => Returns db
  | gt :: rest =>
      match createThreat (threatRecord sessionId i gt) db with
      | Returns db' => persistFrom sessionId (S i) rest db'
      | Throws msg => Throws msg
      end
  end.

Definition persistThreats (sessionId : string)
  (generatedThreats : list GeneratedThreat) (db : Database)
  : Provider.Async Database :=
  match persistFrom sessionId 0 generatedThreats db with
  | Returns db' => Provider.ret db'
  | Throws msg => Provider.throw msg
  end.

(** [analyzeGitHubRepo], from the result of [analyzeRepo] on: the
    database after the run. *)
Definition analyzeGitHubRepo (P : Prompts)
  (config : option Provider.LLMConfig) (sessionId : string)
  (analysis : Repo.RepoAnalysis) (framework : Framework) (db : Database)
  : Provider.Async Database :=
  Provider.bind (generateThreats P config analysis framework)
    (fun generatedThreats => persistThreats sessionId generatedThreats db).

(** [analyzeDesignDoc].  [reviews] stands for the enhancements, the
    pre-code risks and the context layer, which are generated before
    anything is persisted and whose failure ends the run. *)
Definition analyzeDesignDoc (P : Prompts)
  (config : option Provider.LLMConfig) (sessionId : string)
  (docContent docRef : string) (framework : Framework)
  (reviews : list GeneratedThreat -> Provider.Async unit) (db : Database)
  : Provider.Async Database :=
  Provider.bind
    (generateThreatsFromDocument P config docContent docRef framework)
    (fun generatedThreats =>
       Provider.bind (reviews generatedThreats)
         (fun _ => persistThreats sessionId generatedThreats db)).

Inductive Source : Type :=
| GithubRepo (analysis : Repo.RepoAnalysis)
| DesignDoc (docContent docRef : string)
             (reviews : list GeneratedThreat -> Provider.Async unit).

(** [runAnalysisPipeline] *)
Definition runAnalysisPipeline (P : Prompts)
  (config : option Provider.LLMConfig) (sessionId : string)
  (source : Source) (framework : Framework) (db : Database)
  : Provider.Async Database :=
  match source with
  | GithubRepo analysis =>
      analyzeGitHubRepo P config sessionId analysis framework db
  | DesignDoc docContent docRef reviews =>
      analyzeDesignDoc P config sessionId docContent docRef framework
        reviews db
  end.

(** The objects that the loop hands to [createThreat], in order. *)
Fixpoint recordsFrom (sessionId : string) (i : nat)
  (generatedThreats : list GeneratedThreat) : list ThreatRecord :=
  match generatedThreats with
  | [] => []
  | gt :: rest =>
      threatRecord sessionId i gt :: recordsFrom sessionId (S i) rest
  end.


(** What the fallback generators produce for a source. *)
Definition demoThreatsOf (source : Source) : list GeneratedThreat :=
  match source with
  | GithubRepo analysis => generateDemoThreats analysis
  | DesignDoc _ docRef _ => generateDemoThreatsFromDoc docRef
  end.

(** The rows of [threats] in the database that a run returns; a run that
    fails returns none. *)
Definition stored (outcome : (Database + Provider.Failure)
                             * list Provider.Invocation) : list ThreatRow :=
  match fst outcome with
  | inl db => threats db
  | inr _ => []
  end.

(** A database with one session and no threat yet. *)
Definition freshSession (sessionId : string) : Database :=
  {| sessions := [sessionId]; threats := [] |}.

End Orchestrator.

(* ================================================================== *)
(** * The diagram generator (dfd-generator.ts) *)
(* ================================================================== *)

Module Dfd.
Import Repo.
Local Open Scope string_scope.
Local Open Scope list_scope.






























End Dfd.

(* ================================================================== *)
(** * The repository analyzer (repo-analyzer.ts) *)
(* ================================================================== *)

Module Analyzer.
Import Repo Scanner Extractor.
Local Open Scope string_scope.
Local Open Scope list_scope.

Definition MAX_FILE_SIZE : N := 50 * 1024.
Definition MAX_FILES : nat := 500.

Definition SKIP_DIRS : list string :=
  ["node_modules"; ".git"; "__pycache__"; ".next"; "dist"; "build";
   ".venv"; "venv"; "vendor"; ".terraform"; ".cache"; "coverage";
   ".idea"; ".vscode"; "target"; "bin"; "obj"].

Definition SKIP_EXTENSIONS : list string :=
  [".png"; ".jpg"; ".jpeg"; ".gif"; ".svg"; ".ico"; ".woff"; ".woff2";
   ".ttf"; ".eot"; ".mp3"; ".mp4"; ".zip"; ".tar"; ".gz"; ".pdf";
   ".lock"; ".min.js"; ".min.css"; ".map"].

(** [set.has(x)] on a constant set. *)
Definition has (set : list string) (x : string) : bool :=
  existsb (String.eqb x) set.

(** [set.add(x)] on a [Set] kept in the order of insertion. *)
Definition add (set : list string) (x : string) : list string :=
  if has set x then set else set ++ [x].

(** What [readdirSync(dir, { withFileTypes: true })] lists: a directory,
    with its own listing ([None] where reading it throws), or anything
    else, with the size that [statSync] reports ([None] where it
    throws). *)
Inductive Dirent : Type :=
| FileEntry (name : string) (size : option N)
| DirEntry (name : string) (entries : option (list Dirent)).

(** The two tests on [entry.name] that end a turn of the loop. *)
Definition skipsName (name : string) : bool :=
  has SKIP_DIRS name
  || (Str.startsWith name "." && negb (String.eqb name ".env")
      && negb (String.eqb name ".env.example")).

(** [path.relative(rootDir, path.join(dir, entry.name))], [dir] given
    relative to the root (empty for the root itself). *)
Definition joinPath (dir name : string) : string :=
  if String.eqb dir EmptyString then name else (dir ++ "/" ++ name)%string.

(** One turn of the [for] loop of [walkDir], after the test on
    [files.length]; the turn of a directory is the recursive call, written
    out.  [None] is the exception of [readdirSync]. *)
Fixpoint walkEntry (dir : string) (entry : Dirent) (files : list string)
  {struct entry} : option (list string) :=
  match entry with
  | FileEntry name size =>
      if skipsName name then Some files
      else if has SKIP_EXTENSIONS (Str.toLowerCaseUtf8 (extname name))
      then Some files
      else match size with
           | Some n =>
               if (n <=? MAX_FILE_SIZE)%N
               then Some (files ++ [joinPath dir name])
               else Some files
           | None => Some files
           end
  | DirEntry name entries =>
      if skipsName name then Some files
      else if (MAX_FILES <=? List.length files)%nat then Some files
      else match entries with
           | None => None
           | Some entries =>
               (fix loop (entries : list Dirent) (files : list string)
                  : option (list string) :=
                  match entries with
                  | [] => Some files
                  | entry :: rest =>
                      if (MAX_FILES <=? List.length files)%nat
                      then Some files
                      else match walkEntry (joinPath dir name) entry files with
                           | Some files => loop rest files
                           | None => None
                           end
                  end) entries files
           end
  end.

(** The [for] loop over the entries of a directory. *)
Fixpoint walkEntries (dir : string) (entries : list Dirent)
  (files : list string) : option (list string) :=
  match entries with
  | [] => Some files
  | entry :: rest =>
      if (MAX_FILES <=? List.length files)%nat then Some files
      else match walkEntry dir entry files with
           | Some files => walkEntries dir rest files
           | None => None
           end
  end.

(** [walkDir(dir, rootDir, files)], [listing] being what [readdirSync]
    returns for [dir]. *)
Definition walkDir (dir : string) (listing : option (list Dirent))
  (files : list string) : option (list string) :=
  if (MAX_FILES <=? List.length files)%nat then Some files
  else match listing with
       | None => None
       | Some entries => walkEntries dir entries files
       end.

(** [langMap[ext]] *)
Definition langMap (ext : string) : option string :=
  if has [".ts"; ".tsx"] ext then Some "TypeScript"
  else if has [".js"; ".jsx"] ext then Some "JavaScript"
  else if String.eqb ext ".py" then Some "Python"
  else if String.eqb ext ".go" then Some "Go"
  else if String.eqb ext ".rs" then Some "Rust"
  else if String.eqb ext ".java" then Some "Java"
  else if String.eqb ext ".cs" then Some "C#"
  else if has [".c"; ".h"] ext then Some "C"
  else if has [".cpp"; ".hpp"] ext then Some "C++"
  else if String.eqb ext ".rb" then Some "Ruby"
  else if String.eqb ext ".php" then Some "PHP"
  else if String.eqb ext ".swift" then Some "Swift"
  else if String.eqb ext ".kt" then Some "Kotlin"
  else if String.eqb ext ".tf" then Some "Terraform/HCL"
  else if has [".yaml"; ".yml"] ext then Some "YAML"
  else if String.eqb ext ".sql" then Some "SQL"
  else if String.eqb ext ".sh" then Some "Shell"
  else None.

Definition detectLanguages (files : list string) : list string :=
  fold_left
    (fun langs f =>
       match langMap (Str.toLowerCaseUtf8 (extname f)) with
       | Some lang => add langs lang
       | None => langs
       end)
    files [].

Inductive SignatureType : Type := backend | frontendKind | infra | databaseKind.

Record FrameworkSignature : Type := {
  sigFile : string;
  key : option string;
  framework : string;
  sigType : SignatureType
}.

Definition signature (f : string) (k : option string) (fw : string)
  (t : SignatureType) : FrameworkSignature :=
  {| sigFile := f; key := k; framework := fw; sigType := t |}.

Definition FRAMEWORK_SIGNATURES : list FrameworkSignature :=
  [ signature "package.json" (Some "express") "Express.js" backend;
    signature "package.json" (Some "fastify") "Fastify" backend;
    signature "package.json" (Some "next") "Next.js" frontendKind;
    signature "package.json" (Some "react") "React" frontendKind;
    signature "package.json" (Some "vue") "Vue.js" frontendKind;
    signature "package.json" (Some "angular") "Angular" frontendKind;
    signature "package.json" (Some "nestjs") "NestJS" backend;
    signature "requirements.txt" (Some "flask") "Flask" backend;
    signature "requirements.txt" (Some "django") "Django" backend;
    signature "requirements.txt" (Some "fastapi") "FastAPI" backend;
    signature "go.mod" (Some "gin") "Gin" backend;
    signature "go.mod" (Some "fiber") "Fiber" backend;
    signature "Cargo.toml" (Some "actix") "Actix" backend;
    signature "pom.xml" (Some "spring") "Spring Boot" backend;
    signature "Dockerfile" None "Docker" infra;
    signature "docker-compose.yml" None "Docker Compose" infra;
    signature "docker-compose.yaml" None "Docker Compose" infra;
    signature "terraform.tf" None "Terraform" infra;
    signature ".github/workflows" None "GitHub Actions" infra ].

(** The callback of [files.find]. *)
Definition matchesSignature (sig : FrameworkSignature) (f : string) : bool :=
  String.eqb f (sigFile sig)
  || Str.endsWith f ("/" ++ sigFile sig)%string
  || Str.startsWith f (sigFile sig).

(** One turn of the loop over the signatures.  [continue] on a [match]
    that is falsy: none was found, or the one found is the empty path. *)
Definition detectOne (fs : FileSystem) (files : list string)
  (detected : list string) (sig : FrameworkSignature) : list string :=
  match find (matchesSignature sig) files with
  | None => detected
  | Some matched =>
      if String.eqb matched EmptyString then detected
      else match key sig with
           | None => add detected (framework sig)
           | Some k =>
               match fs matched with
               | Some content =>
                   if Str.includes (Str.toLowerCaseUtf8 content)
                                   (Str.toLowerCaseUtf8 k)
                   then add detected (framework sig)
                   else detected
               | None => detected
               end
           end
  end.

Definition detectFrameworks (fs : FileSystem) (files : list string)
  : list string :=
  fold_left (detectOne fs files) FRAMEWORK_SIGNATURES [].

(** A line terminator, which the dot of a pattern does not match: LF, CR,
    or the UTF-8 form of U+2028 or U+2029. *)
Fixpoint hasLineTerminator (s : string) : bool :=
  match s with
  | EmptyString => false
  | String c r =>
      Ascii.eqb c "010" || Ascii.eqb c "013"
      || Str.startsWith s (String "226" (String "128" (String "168" EmptyString)))
      || Str.startsWith s (String "226" (String "128" (String "169" EmptyString)))
      || hasLineTerminator r
  end.

(** [/^prefix.*suffix$/.test(f)] *)
Definition framed (prefix suffix f : string) : bool :=
  let n := String.length f in
  let p := String.length prefix in
  let s := String.length suffix in
  Str.startsWith f prefix && Str.endsWith f suffix && (p + s <=? n)%nat
  && negb (hasLineTerminator (String.substring p (n - p - s) f)).

(** Every text [a ++ b ++ c] of three alternations. *)
Definition products (xs ys zs : list string) : list string :=
  flat_map (fun x => flat_map (fun y => map (fun z => (x ++ y ++ z)%string) zs) ys) xs.

(** [entryPatterns.some((p) => p.test(f))] *)
Definition isEntryPoint (f : string) : bool :=
  has (products [EmptyString; "src/"] ["index"; "main"; "app"; "server"]
         [".ts"; ".tsx"; ".js"; ".jsx"]) f
  || has (products [EmptyString; "src/"] ["index"; "main"; "app"; "server"]
            [".py"]) f
  || framed "cmd/" ".go" f || framed "main" ".go" f
  || has ["main.rs"; "src/main.rs"] f
  || Str.includesAnyCI f ["route/"; "routes/"]
  || Str.includesAnyCI f ["controller/"; "controllers/"]
  || Str.includesAnyCI f ["api/"]
  || Str.includesAnyCI f ["handler/"; "handlers/"].

Definition findEntryPoints (files : list string) : list string :=
  filter isEntryPoint files.

(** The URL that [cloneRepo] hands to [git.clone]. *)
Definition gitUrlOf (url : string) : string :=
  let gitUrl :=
    if negb (Str.startsWith url "http") && negb (Str.startsWith url "git@")
    then ("https://" ++ url)%string else url in
  if negb (Str.endsWith gitUrl ".git") then (gitUrl ++ ".git")%string
  else gitUrl.

(** The clone in the temporary directory: the listing of its root and the
    contents of its files. *)
Record WorkingTree : Type := {
  rootListing : option (list Dirent);
  contents : FileSystem
}.

(** [git.clone(gitUrl, dir, ["--depth", "1"])]: the working tree it
    leaves, [None] when it rejects. *)
Definition Git : Type := string -> option WorkingTree.

(** [analyzeRepo(repoUrl, sessionId)], [None] when the clone or the walk
    throws.  The session only names the temporary directory, which the
    [finally] block removes; [SECURITY_PATTERNS] is the registry of compiled
    patterns. *)
Definition analyzeRepo (SECURITY_PATTERNS : list SecurityPattern)
  (git : Git) (repoUrl : string) : option RepoAnalysis :=
  match git (gitUrlOf repoUrl) with
  | None => None
  | Some tree =>
      match walkDir EmptyString (rootListing tree) [] with
      | None => None
      | Some fileTree =>
          let languages := detectLanguages fileTree in
          let frameworks := detectFrameworks (contents tree) fileTree in
          let entryPoints := findEntryPoints fileTree in
          let securityFindings :=
            scanSecurity SECURITY_PATTERNS (contents tree) fileTree in
          let arch := extractArchitecture (contents tree) fileTree in
          Some {| repoUrl := repoUrl;
                  languages := languages;
                  frameworks := frameworks;
                  components := archComponents arch;
                  dataFlows := archDataFlows arch;
                  trustBoundaries := archTrustBoundaries arch;
                  securityFindings := securityFindings;
                  fileTree := firstn 200 fileTree;
                  entryPoints := entryPoints |}
      end
  end.

End Analyzer.

(* ================================================================== *)
(** * Statements: the risk rating engine *)
(* ================================================================== *)

Module RiskEngineSpec.
Import JsNum RiskEngine.
Local Open Scope list_scope.

(** The factors of a validated record, in the order of the interface. *)
Definition likelihoodFactors (l : OwaspLikelihood) : list jsnum :=
  [skillLevel l; motive l; opportunity l; size l;
   easeOfDiscovery l; easeOfExploit l; awareness l; intrusionDetection l].

Definition impactFactors (i : OwaspImpact) : list jsnum :=
  [confidentiality i; integrity i; availability i; accountability i].

(** The failing input of C3: a likelihood whose [skillLevel] is no number
    (and nothing else given). *)
Definition nanLikelihood : PartialLikelihood := {|
  skillLevel' := Some NaN; motive' := None; opportunity' := None;
  size' := None; easeOfDiscovery' := None; easeOfExploit' := None;
  awareness' := None; intrusionDetection' := None
|}.

End RiskEngineSpec.

(* ================================================================== *)
(** * Statements: persisted severities *)
(* ================================================================== *)

Module OrchestratorSpec.
Import JsNum RiskEngine Json Generator Orchestrator RiskEngineSpec.
Local Open Scope list_scope.

(** The severity that is to be stored for a verdict of the engine: the
    verdict by its name, and Low for Note. *)
Definition storedFor (verdict : RiskSeverity) : string :=
  match verdict with
  | Note => "Low"
  | Low => "Low"
  | Medium => "Medium"
  | High => "High"
  | Critical => "Critical"
  end.





(** How a run that returns got its threats. *)
Definition generatedBy (config : option Provider.LLMConfig)
  (source : Source) (gts : list GeneratedThreat) : Prop :=
  match config with
  | None => gts = demoThreatsOf source
  | Some _ =>
      exists response : string,
        parseThreatsResponse (Json.ofString response) = Returns gts
  end.

(** A generated threat that comes without factor estimates. *)
Definition noFactors (gt : GeneratedThreat) : Prop :=
  owaspLikelihood gt = None /\ owaspImpact gt = None.

(** What a record of the fallback path is: Medium, on the twelve default
    factors, and Medium in the row it becomes. *)
Definition isDefaultMedium (r : ThreatRecord) : Prop :=
  recordSeverity r = "Medium"%string
  /\ owaspFactors r = stringifyFactors defaultLikelihood defaultImpact
  /\ owaspRiskLevel r = Medium
  /\ row_severity (createdRow r) = "Medium"%string.

End OrchestratorSpec.

(* ================================================================== *)
(** * Statements: the architecture extractor *)
(* ================================================================== *)

Module ExtractorSpec.
Import Repo Extractor.
Local Open Scope string_scope.
Local Open Scope list_scope.

(** A component of a given type, or of a given name, exists. *)
Definition present (t : ComponentType) (cs : list ComponentInfo) : Prop :=
  exists c, In c cs /\ type c = t.

Definition presentNamed (n : string) (cs : list ComponentInfo) : Prop :=
  exists c, In c cs /\ name c = n.

(** The rule table of the claim, in its words: frontend to API if both
    exist; else End User to the gateway if present, else to the API; then
    the five pairwise rules. *)
Definition claimedFlow (cs : list ComponentInfo) (a b : string) : bool :=
  let hasApi := hasType api cs in
  let hasFrontend := hasType frontend cs in
  let hasGateway := hasType gateway cs in
  let hasAuth := hasName "Auth Service" cs in
  let hasDb := hasType database cs in
  let hasQueue := hasType queue cs in
  let goes x y := String.eqb a x && String.eqb b y in
  (if hasFrontend && hasApi then goes "Frontend Application" "API Server"
   else goes "End User" (if hasGateway then "API Gateway" else "API Server"))
  || (hasGateway && hasApi && goes "API Gateway" "API Server")
  || (hasApi && hasAuth && goes "API Server" "Auth Service")
  || (hasApi && hasDb && goes "API Server" "Database")
  || (hasAuth && hasDb && goes "Auth Service" "Database")
  || (hasApi && hasQueue && goes "API Server" "Message Queue").

(** The rule table as the code has it: with a frontend and an API, the two
    flows End User to frontend and frontend to API; otherwise, only if
    there is an API, End User to the gateway if present, else to the API;
    then the five pairwise rules. *)
Definition licensed (cs : list ComponentInfo) (a b : string) : Prop :=
  (present frontend cs /\ present api cs
   /\ ((a = "End User" /\ b = "Frontend Application")
       \/ (a = "Frontend Application" /\ b = "API Server")))
  \/ (~ present frontend cs /\ present api cs /\ present gateway cs
      /\ a = "End User" /\ b = "API Gateway")
  \/ (~ present frontend cs /\ present api cs /\ ~ present gateway cs
      /\ a = "End User" /\ b = "API Server")
  \/ (present gateway cs /\ present api cs
      /\ a = "API Gateway" /\ b = "API Server")
  \/ (presentNamed "Auth Service" cs /\ present api cs
      /\ a = "API Server" /\ b = "Auth Service")
  \/ (present api cs /\ present database cs
      /\ a = "API Server" /\ b = "Database")
  \/ (presentNamed "Auth Service" cs /\ present database cs
      /\ a = "Auth Service" /\ b = "Database")
  \/ (present queue cs /\ present api cs
      /\ a = "API Server" /\ b = "Message Queue").

(** A flow from [a] to [b] is among [flows]. *)
Definition flowsFromTo (flows : list DataFlow) (a b : string) : Prop :=
  exists f, In f flows /\ from f = a /\ to f = b.

(** Two working trees: one with a route file and a page, one with a
    single script. *)
Definition noContent : FileSystem := fun _ => None.
Definition webFiles : list string := ["api/users.ts"; "pages/index.tsx"].
Definition scriptFiles : list string := ["tool.py"].

(** A detected component is not external, and the one of type [config]
    is the one called Infrastructure. *)
Definition detectedShape (c : ComponentInfo) : Prop :=
  isExternal c = false
  /\ name c <> "End User"
  /\ (type c = config -> name c = "Infrastructure").

End ExtractorSpec.

(* ================================================================== *)
(** * Statements: the model invocation *)
(* ================================================================== *)

Module ProviderSpec.
Import Provider.
Local Open Scope string_scope.
Local Open Scope list_scope.

(** What holds of a computation that invokes the model at most once, with
    no deadline and no retry bound of its own, and that ends with the
    rejection when the invocation is rejected. *)
Definition singleShot {A : Type} (m : Async A) : Prop :=
  forall remote : Remote,
    List.length (snd (m remote)) <= 1
    /\ Forall (fun i => explicitTimeout i = None
                        /\ explicitRetryBound i = None) (snd (m remote))
    /\ (forall i e, In i (snd (m remote)) -> rejection remote i = Some e ->
                    fst (m remote) = inr e).

End ProviderSpec.

(* ================================================================== *)
(** * Statements: the response parser and its recovery *)
(* ================================================================== *)

Module RecoverySpec.
Import Json Generator.
Local Open Scope char_scope.
Local Open Scope list_scope.
Local Open Scope Z_scope.

(** The state of the scan: depth, the two flags, the recorded index. *)
Definition mk (d : Z) (s e : bool) (l : Z) : ScanState :=
  {| depth := d; inString := s; escape := e; lastCompleteObjectEnd := l |}.

(** The six characters the scan reacts to. *)
Definition special (c : ascii) : bool :=
  Ascii.eqb c "\" || Ascii.eqb c dquote || Ascii.eqb c "["
  || Ascii.eqb c "{" || Ascii.eqb c "]" || Ascii.eqb c "}".

(** A state is safe for a scan that started at depth [d] with [l]
    recorded: it is at that depth or deeper and, from depth 2 on, it
    records what was recorded. *)
Definition safe (d l : Z) (st : ScanState) : Prop :=
  d <= depth st /\ (2 <= d -> lastCompleteObjectEnd st = l).

(** Every state on the way through [u] is safe. *)
Definition Safe (d l : Z) (st : ScanState) (i : Z) (u : text) : Prop :=
  forall p q, u = p ++ q -> safe d l (scanFrom st i p).

(** A text that the scan leaves as it entered it, outside any string:
    complete values and what stands between them. *)
Definition quiet (u : text) : Prop :=
  forall d l i,
    (exists l', scanFrom (mk d false false l) i u = mk d false false l'
                /\ (2 <= d -> l' = l))
    /\ Safe d l (mk d false false l) i u.

(** The rest of a string literal, closing quote included. *)
Definition closesString (u : text) : Prop :=
  forall d l i,
    scanFrom (mk d true false l) i u = mk d false false l
    /\ Safe d l (mk d true false l) i u.

(** A text without any of the six characters. *)
Definition plains (u : text) : Prop :=
  Forall (fun c => special c = false) u.

(** What a successful parse consumed is quiet; of an object, it is the
    quiet text of the members between a pair of braces, after white
    space. *)
Definition objectShape (v : json) (u : text) : Prop :=
  forall ms, v = JObject ms ->
    exists ws body, u = ws ++ "{" :: body ++ ["}"]
                    /\ plains ws /\ quiet body.

(** The text of a complete element: an object, with nothing after its
    closing brace. *)
Definition elementText (o : text) : Prop :=
  exists fuel members, parseValue fuel o = Some (JObject members, []).

(** A text that [trim] may remove: white space of one byte, and bytes
    beyond the ASCII range. *)
Definition spaces (u : text) : Prop :=
  Forall (fun c => Str.isSpace c = true \/ (128 <= nat_of_ascii c)%nat) u.

(** Neither bracket occurs in a text. *)
Definition bracketFree (u : text) : bool :=
  forallb (fun c => negb (Ascii.eqb c "[") && negb (Ascii.eqb c "]")) u.

(** Complete elements, each with the separator that follows it. *)
Fixpoint joinElements (chunks : list (text * text)) : text :=
  match chunks with
  | [] => []
  | (e, sep) :: rest => e ++ sep ++ joinElements rest
  end.

(** A complete element followed by plain text (commas, white space). *)
Definition wellFormedChunk (chunk : text * text) : Prop :=
  elementText (fst chunk) /\ plains (snd chunk).

End RecoverySpec.

(* ================================================================== *)
(** * Statements: ratings *)
(* ================================================================== *)

Module RatingSpec.
Import JsNum RiskEngine RiskEngineSpec.
Local Open Scope list_scope.

(** The properties of a raw record, none when the record is absent. *)
Definition givenLikelihood (raw : option PartialLikelihood)
  : list (option jsnum) :=
  match raw with
  | None => []
  | Some raw =>
      [skillLevel' raw; motive' raw; opportunity' raw; size' raw;
       easeOfDiscovery' raw; easeOfExploit' raw; awareness' raw;
       intrusionDetection' raw]
  end.

Definition givenImpact (raw : option PartialImpact) : list (option jsnum) :=
  match raw with
  | None => []
  | Some raw =>
      [confidentiality' raw; integrity' raw; availability' raw;
       accountability' raw]
  end.

(** Every property that is present is a number (an infinity included). *)
Definition numeric (given : list (option jsnum)) : Prop :=
  Forall (fun v => v <> Some NaN) given.

(** [lo <= v <= hi] on numbers. *)
Definition between (lo hi : Z) (v : jsnum) : Prop :=
  v <> NaN /\ lt v (ofZ lo) = false /\ lt (ofZ hi) v = false.

(** [a <= b] on numbers. *)
Definition le (a b : jsnum) : Prop :=
  a <> NaN /\ b <> NaN /\ lt b a = false.

(** The levels and the severities from the mildest to the gravest. *)
Definition levelRank (l : RiskLevel) : nat :=
  match l with LOW => 0 | MEDIUM => 1 | HIGH => 2 end.

Definition rank (s : RiskSeverity) : nat :=
  match s with
  | Note => 0 | Low => 1 | Medium => 2 | High => 3 | Critical => 4
  end.

Definition RiskLevel_eqb (a b : RiskLevel) : bool :=
  match a, b with
  | LOW, LOW | MEDIUM, MEDIUM | HIGH, HIGH => true
  | _, _ => false
  end.

(** The mean of factors that sum to [s], over [d] factors. *)
Definition mean (s : Z) (d : positive) : Q :=
  (inject_Z s / inject_Z (Zpos d))%Q.

Definition betweenb (lo hi : Z) (v : jsnum) : bool :=
  match v with
  | NaN => false
  | _ => negb (lt v (ofZ lo)) && negb (lt (ofZ hi) v)
  end.

(** [Math.round(likelihoodScore * impactScore * 100) / 100] on two
    means. *)
Definition overall (s1 s2 : Z) : jsnum :=
  divp (JsNum.round (mulp (mul (Fin (mean s1 8)) (Fin (mean s2 4))) 100)) 100.

(** A rating on complete factor records. *)
Definition rate (l : OwaspLikelihood) (i : OwaspImpact) : OwaspRiskRating :=
  calculateRiskRating (Some (partialOfLikelihood l))
                      (Some (partialOfImpact i)).

(** Factors of a careless answer: a fraction, a negative number, a number
    beyond the scale and an infinity among them. *)
Definition roughLikelihood : PartialLikelihood := {|
  skillLevel' := Some (Fin 7.6); motive' := Some (ofZ (-3));
  opportunity' := Some (ofZ 40); size' := Some PosInf;
  easeOfDiscovery' := None; easeOfExploit' := Some (ofZ 2);
  awareness' := None; intrusionDetection' := Some NegInf
|}.

Definition roughImpact : PartialImpact := {|
  confidentiality' := Some (Fin 8.5); integrity' := None;
  availability' := Some (ofZ 12); accountability' := Some (ofZ 1)
|}.

Definition mildLikelihood : OwaspLikelihood := {|
  skillLevel := ofZ 1; motive := ofZ 2; opportunity := ofZ 2;
  size := ofZ 3; easeOfDiscovery := ofZ 1; easeOfExploit := ofZ 2;
  awareness := ofZ 4; intrusionDetection := ofZ 3
|}.

Definition graveLikelihood : OwaspLikelihood := {|
  skillLevel := ofZ 6; motive := ofZ 9; opportunity := ofZ 7;
  size := ofZ 9; easeOfDiscovery := ofZ 7; easeOfExploit := ofZ 5;
  awareness := ofZ 6; intrusionDetection := ofZ 8
|}.

Definition mildImpact : OwaspImpact := {|
  confidentiality := ofZ 2; integrity := ofZ 1;
  availability := ofZ 1; accountability := ofZ 1
|}.

Definition graveImpact : OwaspImpact := {|
  confidentiality := ofZ 7; integrity := ofZ 7;
  availability := ofZ 5; accountability := ofZ 9
|}.

End RatingSpec.

(* ================================================================== *)
(** * Statements: the generators *)
(* ================================================================== *)

Module DemoSpec.
Import JsNum RiskEngine Json Generator Orchestrator.
Local Open Scope list_scope.

(** How many findings the analysis holds. *)
Definition findingCount (analysis : Repo.RepoAnalysis) : nat :=
  List.length (Repo.securityFindings analysis).

(** The categories of the threats of the demo generator, in order. *)
Definition demoCategories (analysis : Repo.RepoAnalysis)
  : list StrideCategory :=
  map strideCategory (generateDemoThreats analysis).

(** The threats the demo generator derives from findings: the first ones,
    one per finding up to six. *)
Definition fromFindings (analysis : Repo.RepoAnalysis)
  : list GeneratedThreat :=
  firstn (Nat.min 6 (findingCount analysis)) (generateDemoThreats analysis).

(** The row of a generated threat stores the severity the threat
    carries. *)
Definition storedAsGenerated (gt : GeneratedThreat) : Prop :=
  forall (sid : string) (i : nat),
    row_severity (createdRow (threatRecord sid i gt))
    = Repo.Severity_text (severity gt).

(** An analysis with the given findings and nothing else. *)
Definition withFindings (findings : list Repo.SecurityFinding)
  : Repo.RepoAnalysis :=
  {| Repo.repoUrl := "https://github.com/acme/shop";
     Repo.languages := []; Repo.frameworks := [];
     Repo.components := []; Repo.dataFlows := [];
     Repo.trustBoundaries := []; Repo.securityFindings := findings;
     Repo.fileTree := []; Repo.entryPoints := [] |}.

Definition criticalFinding (n : nat) : Repo.SecurityFinding :=
  {| Repo.file := "api/users.ts"; Repo.line := n;
     Repo.pattern := "hardcoded_secret";
     Repo.snippet := "password = 'hunter2hunter2'";
     Repo.severity := Repo.Critical |}.

(** A cut answer: two complete threats and the start of a third. *)
Definition firstThreat : text := js "{'title':'A','impactedAssets':['db']}".
Definition secondThreat : text := js "{'title':'B','impactedAssets':['x']}".
Definition cutThreat : text := js "{'title':'C".
Definition missingEnd : text := js "'}".

End DemoSpec.

(* ================================================================== *)
(** * Statements: the security scan *)
(* ================================================================== *)

Module ScanSpec.
Import Repo Scanner.
Local Open Scope string_scope.
Local Open Scope list_scope.


(** One turn of the loop over the files. *)
Definition scanOne (patterns : list SecurityPattern) (fs : FileSystem)
  (findings : list SecurityFinding) (relFile : string)
  : list SecurityFinding :=
  if negb (isScanned relFile) then findings
  else match fs relFile with
       | Some content => scanFile patterns relFile content findings
       | None => findings
       end.

End ScanSpec.

(* ================================================================== *)
(** * Statements: the diagram *)
(* ================================================================== *)

Module DfdSpec.
Import Repo Dfd.
Local Open Scope string_scope.
Local Open Scope list_scope.






End DfdSpec.

(* ================================================================== *)
(** * Statements: the walk and the detectors *)
(* ================================================================== *)

Module AnalyzerSpec.
Import Repo Scanner Extractor Analyzer.
Local Open Scope string_scope.
Local Open Scope list_scope.

(** The relative path of [segments] below [dir]. *)
Definition pathOf (dir : string) (segments : list string) : string :=
  fold_left joinPath segments dir.

(** The tree has a file [name] of [size] bytes below the directories
    [dirs], each of which can be listed. *)
Fixpoint fileAt (entries : list Dirent) (dirs : list string)
  (name : string) (size : N) : Prop :=
  match dirs with
  | [] => In (FileEntry name (Some size)) entries
  | d :: ds =>
      exists sub, In (DirEntry d (Some sub)) entries
                  /\ fileAt sub ds name size
  end.

(** What the walk lists: a file of the tree of at most 50 KB, below
    directories none of which is skipped, with a name that is not skipped
    and an extension that is not skipped. *)
Definition listed (dir : string) (entries : list Dirent) (p : string)
  : Prop :=
  exists dirs name size,
    p = pathOf dir (dirs ++ [name])
    /\ fileAt entries dirs name size
    /\ (size <= MAX_FILE_SIZE)%N
    /\ Forall (fun n => skipsName n = false) (dirs ++ [name])
    /\ has SKIP_EXTENSIONS (Str.toLowerCaseUtf8 (extname name)) = false.

(** What a turn of the loop, the loop and the walk add to [files]. *)
Definition adds (dir : string) (entries : list Dirent)
  (files out : list string) : Prop :=
  exists added,
    out = files ++ added
    /\ List.length out <= Nat.max (List.length files) MAX_FILES
    /\ Forall (listed dir entries) added.

(** A turn of the loop on an entry of the directory. *)
Definition turnAdds (entry : Dirent) : Prop :=
  forall dir entries files out,
    In entry entries -> List.length files < MAX_FILES ->
    walkEntry dir entry files = Some out -> adds dir entries files out.

(** No dot in a text. *)
Fixpoint noDot (s : string) : bool :=
  match s with
  | EmptyString => true
  | String c r => negb (Ascii.eqb c ".") && noDot r
  end.

(** [SKIP_EXTENSIONS] without its two entries of two dots. *)
Definition singleDotExtensions : list string :=
  [".png"; ".jpg"; ".jpeg"; ".gif"; ".svg"; ".ico"; ".woff"; ".woff2";
   ".ttf"; ".eot"; ".mp3"; ".mp4"; ".zip"; ".tar"; ".gz"; ".pdf";
   ".lock"; ".map"].

(** The extension that the walk looks up for a name. *)
Definition extensionOf (name : string) : string :=
  Str.toLowerCaseUtf8 (extname name).

(** No slash in a text. *)
Fixpoint noSlash (s : string) : bool :=
  match s with
  | EmptyString => true
  | String c r => negb (Ascii.eqb c "/") && noSlash r
  end.

(** The names of a tree are names of directory entries: none holds a
    slash. *)
Fixpoint plainNames (entry : Dirent) : bool :=
  match entry with
  | FileEntry name _ => noSlash name
  | DirEntry name None => noSlash name
  | DirEntry name (Some entries) => noSlash name && forallb plainNames entries
  end.

(** What the walk keeps of a directory path: it does not start with
    [.g] and its last segment is not [.github]. *)
Definition offWorkflows (d : string) : Prop :=
  Str.startsWith d ".g" = false /\ Str.endsWith d "/.github" = false.

(** The signature of GitHub Actions, the last of the registry. *)
Definition workflowsSignature : FrameworkSignature :=
  signature ".github/workflows" None "GitHub Actions" infra.

(** A clone whose working tree has the entries [entries] at its root. *)
Definition cloneOf (entries : list Dirent) (fs : FileSystem) : Git :=
  fun _ => Some {| rootListing := Some entries; contents := fs |}.

(** A small tree: a manifest, a minified script, an image, dot files, a
    file beyond the size limit, a skipped directory, workflows, sources. *)
Definition sampleTree : list Dirent :=
  [ FileEntry "package.json" (Some 300%N);
    FileEntry "app.min.js" (Some 10%N);
    FileEntry "logo.png" (Some 10%N);
    FileEntry ".env" (Some 10%N);
    FileEntry ".gitignore" (Some 3%N);
    FileEntry "big.ts" (Some 100000%N);
    DirEntry "node_modules" None;
    DirEntry ".github"
      (Some [DirEntry "workflows" (Some [FileEntry "ci.yml" (Some 10%N)])]);
    DirEntry "src"
      (Some [FileEntry "index.ts" (Some 10%N);
             DirEntry "api" (Some [FileEntry "users.ts" (Some 5%N)]);
             FileEntry "notes" None]);
    DirEntry "cmd" (Some [FileEntry "tool.go" (Some 10%N)]) ].

End AnalyzerSpec.

(* ================================================================== *)
(** * Statements: the diagram of an analysed repository *)
(* ================================================================== *)

Module DiagramSpec.
Import Repo Extractor Analyzer Dfd DfdSpec.
Local Open Scope string_scope.
Local Open Scope list_scope.






End DiagramSpec.

(* ================================================================== *)
(** * Statements: the identifiers of a run *)
(* ================================================================== *)

Module PersistenceSpec.
Import Generator Orchestrator.
Local Open Scope list_scope.

(** The rows of a table all belong to the run of a session that has
    reached index [i]: each bears the identifier of an earlier index. *)
Definition writtenBefore (sessionId : string) (i : nat)
  (rows : list ThreatRow) : Prop :=
  Forall (fun row => exists j, j < i /\ row_id row = threatId sessionId j)
         rows.

(** Three generated threats without factors. *)
Definition threeThreats : list GeneratedThreat :=
  [ {| strideCategory := Spoofing; severity := Repo.High;
       owaspLikelihood := None; owaspImpact := None |};
    {| strideCategory := Tampering; severity := Repo.Critical;
       owaspLikelihood := None; owaspImpact := None |};
    {| strideCategory := Repudiation; severity := Repo.Low;
       owaspLikelihood := None; owaspImpact := None |} ].

End PersistenceSpec.

(* ================================================================== *)
(** * Facts: the risk rating engine *)
(* ================================================================== *)

Module RiskEngineFacts.
Import JsNum RiskEngine.
Import RiskEngineSpec.

Lemma Qltb_lt (a b : Q) : Qltb a b = true <-> (a < b)%Q.
Proof. unfold Qltb, Qlt. apply Z.ltb_lt. Qed.

Lemma Qltb_ge (a b : Q) : Qltb a b = false <-> (b <= a)%Q.
Proof. unfold Qltb, Qle. apply Z.ltb_ge. Qed.

Lemma lt_ofZ (a b : Z) : lt (ofZ a) (ofZ b) = (a <? b)%Z.
Proof.
  unfold lt, ofZ, Qltb, inject_Z; simpl.
  now rewrite !Z.mul_1_r.
Qed.

Lemma NaN_not_factor : ~ is_factor NaN.
Proof. intros [k [_ H]]; discriminate H. Qed.

Lemma min_ofZ (a b : Z) : JsNum.min (ofZ a) (ofZ b) = ofZ (Z.min a b).
Proof.
  unfold JsNum.min. change (ofZ a) with (Fin (inject_Z a)) at 1.
  change (ofZ b) with (Fin (inject_Z b)) at 1. cbv iota beta.
  change (Fin (inject_Z a)) with (ofZ a). change (Fin (inject_Z b)) with (ofZ b).
  rewrite lt_ofZ.
  destruct (Z.ltb_spec b a); [rewrite Z.min_r by lia | rewrite Z.min_l by lia];
    reflexivity.
Qed.

Lemma max_ofZ (a b : Z) : JsNum.max (ofZ a) (ofZ b) = ofZ (Z.max a b).
Proof.
  unfold JsNum.max. change (ofZ a) with (Fin (inject_Z a)) at 1.
  change (ofZ b) with (Fin (inject_Z b)) at 1. cbv iota beta.
  change (Fin (inject_Z a)) with (ofZ a). change (Fin (inject_Z b)) with (ofZ b).
  rewrite lt_ofZ.
  destruct (Z.ltb_spec a b); [rewrite Z.max_r by lia | rewrite Z.max_l by lia];
    reflexivity.
Qed.

(** [clamp] on a finite number, in closed form. *)
Lemma clamp_Fin (q : Q) :
  clamp (Fin q) = ofZ (Z.max 0 (Z.min 9 (Qfloor (q + (1 # 2))%Q))).
Proof.
  unfold clamp, JsNum.round.
  now rewrite min_ofZ, max_ofZ.
Qed.

Lemma clamp_PosInf : clamp PosInf = ofZ 9.
Proof. reflexivity. Qed.

Lemma clamp_NegInf : clamp NegInf = ofZ 0.
Proof. reflexivity. Qed.

Lemma clamp_NaN : clamp NaN = NaN.
Proof. reflexivity. Qed.

(** Every number other than [NaN] is clamped to an integer of [0..9]. *)
Lemma clamp_in_range (v : jsnum) : v <> NaN -> is_factor (clamp v).
Proof.
  destruct v as [ | | | q]; intros Hv.
  - now elim Hv.
  - exists 9%Z; split; [lia | reflexivity].
  - exists 0%Z; split; [lia | reflexivity].
  - rewrite clamp_Fin. eexists; split; [| reflexivity]. lia.
Qed.

Lemma Qfloor_half (k : Z) : Qfloor (inject_Z k + (1 # 2))%Q = k.
Proof.
  unfold Qfloor, Qplus, inject_Z; simpl.
  replace (k * 2 + 1)%Z with (1 + k * 2)%Z by lia.
  rewrite Z.div_add by lia.
  reflexivity.
Qed.

Lemma round_ofZ (k : Z) : JsNum.round (ofZ k) = ofZ k.
Proof. unfold JsNum.round, ofZ at 1. now rewrite Qfloor_half. Qed.

Lemma clamp_factor (k : Z) : (0 <= k <= 9)%Z -> clamp (ofZ k) = ofZ k.
Proof.
  intros Hk. unfold ofZ at 1. rewrite clamp_Fin, Qfloor_half.
  f_equal; lia.
Qed.

(** Clamping twice is clamping once: the engine can be run again on the
    factors it returned. *)
Lemma clamp_idem (v : jsnum) : clamp (clamp v) = clamp v.
Proof.
  destruct v as [ | | | q]; try reflexivity.
  rewrite clamp_Fin. apply clamp_factor. lia.
Qed.

Lemma validateLikelihood_idem (raw : option PartialLikelihood) :
  validateLikelihood (Some (partialOfLikelihood (validateLikelihood raw)))
  = validateLikelihood raw.
Proof.
  destruct raw as [raw | ]; [ | reflexivity].
  unfold validateLikelihood, partialOfLikelihood; cbn [skillLevel motive
    opportunity size easeOfDiscovery easeOfExploit awareness
    intrusionDetection skillLevel' motive' opportunity' size'
    easeOfDiscovery' easeOfExploit' awareness' intrusionDetection' nullish].
  now rewrite !clamp_idem.
Qed.

Lemma validateImpact_idem (raw : option PartialImpact) :
  validateImpact (Some (partialOfImpact (validateImpact raw)))
  = validateImpact raw.
Proof.
  destruct raw as [raw | ]; [ | reflexivity].
  unfold validateImpact, partialOfImpact; cbn [confidentiality integrity
    availability accountability confidentiality' integrity' availability'
    accountability' nullish].
  now rewrite !clamp_idem.
Qed.

(** The rating of the factors of a rating is that rating. *)
Lemma calculateRiskRating_idem
  (l : option PartialLikelihood) (i : option PartialImpact) :
  let r := calculateRiskRating l i in
  calculateRiskRating (Some (partialOfLikelihood (likelihood r)))
                      (Some (partialOfImpact (impact r))) = r.
Proof.
  cbv zeta. unfold calculateRiskRating. cbn [likelihood impact].
  now rewrite validateLikelihood_idem, validateImpact_idem.
Qed.

Lemma getLevel_low (q : Q) : (q < 3)%Q -> getLevel (Fin q) = LOW.
Proof.
  intros H. unfold getLevel, lt, ofZ.
  now rewrite (proj2 (Qltb_lt q (inject_Z 3)) H).
Qed.

Lemma getLevel_medium (q : Q) :
  (3 <= q)%Q -> (q < 6)%Q -> getLevel (Fin q) = MEDIUM.
Proof.
  intros H3 H6. unfold getLevel, lt, ofZ.
  rewrite (proj2 (Qltb_ge q (inject_Z 3)) H3).
  now rewrite (proj2 (Qltb_lt q (inject_Z 6)) H6).
Qed.

Lemma getLevel_high (q : Q) : (6 <= q)%Q -> getLevel (Fin q) = HIGH.
Proof.
  intros H6. unfold getLevel, lt, ofZ.
  assert (H3 : (inject_Z 3 <= q)%Q).
  { apply Qle_trans with (y := inject_Z 6); [ | exact H6].
    unfold Qle; simpl; lia. }
  rewrite (proj2 (Qltb_ge q (inject_Z 3)) H3).
  now rewrite (proj2 (Qltb_ge q (inject_Z 6)) H6).
Qed.

(** A score that is no number falls through both comparisons. *)
Lemma getLevel_NaN : getLevel NaN = HIGH.
Proof. reflexivity. Qed.

(** C2.  Each score is bucketed with exact boundaries: below 3 is LOW,
    from 3 and below 6 is MEDIUM, from 6 on is HIGH (so 2.99 is LOW, 3.00
    and 5.99 are MEDIUM, 6.00 is HIGH); and the severity of a rating is the
    lookup of (impactLevel, likelihoodLevel) in the 3x3 matrix, which has
    an entry for each of the nine pairs. *)
Theorem level_buckets_and_severity_matrix :
  (forall q : Q,
      ((q < 3)%Q -> getLevel (Fin q) = LOW)
      /\ ((3 <= q)%Q -> (q < 6)%Q -> getLevel (Fin q) = MEDIUM)
      /\ ((6 <= q)%Q -> getLevel (Fin q) = HIGH))
  /\ (getLevel (Fin 2.99) = LOW /\ getLevel (Fin 3.00) = MEDIUM
      /\ getLevel (Fin 5.99) = MEDIUM /\ getLevel (Fin 6.00) = HIGH)
  /\ (getRiskSeverity HIGH HIGH = Critical
      /\ getRiskSeverity HIGH MEDIUM = High
      /\ getRiskSeverity MEDIUM HIGH = High
      /\ getRiskSeverity HIGH LOW = Medium
      /\ getRiskSeverity MEDIUM MEDIUM = Medium
      /\ getRiskSeverity LOW HIGH = Medium
      /\ getRiskSeverity MEDIUM LOW = Low
      /\ getRiskSeverity LOW MEDIUM = Low
      /\ getRiskSeverity LOW LOW = Note)
  /\ (forall (l : option PartialLikelihood) (i : option PartialImpact),
         let r := calculateRiskRating l i in
         likelihoodLevel r = getLevel (rawLikelihoodScore (likelihood r))
         /\ impactLevel r = getLevel (rawImpactScore (impact r))
         /\ riskSeverity r
            = getRiskSeverity (impactLevel r) (likelihoodLevel r)).
Proof.
  split; [ | split; [ | split]].
  - intros q. split; [ | split].
    + apply getLevel_low.
    + apply getLevel_medium.
    + apply getLevel_high.
  - repeat split; reflexivity.
  - repeat split; reflexivity.
  - intros l i. cbv zeta. repeat split; reflexivity.
Qed.

(** C3, at the failing input.  A sub-factor that is no number is neither
    replaced by 5 nor brought into [0..9]: [clamp] returns [NaN], the
    likelihood score is [NaN], and the likelihood level is HIGH. *)
Theorem invalid_factor_stays_NaN :
  skillLevel (validateLikelihood (Some nanLikelihood)) = NaN
  /\ ~ is_factor (skillLevel (validateLikelihood (Some nanLikelihood)))
  /\ skillLevel (validateLikelihood (Some nanLikelihood)) <> ofZ 5
  /\ rawLikelihoodScore (validateLikelihood (Some nanLikelihood)) = NaN
  /\ likelihoodLevel (calculateRiskRating (Some nanLikelihood) None) = HIGH
  /\ riskSeverity (calculateRiskRating (Some nanLikelihood) None) = High.
Proof.
  repeat split; try reflexivity.
  - apply NaN_not_factor.
  - discriminate.
Qed.

(** What the engine does guarantee: a sub-factor that is a number is an
    integer of [0..9] after validation, and an absent one is 5. *)
Lemma validateLikelihood_in_range (raw : PartialLikelihood) :
  skillLevel' raw <> Some NaN ->
  is_factor (skillLevel (validateLikelihood (Some raw))).
Proof.
  intros H. cbn. destruct (skillLevel' raw) as [v | ]; cbn.
  - apply clamp_in_range. congruence.
  - exists 5%Z. split; [lia | reflexivity].
Qed.

Lemma validate_absent :
  validateLikelihood None = defaultLikelihood
  /\ validateImpact None = defaultImpact
  /\ clamp (nullish None (ofZ 5)) = ofZ 5.
Proof. repeat split. Qed.

(** With no factors at all, both levels are MEDIUM and the severity is
    Medium. *)
Lemma rating_of_nothing :
  riskSeverity (calculateRiskRating None None) = Medium.
Proof. reflexivity. Qed.

End RiskEngineFacts.

(* ================================================================== *)
(** * Facts: persisted severities *)
(* ================================================================== *)

Module OrchestratorFacts.
Import JsNum RiskEngine Json Generator Orchestrator RiskEngineFacts.
Local Open Scope list_scope.
Import RiskEngineSpec OrchestratorSpec.

(** ** The insertion *)

(** What the route passes as [severity] is the name that is to be
    stored, and it passes the [CHECK] of the table. *)
Lemma passed_severity (verdict : RiskSeverity) :
  RiskSeverity_text (noteAsLow verdict) = storedFor verdict
  /\ severityCheck (RiskSeverity_text (noteAsLow verdict)) = true.
Proof. destruct verdict; split; reflexivity. Qed.

(** The name of Note itself does not pass it. *)
Lemma Note_fails_the_check : severityCheck (RiskSeverity_text Note) = false.
Proof. reflexivity. Qed.

Lemma createThreat_returns (threat : ThreatRecord) (db db' : Database) :
  createThreat threat db = Returns db' ->
  db' = {| sessions := sessions db;
           threats := threats db ++ [createdRow threat] |}.
Proof.
  unfold createThreat.
  destruct (negb (severityCheck (recordSeverity threat))); [discriminate | ].
  destruct (existsb _ (threats db)); [discriminate | ].
  destruct (negb (existsb _ (sessions db))); [discriminate | ].
  intros H; inversion H; reflexivity.
Qed.

Lemma persistFrom_returns (sid : string) (gts : list GeneratedThreat) :
  forall (i : nat) (db db' : Database),
    persistFrom sid i gts db = Returns db' ->
    sessions db' = sessions db
    /\ threats db' = threats db ++ map createdRow (recordsFrom sid i gts).
Proof.
  induction gts as [ | gt rest IH]; intros i db db' H; simpl in H |- *.
  - inversion H; subst. now rewrite app_nil_r.
  - destruct (createThreat (threatRecord sid i gt) db) as [db1 | msg] eqn:E;
      [ | discriminate].
    apply createThreat_returns in E. subst db1.
    apply IH in H. destruct H as [Hs Ht]. cbn in Hs, Ht.
    split; [exact Hs | ]. rewrite Ht, <- app_assoc. reflexivity.
Qed.

Lemma persistThreats_returns (sid : string) (gts : list GeneratedThreat)
  (db db' : Database) (remote : Provider.Remote) :
  fst (persistThreats sid gts db remote) = inl db' ->
  sessions db' = sessions db
  /\ threats db' = threats db ++ map createdRow (recordsFrom sid 0 gts).
Proof.
  unfold persistThreats.
  destruct (persistFrom sid 0 gts db) as [db1 | msg] eqn:E; cbn;
    [ | discriminate].
  intros H; inversion H; subst. now apply persistFrom_returns.
Qed.

Lemma recordsFrom_length (sid : string) (gts : list GeneratedThreat) :
  forall i, List.length (recordsFrom sid i gts) = List.length gts.
Proof. induction gts; intros i; simpl; [ | rewrite IHgts]; reflexivity. Qed.

(** ** The factors text of a record *)








(** ** Runs *)

Lemma callLLM_then_parse (sys usr : string) (c : Provider.LLMConfig)
  (remote : Provider.Remote) (gts : list GeneratedThreat)
  (log : list Provider.Invocation) :
  Provider.bind (Provider.callLLM sys usr c 16384%N) parseOrThrow remote
  = (inl gts, log) ->
  exists response : string,
    parseThreatsResponse (Json.ofString response) = Returns gts.
Proof.
  unfold Provider.bind.
  destruct (Provider.callLLM sys usr c 16384%N remote) as [[text | e] l];
    [ | discriminate].
  unfold parseOrThrow.
  destruct (parseThreatsResponse (Json.ofString text)) as [ts | msg] eqn:E;
    cbn; intros H; inversion H; subst.
  now exists text.
Qed.

Lemma bind_returns {A B : Type} (m : Provider.Async A)
  (k : A -> Provider.Async B) (remote : Provider.Remote) (b : B) :
  fst (Provider.bind m k remote) = inl b ->
  exists a log, m remote = (inl a, log) /\ fst (k a remote) = inl b.
Proof.
  unfold Provider.bind.
  destruct (m remote) as [[a | e] log]; [ | discriminate].
  destruct (k a remote) as [r log'] eqn:E. cbn. intros H.
  exists a, log. rewrite E. now split.
Qed.

Lemma run_returns (P : Prompts) (config : option Provider.LLMConfig)
  (sid : string) (source : Source) (fw : Framework) (db db' : Database)
  (remote : Provider.Remote) :
  fst (runAnalysisPipeline P config sid source fw db remote) = inl db' ->
  exists gts,
    threats db' = threats db ++ map createdRow (recordsFrom sid 0 gts)
    /\ generatedBy config source gts.
Proof.
  destruct source as [analysis | docContent docRef reviews];
    cbn [runAnalysisPipeline].
  - unfold analyzeGitHubRepo. intros H.
    apply bind_returns in H. destruct H as [gts [log [E H]]].
    apply persistThreats_returns in H. exists gts. split; [apply H | ].
    destruct config as [c | ]; cbn in E |- *.
    + eapply callLLM_then_parse; exact E.
    + now inversion E.
  - unfold analyzeDesignDoc. intros H.
    apply bind_returns in H. destruct H as [gts [log [E H]]].
    apply bind_returns in H. destruct H as [[] [log' [_ H]]].
    apply persistThreats_returns in H. exists gts. split; [apply H | ].
    destruct config as [c | ]; cbn in E |- *.
    + eapply callLLM_then_parse; exact E.
    + now inversion E.
Qed.


(** ** The fallback path *)

Lemma findingThreats_noFactors (findings : list Repo.SecurityFinding) :
  forall threats, Forall noFactors threats ->
                  Forall noFactors (findingThreats findings threats).
Proof.
  induction findings as [ | f rest IH]; intros threats H; simpl.
  - exact H.
  - apply IH. apply Forall_app. split; [exact H | ].
    constructor; [split; reflexivity | constructor].
Qed.

Lemma generateDemoThreats_noFactors (analysis : Repo.RepoAnalysis) :
  Forall noFactors (generateDemoThreats analysis).
Proof.
  unfold generateDemoThreats.
  generalize (firstn
    (Nat.max 2 (8 - List.length
       (findingThreats (firstn 6 (Repo.securityFindings analysis)) [])))
    archThreats).
  intros rows.
  assert (H : Forall noFactors
                (findingThreats (firstn 6 (Repo.securityFindings analysis)) []))
    by (apply findingThreats_noFactors; constructor).
  revert H.
  generalize (findingThreats (firstn 6 (Repo.securityFindings analysis)) []).
  induction rows as [ | row rows IH]; intros threats H; simpl.
  - exact H.
  - apply IH. apply Forall_app. split; [exact H | ].
    constructor; [split; reflexivity | constructor].
Qed.

Lemma demoThreatsOf_noFactors (source : Source) :
  Forall noFactors (demoThreatsOf source).
Proof.
  destruct source as [analysis | c d r]; simpl.
  - apply generateDemoThreats_noFactors.
  - unfold generateDemoThreatsFromDoc. simpl.
    repeat constructor.
Qed.

Lemma recordsFrom_noFactors (sid : string) (gts : list GeneratedThreat) :
  Forall noFactors gts ->
  forall i, Forall isDefaultMedium (recordsFrom sid i gts).
Proof.
  induction 1 as [ | gt rest [Hl Hi] _ IH]; intros i; simpl; constructor.
  - unfold threatRecord, isDefaultMedium. rewrite Hl, Hi. cbn.
    repeat split.
  - apply IH.
Qed.

(** C10.  Without model credentials, every record a run persists has
    severity Medium: the fallback generators attach no factors, the engine
    therefore rates the twelve defaults, and the severity the generator
    attached (High and Critical among them) is not read. *)
Theorem fallback_records_are_medium
  (P : Prompts) (sid : string) (source : Source) (fw : Framework)
  (db db' : Database) (remote : Provider.Remote) :
  fst (runAnalysisPipeline P None sid source fw db remote) = inl db' ->
  exists added : list ThreatRecord,
    threats db' = threats db ++ map createdRow added
    /\ List.length added = List.length (demoThreatsOf source)
    /\ Forall isDefaultMedium added.
Proof.
  intros H. destruct (run_returns _ _ _ _ _ _ _ H) as [gts [Hs Hg]].
  cbn in Hg. subst gts.
  exists (recordsFrom sid 0 (demoThreatsOf source)).
  split; [exact Hs | split].
  - apply recordsFrom_length.
  - apply recordsFrom_noFactors, demoThreatsOf_noFactors.
Qed.



(** C10 on a run of the fallback over an analysis with one High finding:
    seven records, for which the generator suggested Medium, High and
    Critical, all stored as Medium. *)
Lemma fallback_records_witness :
  let run :=
    runAnalysisPipeline plainPrompts None "s-2" (GithubRepo sampleAnalysis)
      STRIDE (freshSession "s-2") Provider.timingOut in
  map severity (demoThreatsOf (GithubRepo sampleAnalysis))
  = [Repo.Medium; Repo.High; Repo.High; Repo.Medium; Repo.Medium;
     Repo.High; Repo.Critical]
  /\ exists added : list ThreatRecord,
       stored run = [] ++ map createdRow added
       /\ List.length added
          = List.length (demoThreatsOf (GithubRepo sampleAnalysis))
       /\ Forall isDefaultMedium added.
Proof.
  cbv zeta. split.
  - vm_compute. reflexivity.
  - apply (fallback_records_are_medium plainPrompts "s-2"
             (GithubRepo sampleAnalysis) STRIDE (freshSession "s-2")
             Provider.timingOut).
    vm_compute. reflexivity.
Defined.

End OrchestratorFacts.

(* ================================================================== *)
(** * Facts: the architecture extractor *)
(* ================================================================== *)

Module ExtractorFacts.
Import Repo Extractor.
Local Open Scope string_scope.
Local Open Scope list_scope.
Import ExtractorSpec.

Lemma ComponentType_eqb_eq (a b : ComponentType) :
  ComponentType_eqb a b = true <-> a = b.
Proof. destruct a, b; simpl; split; congruence. Qed.

Lemma found_true {A : Type} (p : A -> bool) (l : list A) :
  found p l = true <-> exists x, In x l /\ p x = true.
Proof.
  unfold found. destruct (find p l) as [x | ] eqn:E.
  - split; [intros _ | reflexivity].
    exists x. now apply find_some in E.
  - split; [discriminate | intros [x [Hin Hp]]].
    rewrite (find_none _ _ E x Hin) in Hp. discriminate.
Qed.

Lemma hasType_present (t : ComponentType) (cs : list ComponentInfo) :
  hasType t cs = true <-> present t cs.
Proof.
  unfold hasType, present. rewrite found_true.
  split; intros [c [Hin H]]; exists c; split; trivial;
    now apply ComponentType_eqb_eq.
Qed.

Lemma hasName_present (n : string) (cs : list ComponentInfo) :
  hasName n cs = true <-> presentNamed n cs.
Proof.
  unfold hasName, presentNamed. rewrite found_true.
  split; intros [c [Hin H]]; exists c; split; trivial;
    now apply String.eqb_eq.
Qed.

Lemma present_iff_false (t : ComponentType) (cs : list ComponentInfo) :
  hasType t cs = false <-> ~ present t cs.
Proof.
  rewrite <- hasType_present. destruct (hasType t cs); split; congruence.
Qed.

Ltac flow_cases :=
  repeat match goal with
         | H : _ \/ _ |- _ => destruct H
         | H : _ /\ _ |- _ => destruct H
         | H : False |- _ => elim H
         | H : In _ _ |- _ => simpl in H
         | H : true = false |- _ => discriminate H
         | H : false = true |- _ => discriminate H
         | H : ~ (true = true) |- _ => elim H; reflexivity
         end.

(** The flows of a component list, by the flags that were read. *)
Lemma inferDataFlows_licensed (cs : list ComponentInfo) (a b : string) :
  flowsFromTo (inferDataFlows cs) a b <-> licensed cs a b.
Proof.
  unfold licensed, flowsFromTo, inferDataFlows.
  rewrite <- !hasType_present, <- !hasName_present.
  destruct (hasType api cs), (hasType database cs), (hasType queue cs),
    (hasName "Auth Service" cs), (hasType frontend cs),
    (hasType gateway cs); cbn -[In];
    (split;
     [ intros [f [Hin [Ha Hb]]]; simpl in Hin; flow_cases; subst; cbn;
       intuition congruence
     | intros H; flow_cases; subst;
       refine (ex_intro _ (flow _ _ _ _) (conj _ (conj eq_refl eq_refl)));
       simpl; repeat (first [left; reflexivity | right]) ]).
Qed.

(** ** What [detectComponents] returns *)

Lemma Forall_pushIf {A : Type} (Q : A -> Prop) (cond : bool) (x : A)
  (l : list A) :
  Q x -> Forall Q l -> Forall Q (pushIf cond x l).
Proof.
  intros Hx Hl. destruct cond; simpl; [ | exact Hl].
  apply Forall_app. split; [exact Hl | now constructor].
Qed.

Lemma pushIf_when_empty {A : Type} (x : A) (l : list A) :
  pushIf (List.length l =? 0)%nat x l <> [].
Proof. destruct l; simpl; discriminate. Qed.

Lemma detectComponents_shape (fs : FileSystem) (files : list string) :
  Forall detectedShape (detectComponents fs files).
Proof.
  unfold detectComponents; cbv zeta.
  repeat (apply Forall_pushIf;
          [ unfold detectedShape; cbn; repeat split;
            solve [reflexivity | discriminate] | ]).
  constructor.
Qed.

Lemma detectComponents_nonempty (fs : FileSystem) (files : list string) :
  detectComponents fs files <> [].
Proof. unfold detectComponents; cbv zeta. apply pushIf_when_empty. Qed.

Lemma present_with_endUser (t : ComponentType) (d : list ComponentInfo) :
  t <> external -> (present t (d ++ [endUser]) <-> present t d).
Proof.
  intros Ht. unfold present. split; intros [c [Hin Hc]]; exists c.
  - apply in_app_or in Hin. destruct Hin as [Hin | [He | []]]; [now split | ].
    subst c. now elim Ht.
  - split; [apply in_or_app; now left | exact Hc].
Qed.

Lemma presentNamed_with_endUser (n : string) (d : list ComponentInfo) :
  n <> "End User" ->
  (presentNamed n (d ++ [endUser]) <-> presentNamed n d).
Proof.
  intros Hn. unfold presentNamed. split; intros [c [Hin Hc]]; exists c.
  - apply in_app_or in Hin. destruct Hin as [Hin | [He | []]]; [now split | ].
    subst c. now elim Hn.
  - split; [apply in_or_app; now left | exact Hc].
Qed.

Lemma licensed_with_endUser (d : list ComponentInfo) (a b : string) :
  licensed (d ++ [endUser]) a b <-> licensed d a b.
Proof.
  unfold licensed.
  rewrite !(@present_with_endUser frontend) by discriminate.
  rewrite !(@present_with_endUser api) by discriminate.
  rewrite !(@present_with_endUser gateway) by discriminate.
  rewrite !(@present_with_endUser database) by discriminate.
  rewrite !(@present_with_endUser queue) by discriminate.
  rewrite !(@presentNamed_with_endUser "Auth Service") by discriminate.
  reflexivity.
Qed.

(** C7, as the code has it.  The flows of an analysis are exactly those of
    the rule table read on its components: End User to frontend and
    frontend to API if both exist; else, provided an API exists, End User
    to the gateway if present and to the API otherwise; gateway to API,
    API to Auth, API to database, Auth to database, API to queue, each if
    both ends exist; and nothing else. *)
Theorem flows_are_the_licensed_ones
  (fs : FileSystem) (files : list string) (a b : string) :
  let arch := extractArchitecture fs files in
  flowsFromTo (archDataFlows arch) a b <-> licensed (archComponents arch) a b.
Proof.
  cbv zeta. unfold extractArchitecture; cbn [archDataFlows archComponents].
  rewrite licensed_with_endUser. apply inferDataFlows_licensed.
Qed.

(** C7, as the claim words it, fails twice.  With a frontend and an API
    the extractor also emits End User to frontend, which the claimed table
    does not license; and with neither an API nor a frontend the claimed
    "else" licenses End User to API, which the extractor does not emit. *)
Lemma claimed_flow_table_fails :
  (flowsFromTo (archDataFlows (extractArchitecture noContent webFiles))
     "End User" "Frontend Application"
   /\ claimedFlow (archComponents (extractArchitecture noContent webFiles))
        "End User" "Frontend Application" = false)
  /\ (claimedFlow (archComponents (extractArchitecture noContent scriptFiles))
        "End User" "API Server" = true
      /\ archDataFlows (extractArchitecture noContent scriptFiles) = []).
Proof.
  split; split; try (vm_compute; reflexivity).
  exists (flow "End User" "Frontend Application" "HTTPS" "User Requests").
  vm_compute. split; [left; reflexivity | split; reflexivity].
Qed.

(** ** Trust boundaries *)

Lemma filter_internal (d : list ComponentInfo) :
  Forall detectedShape d ->
  filter (fun c => negb (isExternal c)) (d ++ [endUser]) = d
  /\ filter isExternal (d ++ [endUser]) = [endUser].
Proof.
  intros H. rewrite !filter_app. cbn.
  induction H as [ | c d [Hc _] _ [IH1 IH2]]; [split; reflexivity | ].
  cbn. rewrite Hc. cbn. rewrite app_nil_r in IH1.
  split; [rewrite app_nil_r; now f_equal | exact IH2].
Qed.

Lemma find_config (d : list ComponentInfo) :
  Forall detectedShape d ->
  match find (fun c => ComponentType_eqb (type c) config) (d ++ [endUser]) with
  | Some c => name c = "Infrastructure" /\ hasType config (d ++ [endUser]) = true
  | None => hasType config (d ++ [endUser]) = false
  end.
Proof.
  intros H. unfold hasType, found.
  destruct (find _ (d ++ [endUser])) as [c | ] eqn:E; [ | reflexivity].
  split; [ | reflexivity].
  apply find_some in E. destruct E as [Hin Hc].
  apply ComponentType_eqb_eq in Hc.
  apply in_app_or in Hin. destruct Hin as [Hin | [He | []]].
  - rewrite Forall_forall in H. now apply (H c Hin).
  - subst c. discriminate Hc.
Qed.

(** C8.  An analysis has exactly one external component, the synthetic
    End User; its trust boundaries are the application boundary with all
    the components that are not external, then the external boundary with
    End User, and a third one, Infrastructure, when and only when a
    component of type [config] exists: two boundaries or three. *)
Theorem one_end_user_two_or_three_boundaries
  (fs : FileSystem) (files : list string) :
  let arch := extractArchitecture fs files in
  let internal := filter (fun c => negb (isExternal c)) (archComponents arch) in
  filter isExternal (archComponents arch) = [endUser]
  /\ internal <> []
  /\ archTrustBoundaries arch
     = [ {| boundaryName := "Application Boundary";
            members := map name internal |};
         {| boundaryName := "External"; members := ["End User"] |} ]
       ++ (if hasType config (archComponents arch)
           then [ {| boundaryName := "Infrastructure";
                     members := ["Infrastructure"] |} ]
           else [])
  /\ (List.length (archTrustBoundaries arch) = 2
      \/ List.length (archTrustBoundaries arch) = 3)
  /\ (List.length (archTrustBoundaries arch) = 3
      <-> present config (archComponents arch)).
Proof.
  cbv zeta. unfold extractArchitecture;
    cbn [archDataFlows archComponents archTrustBoundaries].
  pose proof (detectComponents_shape fs files) as Hshape.
  pose proof (detectComponents_nonempty fs files) as Hne.
  set (d := detectComponents fs files) in *.
  destruct (filter_internal Hshape) as [Hint Hext].
  pose proof (find_config Hshape) as Hcfg.
  assert (Htb : buildTrustBoundaries (d ++ [endUser])
                = [ {| boundaryName := "Application Boundary";
                       members := map name d |};
                    {| boundaryName := "External";
                       members := ["End User"] |} ]
                  ++ (if hasType config (d ++ [endUser])
                      then [ {| boundaryName := "Infrastructure";
                                members := ["Infrastructure"] |} ]
                      else [])).
  { unfold buildTrustBoundaries; cbv zeta. rewrite Hint, Hext.
    assert (Hd : nonEmpty (map name d) = true)
      by (destruct d; [now elim Hne | reflexivity]).
    rewrite Hd. cbn [map name endUser nonEmpty List.length Nat.ltb Nat.leb pushIf app].
    destruct (find _ (d ++ [endUser])) as [c | ].
    - destruct Hcfg as [Hn Hh]. rewrite Hn, Hh. reflexivity.
    - rewrite Hcfg. reflexivity. }
  rewrite Hint, Hext, Htb. rewrite <- hasType_present.
  repeat split; try assumption.
  - destruct (hasType config (d ++ [endUser])); [right | left]; reflexivity.
  - destruct (hasType config (d ++ [endUser])); [reflexivity | discriminate].
  - intros H. rewrite H. reflexivity.
Qed.

End ExtractorFacts.

(* ================================================================== *)
(** * Facts: the pattern scanner *)
(* ================================================================== *)

Module ScannerFacts.
Import Repo Scanner.
Local Open Scope string_scope.
Local Open Scope list_scope.

Lemma countFor_app (rel : string) (a b : list SecurityFinding) :
  countFor rel (a ++ b) = countFor rel a + countFor rel b.
Proof. unfold countFor. now rewrite filter_app, length_app. Qed.

Lemma countFor_findingAt (rel content : string) (lines : list string)
  (p : SecurityPattern) (index : nat) :
  countFor rel [findingAt rel content lines p index] = 1.
Proof. unfold countFor; cbn. now rewrite String.eqb_refl. Qed.

Lemma countFor_findings (rel content : string) (lines : list string)
  (p : SecurityPattern) (ms : list nat) :
  countFor rel (map (findingAt rel content lines p) ms) = List.length ms.
Proof.
  induction ms as [ | m ms IH]; [reflexivity | ].
  change (map ?f (m :: ms)) with ([f m] ++ map f ms).
  rewrite countFor_app, countFor_findingAt, IH. reflexivity.
Qed.

(** The loop of one detector in closed form: it keeps the first
    [max 1 (10 - c)] matches, where [c] counts the findings that the file
    had when the detector started. *)
Lemma scanMatches_closed (rel content : string) (lines : list string)
  (p : SecurityPattern) (ms : list nat) :
  forall findings,
    scanMatches rel content lines p ms findings
    = findings
        ++ map (findingAt rel content lines p)
             (firstn (Nat.max 1 (10 - countFor rel findings)) ms).
Proof.
  induction ms as [ | m ms IH]; intros findings; cbn [scanMatches].
  - rewrite firstn_nil. cbn [map]. now rewrite app_nil_r.
  - rewrite countFor_app, countFor_findingAt.
    destruct (Nat.leb_spec 10 (countFor rel findings + 1)) as [Hfull | Hroom].
    + replace (Nat.max 1 (10 - countFor rel findings)) with 1 by lia.
      reflexivity.
    + rewrite IH, countFor_app, countFor_findingAt, <- app_assoc.
      replace (Nat.max 1 (10 - countFor rel findings))
        with (S (Nat.max 1 (10 - (countFor rel findings + 1)))) by lia.
      reflexivity.
Qed.

(** A detector adds at most ten findings to a file, and at most one once
    the file has ten. *)
Lemma scanMatches_adds (rel content : string) (lines : list string)
  (p : SecurityPattern) (ms : list nat) (findings : list SecurityFinding) :
  let c := countFor rel findings in
  let c' := countFor rel (scanMatches rel content lines p ms findings) in
  c' = c + Nat.min (List.length ms) (Nat.max 1 (10 - c)).
Proof.
  cbv zeta. rewrite scanMatches_closed, countFor_app, countFor_findings.
  rewrite length_firstn. lia.
Qed.

(** The first detector that matches in a fresh file is capped at ten. *)
Lemma first_detector_is_capped (rel content : string) (lines : list string)
  (p : SecurityPattern) (ms : list nat) (findings : list SecurityFinding) :
  countFor rel findings = 0 -> 10 <= List.length ms ->
  countFor rel (scanMatches rel content lines p ms findings) = 10.
Proof.
  intros H0 Hms.
  pose proof (scanMatches_adds rel content lines p ms findings) as H.
  cbv zeta in H. rewrite H, H0. simpl. lia.
Qed.

(** The loop over the registry: every detector after the file reached ten
    findings can still add one, so the bound on a file is nine more than
    the number of detectors. *)
Lemma scanFile_bound (patterns : list SecurityPattern)
  (rel content : string) :
  forall findings,
    countFor rel (scanFile patterns rel content findings)
    <= Nat.max 10 (countFor rel findings + 1)
       + (List.length patterns - 1)
    /\ countFor rel findings
       <= countFor rel (scanFile patterns rel content findings).
Proof.
  unfold scanFile.
  induction patterns as [ | p ps IH]; intros findings;
    cbn [fold_left List.length].
  - split; lia.
  - specialize (IH (scanMatches rel content (Str.split "010" content) p
                      (exec p content) findings)).
    pose proof (scanMatches_adds rel content (Str.split "010" content) p
                  (exec p content) findings) as H.
    cbv zeta in H. rewrite H in IH.
    destruct ps as [ | q qs].
    + cbn [fold_left List.length] in *. rewrite H. lia.
    + cbn [List.length] in *. lia.
Qed.

(** C4, at the failing input.  A script with eleven calls of [eval] and one
    use of [md5]: the [break] leaves the loop of [eval_usage] at ten
    findings, the loop over the detectors goes on, and [weak_crypto] adds
    an eleventh finding for the same file. *)
Theorem scan_exceeds_ten_per_file :
  let findings :=
    scanSecurity literalPatterns (oneFile "src/run.js" evalScript)
      ["src/run.js"] in
  countFor "src/run.js" findings = 11
  /\ countPair "src/run.js" "eval_usage" findings = 10
  /\ countPair "src/run.js" "weak_crypto" findings = 1.
Proof. vm_compute. repeat split. Qed.

(** A detector with eleven matches that is not the first to match gets
    what is left of the ten. *)
Lemma later_detector_gets_the_rest :
  let findings :=
    scanSecurity literalPatterns (oneFile "src/run.js" mixedScript)
      ["src/run.js"] in
  countPair "src/run.js" "eval_usage" findings = 3
  /\ countPair "src/run.js" "weak_crypto" findings = 7.
Proof. vm_compute. repeat split. Qed.

End ScannerFacts.

(* ================================================================== *)
(** * Facts: the model invocation *)
(* ================================================================== *)

Module ProviderFacts.
Import Provider.
Local Open Scope string_scope.
Local Open Scope list_scope.
Import ProviderSpec.

Lemma callAnthropic_once (sys usr : string) (config : LLMConfig)
  (maxTokens : N) (remote : Remote) :
  let i := anthropicRequest sys usr config maxTokens in
  snd (callAnthropic sys usr config maxTokens remote) = [i]
  /\ (forall e, messagesCreate remote i = inr e ->
        fst (callAnthropic sys usr config maxTokens remote) = inr e).
Proof.
  cbv zeta. unfold callAnthropic, bind, awaitMessagesCreate.
  destruct (messagesCreate remote _) as [content | e].
  - split; [ | discriminate].
    destruct (find isText content) as [[text | ] | ]; reflexivity.
  - split; [reflexivity | ]. intros e' H; now inversion H.
Qed.

Lemma callGemini_once (sys usr : string) (config : LLMConfig)
  (maxTokens : N) (remote : Remote) :
  let i := geminiRequest sys usr config maxTokens in
  snd (callGemini sys usr config maxTokens remote) = [i]
  /\ (forall e, generateContent remote i = inr e ->
        fst (callGemini sys usr config maxTokens remote) = inr e).
Proof.
  cbv zeta. unfold callGemini, bind, awaitGenerateContent.
  destruct (generateContent remote _) as [text | e].
  - split; [ | discriminate].
    destruct text as [text | ];
      [destruct (String.eqb text EmptyString) | ]; reflexivity.
  - split; [reflexivity | ]. intros e' H; now inversion H.
Qed.

Lemma callLLM_singleShot (sys usr : string) (config : LLMConfig)
  (maxTokens : N) :
  singleShot (callLLM sys usr config maxTokens).
Proof.
  intros remote. unfold callLLM.
  destruct (provider config).
  - destruct (callAnthropic_once sys usr config maxTokens remote)
      as [Hlog Hrej].
    rewrite Hlog. repeat split.
    + simpl; lia.
    + constructor; [now split | constructor].
    + intros j e [Hj | []] Hr. subst j. apply Hrej.
      unfold rejection in Hr. cbn [target anthropicRequest] in Hr.
      destruct (messagesCreate remote _); congruence.
  - destruct (callGemini_once sys usr config maxTokens remote)
      as [Hlog Hrej].
    rewrite Hlog. repeat split.
    + simpl; lia.
    + constructor; [now split | constructor].
    + intros j e [Hj | []] Hr. subst j. apply Hrej.
      unfold rejection in Hr. cbn [target geminiRequest] in Hr.
      destruct (generateContent remote _); congruence.
Qed.

(** Going on after the call with a step that invokes nothing keeps the
    computation single-shot. *)
Lemma singleShot_then_pure {A B : Type} (m : Async A)
  (k : A -> Async B) :
  singleShot m -> (forall a remote, snd (k a remote) = []) ->
  singleShot (bind m k).
Proof.
  intros Hm Hk remote. destruct (Hm remote) as [Hlen [Hall Hrej]].
  unfold bind. destruct (m remote) as [[a | e] log] eqn:E; cbn [fst snd] in *.
  - specialize (Hk a remote). destruct (k a remote) as [r log'].
    cbn [snd] in Hk. subst log'. rewrite app_nil_r. cbn [fst snd].
    split; [exact Hlen | split; [exact Hall | ]].
    intros i e Hin Hr. specialize (Hrej i e Hin Hr). discriminate.
  - split; [exact Hlen | split; [exact Hall | ]].
    intros i e' Hin Hr. specialize (Hrej i e' Hin Hr). now inversion Hrej.
Qed.

Lemma ret_singleShot {A : Type} (a : A) : singleShot (ret a).
Proof.
  intros remote. cbn. repeat split; [lia | constructor | intros i e []].
Qed.

End ProviderFacts.

(* ================================================================== *)
(** * Facts: the generator's use of the model *)
(* ================================================================== *)

Module GeneratorFacts.
Import Provider Generator ProviderSpec ProviderFacts.
Local Open Scope string_scope.
Local Open Scope list_scope.

Lemma parseOrThrow_silent (response : string) (remote : Remote) :
  snd (parseOrThrow response remote) = [].
Proof.
  unfold parseOrThrow.
  destruct (parseThreatsResponse (Json.ofString response)); reflexivity.
Qed.

Lemma generateThreats_singleShot (P : Prompts) (config : option LLMConfig)
  (analysis : Repo.RepoAnalysis) (fw : Framework) :
  singleShot (generateThreats P config analysis fw).
Proof.
  destruct config as [c | ]; cbn [generateThreats].
  - apply singleShot_then_pure;
      [apply callLLM_singleShot | apply parseOrThrow_silent].
  - apply ret_singleShot.
Qed.

Lemma generateThreatsFromDocument_singleShot (P : Prompts)
  (config : option LLMConfig) (content docName : string) (fw : Framework) :
  singleShot (generateThreatsFromDocument P config content docName fw).
Proof.
  destruct config as [c | ]; cbn [generateThreatsFromDocument].
  - apply singleShot_then_pure;
      [apply callLLM_singleShot | apply parseOrThrow_silent].
  - apply ret_singleShot.
Qed.

(** C9, as the code has it.  A threat generation invokes the model at most
    once; the invocation is given neither a deadline nor a retry bound;
    and a rejected invocation (timeout, rate limit, server error or any
    other) is the outcome of the generation at once: nothing is retried,
    so nothing is retried indefinitely. *)
Theorem model_is_invoked_once_without_deadline
  (P : Prompts) (config : option LLMConfig) (analysis : Repo.RepoAnalysis)
  (content docName : string) (fw : Framework) :
  singleShot (generateThreats P config analysis fw)
  /\ singleShot (generateThreatsFromDocument P config content docName fw).
Proof.
  split.
  - apply generateThreats_singleShot.
  - apply generateThreatsFromDocument_singleShot.
Qed.

(** C9, as the claim words it, fails: the invocation that a generation
    makes carries no timeout (here the remote model times out, and the run
    ends with that failure after its single attempt). *)
Lemma invocation_carries_no_timeout :
  let run :=
    generateThreats plainPrompts (Some anthropicConfig) sampleAnalysis
      STRIDE timingOut in
  forallb carriesTimeout (snd run) = false
  /\ List.length (snd run) = 1
  /\ fst run = inr {| kind := TimedOut; message := "Request timed out." |}.
Proof. vm_compute. repeat split. Qed.

End GeneratorFacts.

(* ================================================================== *)
(** * Facts: the response parser and its recovery *)
(* ================================================================== *)

Unset Implicit Arguments.

Module RecoveryFacts.
Import Json Generator.
Local Open Scope char_scope.
Local Open Scope list_scope.
Local Open Scope Z_scope.
Import RecoverySpec.

Lemma scanFrom_app (a b : text) :
  forall st i,
    scanFrom st i (a ++ b)
    = scanFrom (scanFrom st i a) (i + Z.of_nat (List.length a)) b.
Proof.
  induction a as [ | c a IH]; intros st i; cbn [app scanFrom List.length].
  - f_equal. lia.
  - rewrite IH. f_equal. lia.
Qed.

Lemma Safe_nil (d l : Z) (st : ScanState) (i : Z) :
  safe d l st -> Safe d l st i [].
Proof.
  intros H p q E. symmetry in E. apply app_eq_nil in E.
  destruct E; subst. exact H.
Qed.

Lemma Safe_cons (d l : Z) (st : ScanState) (i : Z) (c : ascii) (u : text) :
  safe d l st -> Safe d l (scanStep st i c) (i + 1) u ->
  Safe d l st i (c :: u).
Proof.
  intros H Hu p q E. destruct p as [ | c' p]; [exact H | ].
  inversion E; subst. cbn [scanFrom]. now apply Hu with (q := q).
Qed.

Lemma Safe_app (d l : Z) (st : ScanState) (i : Z) (a b : text) :
  Safe d l st i a ->
  Safe d l (scanFrom st i a) (i + Z.of_nat (List.length a)) b ->
  Safe d l st i (a ++ b).
Proof.
  intros Ha Hb p q E. apply app_eq_app in E.
  destruct E as [t [[E1 E2] | [E1 E2]]].
  - subst a. now apply Ha with (q := t).
  - subst p. rewrite scanFrom_app. now apply Hb with (q := q).
Qed.

Lemma safe_start (d l : Z) (s e : bool) : safe d l (mk d s e l).
Proof. split; cbn; [lia | reflexivity]. Qed.

Lemma quiet_nil : quiet [].
Proof.
  intros d l i. split.
  - exists l. split; reflexivity.
  - apply Safe_nil, safe_start.
Qed.

Lemma quiet_app (a b : text) : quiet a -> quiet b -> quiet (a ++ b).
Proof.
  intros Ha Hb d l i.
  destruct (Ha d l i) as [[la [Ea Hla]] Sa].
  destruct (Hb d la (i + Z.of_nat (List.length a))) as [[lb [Eb Hlb]] Sb].
  split.
  - exists lb. rewrite scanFrom_app, Ea. split; [exact Eb | ].
    intros Hd. rewrite (Hlb Hd). exact (Hla Hd).
  - apply Safe_app; [exact Sa | ]. rewrite Ea.
    intros p q E. destruct (Sb p q E) as [H1 H2].
    split; [exact H1 | ]. intros Hd. rewrite (H2 Hd). exact (Hla Hd).
Qed.

Lemma special_false (c : ascii) :
  special c = false ->
  Ascii.eqb c "\" = false /\ Ascii.eqb c dquote = false
  /\ Ascii.eqb c "[" = false /\ Ascii.eqb c "{" = false
  /\ Ascii.eqb c "]" = false /\ Ascii.eqb c "}" = false.
Proof.
  unfold special. intros H.
  repeat (apply orb_false_elim in H; destruct H as [H ?]).
  repeat split; assumption.
Qed.

Lemma scanStep_plain (d l i : Z) (c : ascii) :
  special c = false ->
  scanStep (mk d false false l) i c = mk d false false l.
Proof.
  intros H. apply special_false in H.
  destruct H as [H1 [H2 [H3 [H4 [H5 H6]]]]].
  unfold scanStep, mk; cbn [escape inString depth lastCompleteObjectEnd].
  now rewrite H1, H2, H3, H4, H5, H6.
Qed.

Lemma quiet_plain (u : text) :
  Forall (fun c => special c = false) u -> quiet u.
Proof.
  intros H. induction H as [ | c u Hc _ IH]; [apply quiet_nil | ].
  intros d l i. destruct (IH d l (i + 1)) as [[l' [E Hl]] S].
  split.
  - exists l'. cbn [scanFrom]. rewrite (scanStep_plain d l i c Hc).
    split; assumption.
  - apply Safe_cons; [apply safe_start | ].
    rewrite (scanStep_plain d l i c Hc). exact S.
Qed.


Lemma safe_weaken (d l : Z) (st : ScanState) :
  safe (d + 1) l st -> safe d l st.
Proof. intros [H1 H2]. split; [lia | intros Hd; apply H2; lia]. Qed.

Lemma Safe_weaken (d l : Z) (st : ScanState) (i : Z) (u : text) :
  Safe (d + 1) l st i u -> Safe d l st i u.
Proof. intros H p q E. apply safe_weaken. now apply H with (q := q). Qed.

Lemma scanStep_open (d l i : Z) (c : ascii) :
  c = "[" \/ c = "{" ->
  scanStep (mk d false false l) i c = mk (d + 1) false false l.
Proof. intros [H | H]; subst c; reflexivity. Qed.

Lemma scanStep_close (d l i : Z) (c : ascii) :
  c = "]" \/ c = "}" ->
  scanStep (mk (d + 1) false false l) i c
  = mk d false false
      (if (d =? 1) && Ascii.eqb c "}" then i else l).
Proof.
  intros [H | H]; subst c; unfold scanStep, mk;
    cbn [escape inString depth lastCompleteObjectEnd Ascii.eqb Bool.eqb orb];
    replace (d + 1 - 1) with d by lia; reflexivity.
Qed.

(** A quiet text between brackets or braces is quiet. *)
Lemma quiet_wrap (o c : ascii) (body : text) :
  (o = "[" /\ c = "]") \/ (o = "{" /\ c = "}") ->
  quiet body -> quiet (o :: body ++ [c]).
Proof.
  intros Hoc Hb d l i.
  assert (Ho : o = "[" \/ o = "{") by (destruct Hoc as [[? ?] | [? ?]]; auto).
  assert (Hc : c = "]" \/ c = "}") by (destruct Hoc as [[? ?] | [? ?]]; auto).
  destruct (Hb (d + 1) l (i + 1)) as [[l' [E Hl]] S].
  assert (Hl' : 2 <= d -> l' = l) by (intros; apply Hl; lia).
  split.
  - cbn [scanFrom]. rewrite (scanStep_open d l i o Ho), scanFrom_app, E.
    cbn [scanFrom]. rewrite (scanStep_close d l' _ c Hc).
    eexists. split; [reflexivity | ].
    intros Hd. replace (d =? 1) with false by (symmetry; apply Z.eqb_neq; lia).
    cbn. now apply Hl'.
  - apply Safe_cons; [apply safe_start | ].
    rewrite (scanStep_open d l i o Ho).
    apply Safe_app; [now apply Safe_weaken | ].
    rewrite E. apply Safe_cons.
    + split; cbn; [lia | exact Hl'].
    + rewrite (scanStep_close d l' _ c Hc). apply Safe_nil.
      split; cbn; [lia | ].
      intros Hd. replace (d =? 1) with false by (symmetry; apply Z.eqb_neq; lia).
      cbn. now apply Hl'.
Qed.

(** ** String literals *)

Lemma scanStep_in_plain (d l i : Z) (c : ascii) :
  Ascii.eqb c "\" = false -> Ascii.eqb c dquote = false ->
  scanStep (mk d true false l) i c = mk d true false l.
Proof.
  intros H1 H2. unfold scanStep, mk;
    cbn [escape inString depth lastCompleteObjectEnd].
  now rewrite H1, H2.
Qed.

Lemma scanStep_in_backslash (d l i : Z) :
  scanStep (mk d true false l) i "\" = mk d true true l.
Proof. reflexivity. Qed.

Lemma scanStep_escaped (d l i : Z) (c : ascii) :
  scanStep (mk d true true l) i c = mk d true false l.
Proof. reflexivity. Qed.

Lemma scanStep_in_quote (d l i : Z) :
  scanStep (mk d true false l) i dquote = mk d false false l.
Proof. reflexivity. Qed.

Lemma closesString_quote : closesString [dquote].
Proof.
  intros d l i. split; [reflexivity | ].
  apply Safe_cons; [apply safe_start | ]. apply Safe_nil.
  rewrite scanStep_in_quote. apply safe_start.
Qed.

Lemma closesString_plain (c : ascii) (u : text) :
  Ascii.eqb c "\" = false -> Ascii.eqb c dquote = false ->
  closesString u -> closesString (c :: u).
Proof.
  intros H1 H2 Hu d l i. destruct (Hu d l (i + 1)) as [E S].
  cbn [scanFrom]. split.
  - now rewrite (scanStep_in_plain d l i c H1 H2).
  - apply Safe_cons; [apply safe_start | ].
    now rewrite (scanStep_in_plain d l i c H1 H2).
Qed.

Lemma closesString_escape (e : ascii) (u : text) :
  closesString u -> closesString ("\" :: e :: u).
Proof.
  intros Hu d l i. destruct (Hu d l (i + 1 + 1)) as [E S].
  cbn [scanFrom]. rewrite scanStep_in_backslash, scanStep_escaped.
  split; [exact E | ].
  apply Safe_cons; [apply safe_start | ]. rewrite scanStep_in_backslash.
  apply Safe_cons; [apply safe_start | ]. rewrite scanStep_escaped.
  exact S.
Qed.

Lemma hexOf_plain (c : ascii) (z : Z) :
  hexOf c = Some z ->
  Ascii.eqb c "\" = false /\ Ascii.eqb c dquote = false.
Proof.
  intros H. split.
  - destruct (Ascii.eqb c "\") eqn:E; [ | reflexivity].
    apply Ascii.eqb_eq in E. subst c. discriminate H.
  - destruct (Ascii.eqb c dquote) eqn:E; [ | reflexivity].
    apply Ascii.eqb_eq in E. subst c. discriminate H.
Qed.

Lemma parseString_closes (n : nat) :
  forall (s acc str r : text),
    (List.length s <= n)%nat ->
    parseString s acc = Some (str, r) ->
    exists u, s = u ++ r /\ closesString u.
Proof.
  induction n as [ | n IH]; intros s acc str r Hn H.
  - destruct s; [discriminate H | cbn in Hn; lia].
  - destruct s as [ | c s]; [discriminate H | ].
    cbn [parseString] in H. cbn [List.length] in Hn.
    destruct (Ascii.eqb c dquote) eqn:Eq.
    { apply Ascii.eqb_eq in Eq. subst c. inversion H; subst.
      exists [dquote]. split; [reflexivity | apply closesString_quote]. }
    destruct (Ascii.eqb c "\") eqn:Eb.
    { apply Ascii.eqb_eq in Eb. subst c.
      destruct s as [ | e s]; [discriminate H | ].
      cbn [List.length] in Hn.
      assert (Hrec : forall acc',
                 parseString s acc' = Some (str, r) ->
                 exists u, "\" :: e :: s = u ++ r /\ closesString u).
      { intros acc' H'. destruct (IH s acc' str r ltac:(lia) H') as [u [E Hu]].
        exists ("\" :: e :: u). split; [now rewrite E | ].
        now apply closesString_escape. }
      repeat match type of H with
             | (if ?b then _ else _) = _ =>
                 destruct b eqn:?; [try (eapply Hrec; exact H) | ]
             end; try discriminate H.
      destruct s as [ | h1 [ | h2 [ | h3 [ | h4 s]]]]; try discriminate H.
      destruct (hexOf h1) as [a | ] eqn:E1; [ | discriminate H].
      destruct (hexOf h2) as [b | ] eqn:E2; [ | discriminate H].
      destruct (hexOf h3) as [c' | ] eqn:E3; [ | discriminate H].
      destruct (hexOf h4) as [d' | ] eqn:E4; [ | discriminate H].
      cbn [List.length] in Hn.
      destruct (IH s _ str r ltac:(lia) H) as [u [E Hu]].
      exists ("\" :: e :: h1 :: h2 :: h3 :: h4 :: u).
      split; [now rewrite E | ].
      apply closesString_escape.
      destruct (hexOf_plain h1 a E1), (hexOf_plain h2 b E2),
        (hexOf_plain h3 c' E3), (hexOf_plain h4 d' E4).
      repeat (apply closesString_plain; [assumption | assumption | ]).
      exact Hu. }
    destruct (nat_of_ascii c <? 32)%nat; [discriminate H | ].
    destruct (IH s _ str r ltac:(lia) H) as [u [E Hu]].
    exists (c :: u). split; [now rewrite E | ].
    now apply closesString_plain.
Qed.

(** A string literal, from its opening quote on, is quiet. *)
Lemma quiet_string (u : text) : closesString u -> quiet (dquote :: u).
Proof.
  intros Hu d l i. destruct (Hu d l (i + 1)) as [E S].
  assert (Hstep : scanStep (mk d false false l) i dquote = mk d true false l)
    by reflexivity.
  split.
  - exists l. cbn [scanFrom]. rewrite Hstep. split; [exact E | reflexivity].
  - apply Safe_cons; [apply safe_start | ]. now rewrite Hstep.
Qed.

(** ** Scalars and white space *)

Lemma isChar_eq (c : ascii) (s r : text) : isChar c s = Some r -> s = c :: r.
Proof.
  destruct s as [ | a s]; [discriminate | ]. cbn.
  destruct (Ascii.eqb a c) eqn:E; [ | discriminate].
  apply Ascii.eqb_eq in E. intros H; inversion H; now subst.
Qed.

Lemma stripPrefix_eq (p : text) :
  forall s r, stripPrefix p s = Some r -> s = p ++ r.
Proof.
  induction p as [ | a p IH]; intros s r H; cbn in H.
  - now inversion H.
  - destruct s as [ | c s]; [discriminate H | ].
    destruct (Ascii.eqb a c) eqn:E; [ | discriminate H].
    apply Ascii.eqb_eq in E. subst c. cbn. f_equal. now apply IH.
Qed.

Lemma isWs_plain (c : ascii) : isWs c = true -> special c = false.
Proof.
  unfold isWs. intros H.
  repeat (apply orb_true_iff in H; destruct H as [H | H]);
    apply Ascii.eqb_eq in H; subst c; reflexivity.
Qed.

Lemma skipWs_split (s : text) :
  exists ws, s = ws ++ skipWs s /\ plains ws /\ forallb isWs ws = true.
Proof.
  induction s as [ | c s [ws [E [Hp Hw]]]].
  - exists []. repeat split; constructor.
  - cbn [skipWs]. destruct (isWs c) eqn:Ec.
    + exists (c :: ws). cbn. rewrite Ec, Hw. split; [now f_equal | split].
      * constructor; [now apply isWs_plain | exact Hp].
      * reflexivity.
    + exists []. repeat split; constructor.
Qed.

Lemma digitOf_plain (c : ascii) (z : Z) :
  digitOf c = Some z -> special c = false.
Proof.
  intros H. destruct (special c) eqn:E; [ | reflexivity].
  unfold special in E.
  repeat (apply orb_true_iff in E; destruct E as [E | E]);
    apply Ascii.eqb_eq in E; subst c; discriminate H.
Qed.

Lemma takeDigits_split (s : text) :
  forall v k v' k' r,
    takeDigits s v k = (v', k', r) -> exists ds, s = ds ++ r /\ plains ds.
Proof.
  induction s as [ | c s IH]; intros v k v' k' r H; cbn in H.
  - inversion H; subst. exists []. split; [reflexivity | constructor].
  - destruct (digitOf c) as [dg | ] eqn:E.
    + destruct (IH _ _ _ _ _ H) as [ds [E' Hp]].
      exists (c :: ds). split; [cbn; now f_equal | ].
      constructor; [now apply digitOf_plain with (z := dg) | exact Hp].
    + inversion H; subst. exists []. split; [reflexivity | constructor].
Qed.

Lemma plains_app (a b : text) : plains a -> plains b -> plains (a ++ b).
Proof. intros Ha Hb. apply Forall_app. now split. Qed.

Lemma plains_char (c : ascii) : special c = false -> plains [c].
Proof. intros H. constructor; [exact H | constructor]. Qed.

Lemma parseExponent_split (m : Q) (neg : bool) (s : text) (q : Q) (r : text) :
  parseExponent m neg s = Some (q, r) -> exists u, s = u ++ r /\ plains u.
Proof.
  unfold parseExponent.
  destruct (takeDigits s 0 0) as [[e k] r'] eqn:E.
  destruct k; [discriminate | ]. intros H; inversion H; subst.
  now apply takeDigits_split in E.
Qed.

Lemma parseExp_split (m : Q) (s : text) (q : Q) (r : text) :
  parseExp m s = Some (q, r) -> exists u, s = u ++ r /\ plains u.
Proof.
  unfold parseExp. destruct s as [ | c s].
  - intros H; inversion H; subst. exists []. split; [reflexivity | constructor].
  - destruct (Ascii.eqb c "e" || Ascii.eqb c "E") eqn:Ee.
    + assert (Hc : special c = false).
      { apply orb_true_iff in Ee. destruct Ee as [E | E];
          apply Ascii.eqb_eq in E; subst c; reflexivity. }
      destruct (isChar "+" s) as [r2 | ] eqn:Ep.
      * apply isChar_eq in Ep. subst s. intros H.
        apply parseExponent_split in H. destruct H as [u [E Hu]].
        exists (c :: "+" :: u). split; [cbn; now rewrite E | ].
        constructor; [exact Hc | constructor; [reflexivity | exact Hu]].
      * destruct (isChar "-" s) as [r2 | ] eqn:Em.
        -- apply isChar_eq in Em. subst s. intros H.
           apply parseExponent_split in H. destruct H as [u [E Hu]].
           exists (c :: "-" :: u). split; [cbn; now rewrite E | ].
           constructor; [exact Hc | constructor; [reflexivity | exact Hu]].
        -- intros H. apply parseExponent_split in H.
           destruct H as [u [E Hu]].
           exists (c :: u). split; [cbn; now rewrite E | ].
           constructor; [exact Hc | exact Hu].
    + intros H; inversion H; subst.
      exists []. split; [reflexivity | constructor].
Qed.

Lemma parseFracExp_split (n : Z) (s : text) (q : Q) (r : text) :
  parseFracExp n s = Some (q, r) -> exists u, s = u ++ r /\ plains u.
Proof.
  unfold parseFracExp. destruct (isChar "." s) as [r1 | ] eqn:Ed.
  - apply isChar_eq in Ed. subst s.
    destruct (takeDigits r1 0 0) as [[f k] r'] eqn:E.
    destruct k; [discriminate | ]. intros H.
    apply parseExp_split in H. destruct H as [u [Eu Hu]].
    apply takeDigits_split in E. destruct E as [ds [Eds Hds]].
    exists ("." :: ds ++ u). split.
    + cbn. rewrite Eds, Eu, app_assoc. reflexivity.
    + constructor; [reflexivity | now apply plains_app].
  - apply parseExp_split.
Qed.

Lemma parseNumber_split (s : text) (n : JsNum.jsnum) (r : text) :
  parseNumber s = Some (n, r) -> exists u, s = u ++ r /\ plains u.
Proof.
  unfold parseNumber.
  assert (Hbody : forall s1 q,
             match isChar "0" s1 with
             | Some r0 => parseFracExp 0 r0
             | None =>
                 match takeDigits s1 0 0 with
                 | (_, O, _) => None
                 | (i, _, r0) => parseFracExp i r0
                 end
             end = Some (q, r) ->
             exists u, s1 = u ++ r /\ plains u).
  { intros s1 q H. destruct (isChar "0" s1) as [r0 | ] eqn:E0.
    - apply isChar_eq in E0. subst s1.
      apply parseFracExp_split in H. destruct H as [u [E Hu]].
      exists ("0" :: u). split; [cbn; now rewrite E | ].
      constructor; [reflexivity | exact Hu].
    - destruct (takeDigits s1 0 0) as [[i k] r0] eqn:E.
      destruct k; [discriminate H | ].
      apply parseFracExp_split in H. destruct H as [u [Eu Hu]].
      apply takeDigits_split in E. destruct E as [ds [Eds Hds]].
      exists (ds ++ u). split; [rewrite Eds, Eu, app_assoc; reflexivity | ].
      now apply plains_app. }
  destruct (isChar "-" s) as [r1 | ] eqn:Em.
  - apply isChar_eq in Em. subst s.
    match goal with
    | |- match ?x with _ => _ end = _ -> _ => destruct x as [[q r'] | ] eqn:E
    end; [ | discriminate].
    intros H; inversion H; subst.
    destruct (Hbody _ _ E) as [u [Eu Hu]].
    exists ("-" :: u). split; [cbn; now rewrite Eu | ].
    constructor; [reflexivity | exact Hu].
  - match goal with
    | |- match ?x with _ => _ end = _ -> _ => destruct x as [[q r'] | ] eqn:E
    end; [ | discriminate].
    intros H; inversion H; subst.
    exact (Hbody _ _ E).
Qed.

Lemma plains_quiet (u : text) : plains u -> quiet u.
Proof. apply quiet_plain. Qed.

Lemma parseScalar_quiet (s : text) (v : json) (r : text) :
  parseScalar s = Some (v, r) ->
  exists u, s = u ++ r /\ quiet u
            /\ (forall ms, v <> JObject ms).
Proof.
  unfold parseScalar. destruct (isChar dquote s) as [r1 | ] eqn:Eq.
  - apply isChar_eq in Eq. subst s.
    destruct (parseString r1 []) as [[str r'] | ] eqn:E; [ | discriminate].
    intros H; inversion H; subst.
    destruct (parseString_closes (List.length r1) r1 [] str r (Nat.le_refl _) E)
      as [u [Eu Hu]].
    exists (dquote :: u). split; [cbn; now rewrite Eu | ].
    split; [now apply quiet_string | discriminate].
  - destruct (stripPrefix ["t"; "r"; "u"; "e"] s) as [r1 | ] eqn:Et.
    { apply stripPrefix_eq in Et. intros H; inversion H; subst.
      eexists. split; [reflexivity | split; [ | discriminate]].
      apply plains_quiet. repeat constructor. }
    destruct (stripPrefix ["f"; "a"; "l"; "s"; "e"] s) as [r1 | ] eqn:Ef.
    { apply stripPrefix_eq in Ef. intros H; inversion H; subst.
      eexists. split; [reflexivity | split; [ | discriminate]].
      apply plains_quiet. repeat constructor. }
    destruct (stripPrefix ["n"; "u"; "l"; "l"] s) as [r1 | ] eqn:En.
    { apply stripPrefix_eq in En. intros H; inversion H; subst.
      eexists. split; [reflexivity | split; [ | discriminate]].
      apply plains_quiet. repeat constructor. }
    destruct (parseNumber s) as [[n r'] | ] eqn:E; [ | discriminate].
    intros H; inversion H; subst.
    apply parseNumber_split in E. destruct E as [u [Eu Hu]].
    exists u. split; [exact Eu | split; [now apply plains_quiet | discriminate]].
Qed.

(** ** Values *)

Lemma quiet_cons (c : ascii) (u : text) :
  special c = false -> quiet u -> quiet (c :: u).
Proof.
  intros Hc Hu. change (c :: u) with ([c] ++ u).
  apply quiet_app; [ | exact Hu]. apply plains_quiet, plains_char, Hc.
Qed.

Ltac text_eq :=
  subst;
  repeat (first [rewrite <- app_assoc | rewrite <- app_comm_cons]);
  reflexivity.

Lemma parse_quiet (fuel : nat) :
  (forall s v r,
      parseValue fuel s = Some (v, r) ->
      exists u, s = u ++ r /\ quiet u /\ objectShape v u)
  /\ (forall s acc v r,
         parseElements fuel s acc = Some (v, r) ->
         exists body, s = body ++ "]" :: r /\ quiet body
                      /\ (forall ms, v <> JObject ms))
  /\ (forall s acc v r,
         parseMembers fuel s acc = Some (v, r) ->
         exists body, s = body ++ "}" :: r /\ quiet body).
Proof.
  induction fuel as [ | fuel [IHv [IHe IHm]]].
  { repeat split; intros; discriminate. }
  split; [ | split].
  - (* parseValue *)
    intros s v r H. cbn [parseValue] in H.
    destruct (skipWs_split s) as [ws [Es [Hws _]]].
    destruct (isChar "{" (skipWs s)) as [r1 | ] eqn:Eo.
    { apply isChar_eq in Eo. rewrite Eo in Es.
      destruct (skipWs_split r1) as [ws1 [E1 [Hws1 _]]].
      destruct (isChar "}" (skipWs r1)) as [r' | ] eqn:Ec.
      - apply isChar_eq in Ec. rewrite Ec in E1.
        inversion H; subst v r'.
        exists (ws ++ "{" :: ws1 ++ ["}"]).
        split; [text_eq | split].
        + apply quiet_app; [now apply plains_quiet | ].
          apply quiet_wrap; [now right | now apply plains_quiet].
        + intros ms _. exists ws, ws1.
          split; [reflexivity | split; [exact Hws | now apply plains_quiet]].
      - destruct (IHm _ _ _ _ H) as [body [Eb Hb]].
        exists (ws ++ "{" :: body ++ ["}"]).
        split; [text_eq | split].
        + apply quiet_app; [now apply plains_quiet | ].
          apply quiet_wrap; [now right | exact Hb].
        + intros ms _. exists ws, body.
          split; [reflexivity | split; assumption]. }
    destruct (isChar "[" (skipWs s)) as [r1 | ] eqn:Ea.
    { apply isChar_eq in Ea. rewrite Ea in Es.
      destruct (skipWs_split r1) as [ws1 [E1 [Hws1 _]]].
      destruct (isChar "]" (skipWs r1)) as [r' | ] eqn:Ec.
      - apply isChar_eq in Ec. rewrite Ec in E1.
        inversion H; subst v r'.
        exists (ws ++ "[" :: ws1 ++ ["]"]).
        split; [text_eq | split].
        + apply quiet_app; [now apply plains_quiet | ].
          apply quiet_wrap; [now left | now apply plains_quiet].
        + intros ms Hms. discriminate Hms.
      - destruct (IHe _ _ _ _ H) as [body [Eb [Hb Hv]]].
        exists (ws ++ "[" :: body ++ ["]"]).
        split; [text_eq | split].
        + apply quiet_app; [now apply plains_quiet | ].
          apply quiet_wrap; [now left | exact Hb].
        + intros ms Hms. now elim (Hv ms). }
    destruct (parseScalar_quiet _ _ _ H) as [u [Eu [Hu Hv]]].
    exists (ws ++ u). split; [rewrite Es, Eu; text_eq | split].
    + apply quiet_app; [now apply plains_quiet | exact Hu].
    + intros ms Hms. now elim (Hv ms).
  - (* parseElements *)
    intros s acc v r H. cbn [parseElements] in H.
    destruct (parseValue fuel s) as [[v1 r1] | ] eqn:Ev; [ | discriminate H].
    destruct (IHv _ _ _ Ev) as [u1 [E1 [Hu1 _]]].
    destruct (skipWs_split r1) as [ws1 [Ew [Hws1 _]]].
    destruct (isChar "," (skipWs r1)) as [r2 | ] eqn:Ec.
    { apply isChar_eq in Ec. rewrite Ec in Ew.
      destruct (IHe _ _ _ _ H) as [body [Eb [Hb Hv]]].
      exists (u1 ++ ws1 ++ "," :: body).
      split; [text_eq | split; [ | exact Hv]].
      apply quiet_app; [exact Hu1 | ].
      apply quiet_app; [now apply plains_quiet | ].
      apply quiet_cons; [reflexivity | exact Hb]. }
    destruct (isChar "]" (skipWs r1)) as [r2 | ] eqn:Ed; [ | discriminate H].
    apply isChar_eq in Ed. rewrite Ed in Ew.
    inversion H; subst v r2.
    exists (u1 ++ ws1). split; [text_eq | split; [ | discriminate]].
    apply quiet_app; [exact Hu1 | now apply plains_quiet].
  - (* parseMembers *)
    intros s acc v r H. cbn [parseMembers] in H.
    destruct (skipWs_split s) as [ws [Es [Hws _]]].
    destruct (isChar dquote (skipWs s)) as [r1 | ] eqn:Eq; [ | discriminate H].
    apply isChar_eq in Eq. rewrite Eq in Es.
    destruct (parseString r1 []) as [[key r2] | ] eqn:Ek; [ | discriminate H].
    destruct (parseString_closes (List.length r1) r1 [] key r2
                (Nat.le_refl _) Ek) as [uk [Euk Huk]].
    destruct (skipWs_split r2) as [ws2 [E2 [Hws2 _]]].
    destruct (isChar ":" (skipWs r2)) as [r3 | ] eqn:Ec; [ | discriminate H].
    apply isChar_eq in Ec. rewrite Ec in E2.
    destruct (parseValue fuel r3) as [[v1 r4] | ] eqn:Ev; [ | discriminate H].
    destruct (IHv _ _ _ Ev) as [uv [E3 [Huv _]]].
    destruct (skipWs_split r4) as [ws4 [E4 [Hws4 _]]].
    assert (Hmember : quiet (ws ++ dquote :: uk ++ ws2 ++ ":" :: uv ++ ws4)).
    { apply quiet_app; [now apply plains_quiet | ].
      change (dquote :: uk ++ ws2 ++ ":" :: uv ++ ws4)
        with ((dquote :: uk) ++ ws2 ++ ":" :: uv ++ ws4).
      apply quiet_app; [now apply quiet_string | ].
      apply quiet_app; [now apply plains_quiet | ].
      apply quiet_cons; [reflexivity | ].
      apply quiet_app; [exact Huv | now apply plains_quiet]. }
    destruct (isChar "," (skipWs r4)) as [r5 | ] eqn:Em.
    { apply isChar_eq in Em. rewrite Em in E4.
      destruct (IHm _ _ _ _ H) as [body [Eb Hb]].
      exists ((ws ++ dquote :: uk ++ ws2 ++ ":" :: uv ++ ws4) ++ "," :: body).
      split; [text_eq | ].
      apply quiet_app; [exact Hmember | ].
      apply quiet_cons; [reflexivity | exact Hb]. }
    destruct (isChar "}" (skipWs r4)) as [r5 | ] eqn:En; [ | discriminate H].
    apply isChar_eq in En. rewrite En in E4.
    inversion H; subst v r5.
    exists (ws ++ dquote :: uk ++ ws2 ++ ":" :: uv ++ ws4).
    split; [text_eq | exact Hmember].
Qed.

(** ** Truncated array texts *)

Lemma elementText_shape (o : text) :
  elementText o ->
  exists ws body, o = ws ++ "{" :: body ++ ["}"]
                  /\ plains ws /\ quiet body.
Proof.
  intros [fuel [ms H]].
  destruct (proj1 (parse_quiet fuel) _ _ _ H) as [u [E [_ Hshape]]].
  rewrite app_nil_r in E. subst u. exact (Hshape ms eq_refl).
Qed.

Lemma scanFrom_plains (u : text) :
  plains u -> forall st i,
    inString st = false -> escape st = false -> scanFrom st i u = st.
Proof.
  induction 1 as [ | c u Hc _ IH]; intros st i Hs He; [reflexivity | ].
  cbn [scanFrom]. destruct st as [d s e l]. cbn in Hs, He. subst s e.
  change {| depth := d; inString := false; escape := false;
            lastCompleteObjectEnd := l |} with (mk d false false l).
  rewrite (scanStep_plain d l i c Hc). now apply IH.
Qed.

Lemma plains_prefix (p t : text) : plains (p ++ t) -> plains p.
Proof. intros H. apply Forall_app in H. tauto. Qed.

Lemma strict_prefix (A : Type) (p rest x : list A) (c : A) :
  p ++ rest = x ++ [c] -> rest <> [] -> exists t, x = p ++ t.
Proof.
  intros E Hr. apply app_eq_app in E.
  destruct E as [y [[E1 E2] | [E1 E2]]].
  - destruct y as [ | a y].
    + rewrite app_nil_r in E1. subst. cbn in E2. subst rest.
      exists []. now rewrite app_nil_r.
    + inversion E2 as [[Ea Ey]].
      symmetry in Ey. apply app_eq_nil in Ey. destruct Ey as [_ Ey].
      now elim Hr.
  - now exists y.
Qed.

(** Before the closing brace of an element, the scan that stands in the
    array stays inside it and records nothing. *)
Lemma inside_element (ws body p t : text) (l : Z) :
  plains ws -> quiet body -> ws ++ "{" :: body = p ++ t ->
  forall i,
    1 <= depth (scanFrom (mk 1 false false l) i p)
    /\ lastCompleteObjectEnd (scanFrom (mk 1 false false l) i p) = l.
Proof.
  intros Hws Hb E i. symmetry in E. apply app_eq_app in E.
  destruct E as [x [[E1 E2] | [E1 E2]]].
  - subst p. rewrite scanFrom_app, (scanFrom_plains _ Hws) by reflexivity.
    destruct x as [ | c x]; [cbn; split; [lia | reflexivity] | ].
    inversion E2; subst c. cbn [scanFrom].
    rewrite (scanStep_open 1 l _ "{") by now right.
    destruct (Hb (1 + 1) l (i + Z.of_nat (List.length ws) + 1)) as [_ S].
    destruct (S x t H1) as [Hd Hl].
    split; [lia | apply Hl; lia].
  - (* p ends inside the white space *)
    rewrite scanFrom_plains; [cbn; split; [lia | reflexivity] | | | ];
      try reflexivity.
    subst ws. now apply plains_prefix in Hws.
Qed.

(** The same for a text that is cut before the end of an element. *)
Lemma inside_cut_element (partial rest p t : text) (l i : Z) :
  elementText (partial ++ rest) -> rest <> [] -> partial = p ++ t ->
  1 <= depth (scanFrom (mk 1 false false l) i p)
  /\ lastCompleteObjectEnd (scanFrom (mk 1 false false l) i p) = l.
Proof.
  intros Ho Hr Ep.
  destruct (elementText_shape _ Ho) as [ws [body [E [Hws Hb]]]].
  change (ws ++ "{" :: body ++ ["}"]) with (ws ++ ("{" :: body) ++ ["}"]) in E.
  rewrite app_assoc in E.
  destruct (strict_prefix _ _ _ _ _ E Hr) as [t' Et].
  apply inside_element with (ws := ws) (body := body) (t := t ++ t');
    try assumption.
  rewrite Et, Ep, <- app_assoc. reflexivity.
Qed.

(** The scan of an array text that stops before the end of its first
    element. *)
Lemma scan_truncated_first (partial rest p t : text) :
  elementText (partial ++ rest) -> rest <> [] -> partial = p ++ t ->
  1 <= depth (scanFrom initialScan 0 ("[" :: p))
  /\ lastCompleteObjectEnd (scanFrom initialScan 0 ("[" :: p)) = -1.
Proof.
  intros Ho Hr Ep. cbn [scanFrom].
  change (scanStep initialScan 0 "[") with (mk 1 false false (-1)).
  now apply inside_cut_element with (partial := partial) (rest := rest) (t := t).
Qed.

(** No budget makes [JSON.parse] accept such a text. *)
Lemma parse_truncated_first (partial rest p t : text) (fuel : nat) :
  elementText (partial ++ rest) -> rest <> [] -> partial = p ++ t ->
  parseWith fuel ("[" :: p) = None.
Proof.
  intros Ho Hr Ep. unfold parseWith.
  destruct (parseValue fuel ("[" :: p)) as [[v r] | ] eqn:E; [ | reflexivity].
  destruct (skipWs r) eqn:Er; [ | reflexivity]. exfalso.
  destruct (proj1 (parse_quiet fuel) _ _ _ E) as [u [Eu [Hu _]]].
  destruct (skipWs_split r) as [ws [Ews [Hws _]]].
  rewrite Er, app_nil_r in Ews. subst ws.
  destruct (scan_truncated_first partial rest p t Ho Hr Ep) as [Hd _].
  rewrite Eu, scanFrom_app in Hd.
  destruct (Hu 0 (-1) 0) as [[l' [Escan _]] _].
  change initialScan with (mk 0 false false (-1)) in Hd.
  rewrite Escan, (scanFrom_plains _ Hws) in Hd by reflexivity.
  cbn in Hd. lia.
Qed.

Lemma repair_truncated_first (partial rest p t : text) :
  elementText (partial ++ rest) -> rest <> [] -> partial = p ++ t ->
  repairTruncatedJsonArray ("[" :: p) = None.
Proof.
  intros Ho Hr Ep. unfold repairTruncatedJsonArray.
  destruct (scan_truncated_first partial rest p t Ho Hr Ep) as [_ Hl].
  rewrite Hl. reflexivity.
Qed.

(** ** The slice of a truncated response *)

Lemma isSpace2_wide (a b : ascii) :
  Str.isSpace2 a b = true ->
  (128 <= nat_of_ascii a /\ 128 <= nat_of_ascii b)%nat.
Proof.
  unfold Str.isSpace2. rewrite andb_true_iff, !Nat.eqb_eq. lia.
Qed.

Lemma isSpace3_wide (a b c : ascii) :
  Str.isSpace3 a b c = true ->
  (128 <= nat_of_ascii a /\ 128 <= nat_of_ascii b
   /\ 128 <= nat_of_ascii c)%nat.
Proof.
  unfold Str.isSpace3. cbv zeta.
  rewrite !orb_true_iff, !andb_true_iff, !orb_true_iff, !andb_true_iff,
    !Nat.eqb_eq, !Nat.leb_le.
  lia.
Qed.

Lemma trimStartChars_split (n : nat) :
  forall s : text,
    (List.length s <= n)%nat ->
    exists a, s = a ++ Str.trimStartChars s /\ spaces a.
Proof.
  induction n as [ | n IH]; intros s Hn.
  - destruct s; [ | cbn in Hn; lia]. exists []. split; [reflexivity | constructor].
  - destruct s as [ | c1 r1]; [exists []; split; [reflexivity | constructor] | ].
    cbn [Str.trimStartChars]. cbn [List.length] in Hn.
    destruct (Str.isSpace c1) eqn:E1.
    { destruct (IH r1) as [a [E Ha]]; [lia | ].
      exists (c1 :: a). split; [cbn; now f_equal | ].
      constructor; [now left | exact Ha]. }
    destruct r1 as [ | c2 r2]; [exists []; split; [reflexivity | constructor] | ].
    cbn [List.length] in Hn.
    destruct (Str.isSpace2 c1 c2) eqn:E2.
    { destruct (IH r2) as [a [E Ha]]; [lia | ].
      apply isSpace2_wide in E2.
      exists (c1 :: c2 :: a). split; [cbn; now do 2 f_equal | ].
      constructor; [right; lia | ]. constructor; [right; lia | exact Ha]. }
    destruct r2 as [ | c3 r3]; [exists []; split; [reflexivity | constructor] | ].
    cbn [List.length] in Hn.
    destruct (Str.isSpace3 c1 c2 c3) eqn:E3.
    { destruct (IH r3) as [a [E Ha]]; [lia | ].
      apply isSpace3_wide in E3.
      exists (c1 :: c2 :: c3 :: a). split; [cbn; now do 3 f_equal | ].
      constructor; [right; lia | ]. constructor; [right; lia | ].
      constructor; [right; lia | exact Ha]. }
    exists []. split; [reflexivity | constructor].
Qed.

Lemma trimEndReversed_split (n : nat) :
  forall s : text,
    (List.length s <= n)%nat ->
    exists a, s = a ++ Str.trimEndReversed s /\ spaces a.
Proof.
  induction n as [ | n IH]; intros s Hn.
  - destruct s; [ | cbn in Hn; lia]. exists []. split; [reflexivity | constructor].
  - destruct s as [ | c1 r1]; [exists []; split; [reflexivity | constructor] | ].
    cbn [Str.trimEndReversed]. cbn [List.length] in Hn.
    destruct (Str.isSpace c1) eqn:E1.
    { destruct (IH r1) as [a [E Ha]]; [lia | ].
      exists (c1 :: a). split; [cbn; now f_equal | ].
      constructor; [now left | exact Ha]. }
    destruct r1 as [ | c2 r2]; [exists []; split; [reflexivity | constructor] | ].
    cbn [List.length] in Hn.
    destruct (Str.isSpace2 c2 c1) eqn:E2.
    { destruct (IH r2) as [a [E Ha]]; [lia | ].
      apply isSpace2_wide in E2.
      exists (c1 :: c2 :: a). split; [cbn; now do 2 f_equal | ].
      constructor; [right; lia | ]. constructor; [right; lia | exact Ha]. }
    destruct r2 as [ | c3 r3]; [exists []; split; [reflexivity | constructor] | ].
    cbn [List.length] in Hn.
    destruct (Str.isSpace3 c3 c2 c1) eqn:E3.
    { destruct (IH r3) as [a [E Ha]]; [lia | ].
      apply isSpace3_wide in E3.
      exists (c1 :: c2 :: c3 :: a). split; [cbn; now do 3 f_equal | ].
      constructor; [right; lia | ]. constructor; [right; lia | ].
      constructor; [right; lia | exact Ha]. }
    exists []. split; [reflexivity | constructor].
Qed.

Lemma trimStart_split (s : text) :
  exists a, s = a ++ Generator.trimStart s /\ spaces a.
Proof. apply (trimStartChars_split (List.length s)). lia. Qed.

Lemma trim_split (s : text) :
  exists a b, s = a ++ trim s ++ b /\ spaces a /\ spaces b.
Proof.
  unfold trim, Str.trimChars. destruct (trimStart_split s) as [a [Ea Ha]].
  destruct (trimEndReversed_split (List.length (rev (Str.trimStartChars s)))
              (rev (Str.trimStartChars s))) as [b [Eb Hb]]; [lia | ].
  exists a, (rev b). split; [ | split; [exact Ha | now apply Forall_rev]].
  rewrite <- rev_app_distr, <- Eb, rev_involutive. exact Ea.
Qed.

Lemma bracketFree_app (a b : text) :
  bracketFree (a ++ b) = bracketFree a && bracketFree b.
Proof. apply forallb_app. Qed.

Lemma spaces_no_open (u : text) : spaces u -> ~ In "[" u.
Proof.
  intros H Hin. unfold spaces in H. rewrite Forall_forall in H.
  specialize (H _ Hin). destruct H as [H | H]; [discriminate H | ].
  cbn in H. lia.
Qed.

(** The trimmed text of [pre ++ "[" :: partial] still has the bracket,
    after the end of [pre] and before a beginning of [partial]. *)
Lemma trim_around_bracket (pre partial : text) :
  exists pre0 pre' partial' b,
    trim (pre ++ "[" :: partial) = pre' ++ "[" :: partial'
    /\ pre = pre0 ++ pre' /\ partial = partial' ++ b.
Proof.
  destruct (trim_split (pre ++ "[" :: partial)) as [a [b [E [Ha Hb]]]].
  set (j := trim (pre ++ "[" :: partial)) in *.
  apply app_eq_app in E.
  assert (E' : exists pre', pre = a ++ pre' /\ j ++ b = pre' ++ "[" :: partial).
  { destruct E as [l [[E1 E2] | [E1 E2]]].
    - exists l. split; [exact E1 | exact E2].
    - destruct l as [ | c l].
      + exists []. rewrite app_nil_r in E1. subst a. split.
        * now rewrite app_nil_r.
        * cbn in E2. now rewrite E2.
      + inversion E2; subst c. exfalso.
        apply (spaces_no_open _ Ha). rewrite E1. apply in_or_app. right.
        now left. }
  destruct E' as [pre' [Epre Ej]].
  change (pre' ++ "[" :: partial) with (pre' ++ ["["] ++ partial) in Ej.
  rewrite app_assoc in Ej. apply app_eq_app in Ej.
  destruct Ej as [l [[E1 E2] | [E1 E2]]].
  - exists a, pre', l, b. split; [ | split; assumption].
    rewrite E1, <- app_assoc. reflexivity.
  - destruct l as [ | c l].
    + rewrite app_nil_r in E1. cbn in E2. subst b.
      exists a, pre', [], partial. split; [ | split; [assumption | reflexivity]].
      now rewrite <- E1.
    + exfalso. apply (spaces_no_open _ Hb). rewrite E2.
      apply in_or_app. left.
      destruct (@exists_last _ (c :: l) ltac:(discriminate)) as [m [z Em]].
      rewrite Em in E1 |- *. rewrite app_assoc in E1.
      apply app_inj_tail in E1. destruct E1 as [_ Ez]. subst z.
      apply in_or_app. right. now left.
Qed.

Local Open Scope nat_scope.

Lemma indexOf_bracket (pre x : text) :
  bracketFree pre = true ->
  indexOf ["["] (pre ++ "[" :: x) = Some (List.length pre).
Proof.
  induction pre as [ | c pre IH]; intros H; [reflexivity | ].
  cbn in H. apply andb_true_iff in H. destruct H as [Hc Hpre].
  apply andb_true_iff in Hc. destruct Hc as [Hc _].
  apply negb_true_iff in Hc. rewrite Ascii.eqb_sym in Hc.
  cbn [app indexOf stripPrefix]. rewrite Hc, (IH Hpre). reflexivity.
Qed.

Lemma lastIndexOf_app (c : ascii) (a b : text) :
  forall i acc,
    lastIndexOf c (a ++ b) i acc
    = lastIndexOf c b (i + List.length a) (lastIndexOf c a i acc).
Proof.
  induction a as [ | x a IH]; intros i acc; cbn [app lastIndexOf List.length].
  - now rewrite Nat.add_0_r.
  - rewrite IH. f_equal. lia.
Qed.

Lemma lastIndexOf_free (u : text) :
  bracketFree u = true ->
  forall i acc, lastIndexOf "]" u i acc = acc.
Proof.
  induction u as [ | c u IH]; intros H i acc; [reflexivity | ].
  cbn in H. apply andb_true_iff in H. destruct H as [Hc Hu].
  apply andb_true_iff in Hc. destruct Hc as [_ Hc].
  apply negb_true_iff in Hc.
  cbn [lastIndexOf]. rewrite Hc. now apply IH.
Qed.

Lemma lastIndexOf_ge (c : ascii) (s : text) :
  forall i acc e,
    lastIndexOf c s i acc = Some e -> acc = Some e \/ i <= e.
Proof.
  induction s as [ | x s IH]; intros i acc e H; cbn [lastIndexOf] in H.
  - now left.
  - apply IH in H. destruct H as [H | H]; [ | right; lia].
    destruct (Ascii.eqb x c); [inversion H; right; lia | now left].
Qed.

(** Steps (1) and (2) on a response whose array is cut: the slice starts
    at the bracket and ends inside what follows it. *)
Lemma arraySlice_truncated (pre partial : text) :
  bracketFree pre = true ->
  fencedBlock (trim (pre ++ "[" :: partial)) = None ->
  exists p t, arraySlice (pre ++ "[" :: partial) = "[" :: p
              /\ partial = p ++ t.
Proof.
  intros Hpre Hfence. unfold arraySlice. rewrite Hfence.
  destruct (trim_around_bracket pre partial)
    as [pre0 [pre' [partial' [b [Ej [Epre Epartial]]]]]].
  rewrite Ej.
  assert (Hpre' : bracketFree pre' = true).
  { rewrite Epre, bracketFree_app in Hpre.
    apply andb_true_iff in Hpre. tauto. }
  rewrite (indexOf_bracket pre' partial' Hpre').
  change (pre' ++ "[" :: partial') with (pre' ++ ["["] ++ partial') at 1.
  rewrite !lastIndexOf_app, (lastIndexOf_free pre' Hpre').
  cbn [lastIndexOf List.length Ascii.eqb Bool.eqb].
  destruct (lastIndexOf "]" partial' (0 + List.length pre' + 1) None)
    as [e | ] eqn:Ee.
  - apply lastIndexOf_ge in Ee. destruct Ee as [Ee | Ee]; [discriminate Ee | ].
    unfold substring.
    rewrite Nat.min_l, Nat.max_r by lia.
    rewrite skipn_app, skipn_all, Nat.sub_diag. cbn [app skipn].
    replace (e + 1 - List.length pre') with (S (e - List.length pre')) by lia.
    cbn [firstn].
    exists (firstn (e - List.length pre') partial'),
      (skipn (e - List.length pre') partial' ++ b).
    split; [reflexivity | ].
    now rewrite app_assoc, firstn_skipn.
  - rewrite skipn_app, skipn_all, Nat.sub_diag. cbn [app skipn].
    exists partial', b. split; [reflexivity | exact Epartial].
Qed.

(** C6, as the code has it.  When the array of a response is cut before
    the end of its first element (after any text without brackets, and
    with no complete fenced block), neither the direct parse nor the
    recovery finds an element: the recovery gives up and the parser throws;
    it does not return an empty list. *)
Theorem truncated_before_first_element_throws (pre partial rest : text) :
  bracketFree pre = true ->
  fencedBlock (trim (pre ++ "[" :: partial)) = None ->
  elementText (partial ++ rest) -> rest <> [] ->
  repairTruncatedJsonArray (arraySlice (pre ++ "[" :: partial)) = None
  /\ parsedArray (pre ++ "[" :: partial)
     = Throws "Failed to parse threat model response"
  /\ parseThreatsResponse (pre ++ "[" :: partial)
     = Throws "Failed to parse threat model response".
Proof.
  intros Hpre Hfence Ho Hr.
  destruct (arraySlice_truncated pre partial Hpre Hfence) as [p [t [Es Ep]]].
  unfold parseThreatsResponse, parsedArray. rewrite Es.
  unfold parseArray, JSON_parse.
  rewrite (parse_truncated_first partial rest p t _ Ho Hr Ep).
  rewrite (repair_truncated_first partial rest p t Ho Hr Ep).
  repeat split.
Qed.

(** The amended C6 on an answer that opens a fenced block and is cut
    inside the title of its first threat. *)
Lemma truncated_before_first_element_witness :
  let response := js "```json " ++ "[" :: js "{'title':'Inj" in
  repairTruncatedJsonArray (arraySlice response) = None
  /\ parsedArray response = Throws "Failed to parse threat model response"
  /\ parseThreatsResponse response
     = Throws "Failed to parse threat model response".
Proof.
  cbv zeta.
  apply (truncated_before_first_element_throws
           (js "```json ") (js "{'title':'Inj") (js "ection'}")).
  - vm_compute. reflexivity.
  - vm_compute. reflexivity.
  - exists 10%nat. eexists. vm_compute. reflexivity.
  - intros H. vm_compute in H. discriminate H.
Defined.

(** C6, as the claim words it, fails: on an array cut inside its first
    element, and on one cut right after its bracket, the parser throws
    where the claim has it return no threats. *)
Lemma cut_first_element_is_an_error :
  parseThreatsResponse (js "[{'title':'Inj")
  = Throws "Failed to parse threat model response"
  /\ parseThreatsResponse (js "[")
     = Throws "Failed to parse threat model response"
  /\ parseThreatsResponse (js "[{'title':'Inj") <> Returns [].
Proof.
  split; [ | split]; try (vm_compute; reflexivity).
  vm_compute. discriminate.
Qed.

(** ** The repair step on a cut array text *)

Local Open Scope Z_scope.

Lemma elementText_quiet (e : text) : elementText e -> quiet e.
Proof.
  intros [fuel [ms H]].
  destruct (proj1 (parse_quiet fuel) _ _ _ H) as [u [E [Hu _]]].
  rewrite app_nil_r in E. now subst u.
Qed.

Lemma joinElements_quiet (chunks : list (text * text)) :
  Forall wellFormedChunk chunks -> quiet (joinElements chunks).
Proof.
  induction 1 as [ | [e sep] chunks [He Hs] _ IH]; [apply quiet_nil | ].
  cbn [joinElements]. cbn [fst snd] in He, Hs.
  apply quiet_app; [now apply elementText_quiet | ].
  apply quiet_app; [now apply plains_quiet | exact IH].
Qed.

(** A complete element met in the array is recorded at its closing
    brace. *)
Lemma scan_element (e : text) (l i : Z) :
  elementText e ->
  scanFrom (mk 1 false false l) i e
  = mk 1 false false (i + Z.of_nat (List.length e) - 1).
Proof.
  intros He. destruct (elementText_shape _ He) as [ws [body [E [Hws Hb]]]].
  subst e. rewrite scanFrom_app, (scanFrom_plains _ Hws) by reflexivity.
  cbn [scanFrom]. rewrite (scanStep_open 1 l _ "{") by now right.
  rewrite scanFrom_app.
  destruct (Hb (1 + 1) l (i + Z.of_nat (List.length ws) + 1))
    as [[l' [Eb Hl]] _].
  rewrite Eb, (Hl ltac:(lia)). cbn [scanFrom].
  rewrite (scanStep_close 1 l _ "}") by now right.
  cbn [Z.eqb Ascii.eqb Bool.eqb andb Pos.eqb]. f_equal.
  rewrite !length_app. cbn [List.length]. rewrite length_app.
  cbn [List.length]. lia.
Qed.

(** The recovery step proper.  On an array text that holds complete
    elements and is cut before the end of the next one, it returns the
    text up to the closing brace of the last complete element, closed by a
    bracket. *)
Lemma repair_keeps_complete_elements
  (front : list (text * text)) (e sep partial rest : text) :
  Forall wellFormedChunk front -> elementText e -> plains sep ->
  elementText (partial ++ rest) -> rest <> [] ->
  repairTruncatedJsonArray
    ("[" :: joinElements front ++ e ++ sep ++ partial)
  = Some ("[" :: joinElements front ++ e ++ ["]"]).
Proof.
  intros Hfront He Hsep Ho Hr. unfold repairTruncatedJsonArray.
  set (n := List.length ("[" :: joinElements front ++ e)).
  assert (Hscan :
            lastCompleteObjectEnd
              (scanFrom initialScan 0
                 ("[" :: joinElements front ++ e ++ sep ++ partial))
            = Z.of_nat n - 1).
  { cbn [scanFrom].
    change (scanStep initialScan 0 "[") with (mk 1 false false (-1)).
    rewrite scanFrom_app.
    destruct (joinElements_quiet _ Hfront 1 (-1) (0 + 1)) as [[l' [Ef _]] _].
    rewrite Ef, scanFrom_app, (scan_element e l' _ He).
    rewrite scanFrom_app, (scanFrom_plains _ Hsep) by reflexivity.
    destruct (inside_cut_element partial rest partial [] 
                (0 + 1 + Z.of_nat (List.length (joinElements front))
                 + Z.of_nat (List.length e) - 1)
                (0 + 1 + Z.of_nat (List.length (joinElements front))
                 + Z.of_nat (List.length e) + Z.of_nat (List.length sep))
                Ho Hr) as [_ Hl]; [now rewrite app_nil_r | ].
    rewrite Hl. unfold n. cbn [List.length]. rewrite length_app. lia. }
  rewrite Hscan.
  assert (Hn : (1 <= n)%nat) by (unfold n; cbn; lia).
  replace (0 <? Z.of_nat n - 1) with true.
  2: { symmetry. apply Z.ltb_lt. unfold n. cbn [List.length].
       rewrite length_app.
       destruct (elementText_shape _ He) as [ws [body [E _]]].
       rewrite E, length_app. cbn [List.length]. lia. }
  replace (Z.to_nat (Z.of_nat n - 1 + 1)) with n by lia.
  assert (Et : "[" :: joinElements front ++ e ++ sep ++ partial
               = ("[" :: joinElements front ++ e) ++ sep ++ partial).
  { cbn [app]. now rewrite <- app_assoc. }
  rewrite Et. unfold n.
  rewrite firstn_app, firstn_all, Nat.sub_diag. cbn [firstn].
  rewrite app_nil_r. cbn [app]. now rewrite <- app_assoc.
Qed.

(** ** The budget of [JSON_parse] *)

Local Open Scope nat_scope.

Lemma skipWs_length (s : text) : List.length (skipWs s) <= List.length s.
Proof.
  destruct (skipWs_split s) as [ws [E _]].
  rewrite E at 2. rewrite length_app. lia.
Qed.

Lemma takeDigits_count (s : text) :
  forall v k v' k' r,
    takeDigits s v k = (v', k', r) ->
    List.length s + k = List.length r + k'.
Proof.
  induction s as [ | c s IH]; intros v k v' k' r H; cbn in H.
  - inversion H; subst. reflexivity.
  - destruct (digitOf c).
    + apply IH in H. cbn [List.length]. lia.
    + inversion H; subst. reflexivity.
Qed.

Lemma split_length (s u r : text) :
  s = u ++ r -> List.length r <= List.length s.
Proof. intros E. rewrite E, length_app. lia. Qed.

Lemma parseNumber_shorter (s : text) (n : JsNum.jsnum) (r : text) :
  parseNumber s = Some (n, r) -> List.length r < List.length s.
Proof.
  unfold parseNumber.
  assert (Hbody : forall s1 q,
             match isChar "0" s1 with
             | Some r0 => parseFracExp 0 r0
             | None =>
                 match takeDigits s1 0 0 with
                 | (_, O, _) => None
                 | (i, _, r0) => parseFracExp i r0
                 end
             end = Some (q, r) ->
             List.length r < List.length s1).
  { intros s1 q H. destruct (isChar "0" s1) as [r0 | ] eqn:E0.
    - apply isChar_eq in E0. subst s1.
      apply parseFracExp_split in H. destruct H as [u [E _]].
      apply split_length in E. cbn [List.length]. lia.
    - destruct (takeDigits s1 0 0) as [[i k] r0] eqn:E.
      destruct k; [discriminate H | ].
      apply parseFracExp_split in H. destruct H as [u [Eu _]].
      apply split_length in Eu. apply takeDigits_count in E. lia. }
  destruct (isChar "-" s) as [r1 | ] eqn:Em.
  - apply isChar_eq in Em. subst s.
    match goal with
    | |- match ?x with _ => _ end = _ -> _ => destruct x as [[q r'] | ] eqn:E
    end; [ | discriminate].
    intros H; inversion H; subst.
    apply Hbody in E. cbn [List.length]. lia.
  - match goal with
    | |- match ?x with _ => _ end = _ -> _ => destruct x as [[q r'] | ] eqn:E
    end; [ | discriminate].
    intros H; inversion H; subst. exact (Hbody _ _ E).
Qed.

Lemma parseScalar_shorter (s : text) (v : json) (r : text) :
  parseScalar s = Some (v, r) -> List.length r < List.length s.
Proof.
  unfold parseScalar. destruct (isChar dquote s) as [r1 | ] eqn:Eq.
  - apply isChar_eq in Eq. subst s.
    destruct (parseString r1 []) as [[str r'] | ] eqn:E; [ | discriminate].
    intros H; inversion H; subst.
    destruct (parseString_closes (List.length r1) r1 [] str r (Nat.le_refl _) E)
      as [u [Eu _]].
    apply split_length in Eu. cbn [List.length]. lia.
  - destruct (stripPrefix ["t"; "r"; "u"; "e"] s) as [r1 | ] eqn:Et.
    { apply stripPrefix_eq in Et. intros H; inversion H; subst.
      cbn [app List.length]. lia. }
    destruct (stripPrefix ["f"; "a"; "l"; "s"; "e"] s) as [r1 | ] eqn:Ef.
    { apply stripPrefix_eq in Ef. intros H; inversion H; subst.
      cbn [app List.length]. lia. }
    destruct (stripPrefix ["n"; "u"; "l"; "l"] s) as [r1 | ] eqn:En.
    { apply stripPrefix_eq in En. intros H; inversion H; subst.
      cbn [app List.length]. lia. }
    destruct (parseNumber s) as [[n r'] | ] eqn:E; [ | discriminate].
    intros H; inversion H; subst. now apply parseNumber_shorter in E.
Qed.

(** A value takes at least one character. *)
Lemma parseValue_shorter (fuel : nat) (s : text) (v : json) (r : text) :
  parseValue fuel s = Some (v, r) -> List.length r < List.length s.
Proof.
  destruct fuel as [ | fuel]; [discriminate | ].
  cbn [parseValue]. pose proof (skipWs_length s) as Hws.
  destruct (isChar "{" (skipWs s)) as [r1 | ] eqn:Eo.
  { apply isChar_eq in Eo. rewrite Eo in Hws. cbn [List.length] in Hws.
    pose proof (skipWs_length r1) as Hws1.
    destruct (isChar "}" (skipWs r1)) as [r' | ] eqn:Ec.
    - apply isChar_eq in Ec. rewrite Ec in Hws1. cbn [List.length] in Hws1.
      intros H; inversion H; subst. lia.
    - intros H. destruct (proj2 (proj2 (parse_quiet fuel)) _ _ _ _ H)
        as [body [Eb _]].
      apply split_length in Eb. cbn [List.length] in Eb. lia. }
  destruct (isChar "[" (skipWs s)) as [r1 | ] eqn:Ea.
  { apply isChar_eq in Ea. rewrite Ea in Hws. cbn [List.length] in Hws.
    pose proof (skipWs_length r1) as Hws1.
    destruct (isChar "]" (skipWs r1)) as [r' | ] eqn:Ec.
    - apply isChar_eq in Ec. rewrite Ec in Hws1. cbn [List.length] in Hws1.
      intros H; inversion H; subst. lia.
    - intros H. destruct (proj1 (proj2 (parse_quiet fuel)) _ _ _ _ H)
        as [body [Eb _]].
      apply split_length in Eb. cbn [List.length] in Eb. lia. }
  intros H. apply parseScalar_shorter in H. lia.
Qed.

(** What some budget parses, every budget from twice the length on
    parses to the same result. *)
Lemma parse_budget (n : nat) :
  (forall s res,
      parseValue n s = Some res ->
      forall m, 2 * List.length s + 1 <= m -> parseValue m s = Some res)
  /\ (forall s acc res,
         parseElements n s acc = Some res ->
         forall m, 2 * List.length s + 2 <= m ->
                   parseElements m s acc = Some res)
  /\ (forall s acc res,
         parseMembers n s acc = Some res ->
         forall m, 2 * List.length s + 2 <= m ->
                   parseMembers m s acc = Some res).
Proof.
  induction n as [ | n [IHv [IHe IHm]]].
  { repeat split; intros; discriminate. }
  split; [ | split].
  - intros s res H m Hm. destruct m as [ | m]; [lia | ].
    cbn [parseValue] in H |- *. pose proof (skipWs_length s) as Hws.
    destruct (isChar "{" (skipWs s)) as [r1 | ] eqn:Eo.
    { pose proof (isChar_eq _ _ _ Eo) as E1. rewrite E1 in Hws.
      cbn [List.length] in Hws.
      destruct (isChar "}" (skipWs r1)); [exact H | ].
      apply (IHm _ _ _ H). lia. }
    destruct (isChar "[" (skipWs s)) as [r1 | ] eqn:Ea.
    { pose proof (isChar_eq _ _ _ Ea) as E1. rewrite E1 in Hws.
      cbn [List.length] in Hws.
      destruct (isChar "]" (skipWs r1)); [exact H | ].
      apply (IHe _ _ _ H). lia. }
    exact H.
  - intros s acc res H m Hm. destruct m as [ | m]; [lia | ].
    cbn [parseElements] in H |- *.
    destruct (parseValue n s) as [[v1 r1] | ] eqn:Ev; [ | discriminate H].
    rewrite (IHv _ _ Ev m) by lia.
    apply parseValue_shorter in Ev. pose proof (skipWs_length r1) as Hws.
    destruct (isChar "," (skipWs r1)) as [r2 | ] eqn:Ec; [ | exact H].
    apply isChar_eq in Ec. rewrite Ec in Hws. cbn [List.length] in Hws.
    apply (IHe _ _ _ H). lia.
  - intros s acc res H m Hm. destruct m as [ | m]; [lia | ].
    cbn [parseMembers] in H |- *. pose proof (skipWs_length s) as Hws.
    destruct (isChar dquote (skipWs s)) as [r1 | ] eqn:Eq; [ | discriminate H].
    apply isChar_eq in Eq. rewrite Eq in Hws. cbn [List.length] in Hws.
    destruct (parseString r1 []) as [[key r2] | ] eqn:Ek; [ | discriminate H].
    destruct (parseString_closes (List.length r1) r1 [] key r2
                (Nat.le_refl _) Ek) as [uk [Euk _]].
    apply split_length in Euk. pose proof (skipWs_length r2) as Hws2.
    destruct (isChar ":" (skipWs r2)) as [r3 | ] eqn:Ec; [ | discriminate H].
    apply isChar_eq in Ec. rewrite Ec in Hws2. cbn [List.length] in Hws2.
    destruct (parseValue n r3) as [[v1 r4] | ] eqn:Ev; [ | discriminate H].
    rewrite (IHv _ _ Ev m) by lia.
    apply parseValue_shorter in Ev. pose proof (skipWs_length r4) as Hws4.
    destruct (isChar "," (skipWs r4)) as [r5 | ] eqn:Em; [ | exact H].
    apply isChar_eq in Em. rewrite Em in Hws4. cbn [List.length] in Hws4.
    apply (IHm _ _ _ H). lia.
Qed.

(** The budget of [JSON_parse] is never what makes it fail: a text that
    some budget parses, [JSON_parse] parses to the same value. *)
Lemma JSON_parse_budget (fuel : nat) (s : text) (v : json) :
  parseWith fuel s = Some v -> JSON_parse s = Some v.
Proof.
  unfold JSON_parse, parseWith.
  destruct (parseValue fuel s) as [[v' r] | ] eqn:E; [ | discriminate].
  rewrite (proj1 (parse_budget fuel) _ _ E (2 * List.length s + 2)) by lia.
  trivial.
Qed.

(** ** The parser on a cut array text *)

(** C5, at the failing input.  The answer holds two complete threats and
    is cut inside the title of the third.  Step (2) slices up to the last
    closing bracket of the text, which closes [impactedAssets] of the
    second threat, so the slice ends before that threat's closing brace:
    the recovery keeps one element, where the recovery step on the text
    from the opening bracket to the end keeps both. *)
Theorem recovery_after_slicing_loses_an_element :
  arraySlice cutAfterTwo
  = js ("[{'title':'A','impactedAssets':['db']},"
        ++ "{'title':'B','impactedAssets':['api']")
  /\ parsedLength (parsedArray cutAfterTwo) = Some 1%nat
  /\ option_map parsedLength
       (option_map parsedOf (repairTruncatedJsonArray cutAfterTwo))
     = Some (Some 2%nat).
Proof. vm_compute. repeat split. Qed.

(** A bracket inside a string of the only complete element makes the
    parser throw, where one element was complete. *)
Lemma bracket_in_string_breaks_recovery :
  parsedArray cutAfterBracketInString
  = Throws "Failed to parse threat model response"
  /\ option_map parsedLength
       (option_map parsedOf
          (repairTruncatedJsonArray cutAfterBracketInString))
     = Some (Some 1%nat).
Proof. vm_compute. repeat split. Qed.

End RecoveryFacts.

(* ================================================================== *)
(** * Facts: ratings *)
(* ================================================================== *)

Module RatingFacts.
Import JsNum RiskEngine RiskEngineFacts RiskEngineSpec RatingSpec.
Local Open Scope list_scope.

Lemma nullish_factor (v : option jsnum) :
  v <> Some NaN -> is_factor (clamp (nullish v (ofZ 5))).
Proof.
  intros H. destruct v as [v | ]; cbn.
  - apply clamp_in_range. congruence.
  - exists 5%Z. split; [lia | reflexivity].
Qed.

Lemma default_factor : is_factor (ofZ 5).
Proof. exists 5%Z. split; [lia | reflexivity]. Qed.

Lemma validateLikelihood_factors (raw : option PartialLikelihood) :
  numeric (givenLikelihood raw) ->
  Forall is_factor (likelihoodFactors (validateLikelihood raw)).
Proof.
  destruct raw as [raw | ]; intros H.
  - unfold numeric, givenLikelihood in H.
    repeat match goal with
           | H : Forall _ (_ :: _) |- _ => inversion H; clear H; subst
           end.
    unfold likelihoodFactors, validateLikelihood.
    cbn [skillLevel motive opportunity size easeOfDiscovery easeOfExploit
         awareness intrusionDetection defaultLikelihood].
    repeat constructor; now apply nullish_factor.
  - repeat constructor; apply default_factor.
Qed.

Lemma validateImpact_factors (raw : option PartialImpact) :
  numeric (givenImpact raw) ->
  Forall is_factor (impactFactors (validateImpact raw)).
Proof.
  destruct raw as [raw | ]; intros H.
  - unfold numeric, givenImpact in H.
    repeat match goal with
           | H : Forall _ (_ :: _) |- _ => inversion H; clear H; subst
           end.
    unfold impactFactors, validateImpact.
    cbn [confidentiality integrity availability accountability
         defaultImpact].
    repeat constructor; now apply nullish_factor.
  - repeat constructor; apply default_factor.
Qed.

Lemma add_ofZ (a b : Z) : add (ofZ a) (ofZ b) = ofZ (a + b).
Proof. unfold add, ofZ. now rewrite inject_Z_plus. Qed.

Lemma likelihood_mean (l : OwaspLikelihood) :
  Forall is_factor (likelihoodFactors l) ->
  exists s, (0 <= s <= 72)%Z /\ rawLikelihoodScore l = Fin (mean s 8).
Proof.
  destruct l as [a b c d e f g h]. unfold likelihoodFactors;
    cbn [skillLevel motive opportunity size easeOfDiscovery easeOfExploit
         awareness intrusionDetection].
  intros H.
  repeat match goal with
         | H : Forall _ (_ :: _) |- _ => inversion H; clear H; subst
         | H : is_factor _ |- _ => destruct H as [? [? ?]]; subst
         end.
  unfold rawLikelihoodScore;
    cbn [skillLevel motive opportunity size easeOfDiscovery easeOfExploit
         awareness intrusionDetection].
  rewrite !add_ofZ. eexists. split; [ | reflexivity]. lia.
Qed.

Lemma impact_mean (i : OwaspImpact) :
  Forall is_factor (impactFactors i) ->
  exists s, (0 <= s <= 36)%Z /\ rawImpactScore i = Fin (mean s 4).
Proof.
  destruct i as [a b c d]. unfold impactFactors;
    cbn [confidentiality integrity availability accountability].
  intros H.
  repeat match goal with
         | H : Forall _ (_ :: _) |- _ => inversion H; clear H; subst
         | H : is_factor _ |- _ => destruct H as [? [? ?]]; subst
         end.
  unfold rawImpactScore;
    cbn [confidentiality integrity availability accountability].
  rewrite !add_ofZ. eexists. split; [ | reflexivity]. lia.
Qed.

(** A property of the integers below [n], checked on each of them. *)
Lemma range_check (P : Z -> bool) (n : nat) :
  forallb P (map Z.of_nat (seq 0 n)) = true ->
  forall s, (0 <= s < Z.of_nat n)%Z -> P s = true.
Proof.
  intros H s Hs. rewrite forallb_forall in H. apply H.
  apply in_map_iff. exists (Z.to_nat s). split; [lia | ].
  apply in_seq. lia.
Qed.

Lemma RiskLevel_eqb_eq (a b : RiskLevel) : RiskLevel_eqb a b = true -> a = b.
Proof. destruct a, b; simpl; congruence. Qed.

Lemma level_of_rounded (d : positive) (n : nat) :
  forallb (fun s => RiskLevel_eqb (getLevel (round2 (Fin (mean s d))))
                                  (getLevel (Fin (mean s d))))
          (map Z.of_nat (seq 0 n)) = true ->
  forall s, (0 <= s < Z.of_nat n)%Z ->
    getLevel (round2 (Fin (mean s d))) = getLevel (Fin (mean s d)).
Proof.
  intros H s Hs. apply RiskLevel_eqb_eq.
  exact (range_check _ n H s Hs).
Qed.


Lemma betweenb_between (lo hi : Z) (v : jsnum) :
  betweenb lo hi v = true -> between lo hi v.
Proof.
  unfold betweenb, between. destruct v; try discriminate;
    intros H; apply andb_prop in H; destruct H as [H1 H2];
    apply negb_true_iff in H1, H2; repeat split; try discriminate; assumption.
Qed.

Lemma scores_checked :
  forallb (fun s => RiskLevel_eqb (getLevel (round2 (Fin (mean s 8))))
                                  (getLevel (Fin (mean s 8)))
                    && betweenb 0 9 (round2 (Fin (mean s 8))))
          (map Z.of_nat (seq 0 73)) = true
  /\ forallb (fun s => RiskLevel_eqb (getLevel (round2 (Fin (mean s 4))))
                                     (getLevel (Fin (mean s 4)))
                       && betweenb 0 9 (round2 (Fin (mean s 4))))
             (map Z.of_nat (seq 0 37)) = true
  /\ forallb (fun s1 =>
                forallb (fun s2 => betweenb 0 81 (overall s1 s2))
                        (map Z.of_nat (seq 0 37)))
             (map Z.of_nat (seq 0 73)) = true.
Proof. split; [ | split]; vm_compute; reflexivity. Qed.

Lemma rounded_likelihood (s : Z) :
  (0 <= s <= 72)%Z ->
  getLevel (round2 (Fin (mean s 8))) = getLevel (Fin (mean s 8))
  /\ between 0 9 (round2 (Fin (mean s 8))).
Proof.
  intros Hs. destruct scores_checked as [H _].
  pose proof (range_check _ 73 H s ltac:(lia)) as Hc. cbv beta in Hc.
  apply andb_prop in Hc. destruct Hc as [H1 H2].
  split; [now apply RiskLevel_eqb_eq | now apply betweenb_between].
Qed.

Lemma rounded_impact (s : Z) :
  (0 <= s <= 36)%Z ->
  getLevel (round2 (Fin (mean s 4))) = getLevel (Fin (mean s 4))
  /\ between 0 9 (round2 (Fin (mean s 4))).
Proof.
  intros Hs. destruct scores_checked as [_ [H _]].
  pose proof (range_check _ 37 H s ltac:(lia)) as Hc. cbv beta in Hc.
  apply andb_prop in Hc. destruct Hc as [H1 H2].
  split; [now apply RiskLevel_eqb_eq | now apply betweenb_between].
Qed.

Lemma overall_bounded (s1 s2 : Z) :
  (0 <= s1 <= 72)%Z -> (0 <= s2 <= 36)%Z -> between 0 81 (overall s1 s2).
Proof.
  intros H1 H2. destruct scores_checked as [_ [_ H]].
  pose proof (range_check _ 73 H s1 ltac:(lia)) as Hc. cbv beta in Hc.
  apply betweenb_between.
  exact (range_check _ 37 Hc s2 ltac:(lia)).
Qed.



(** X2.  The two scores a rating reports are rounded to two decimals, the
    two levels are taken from the scores before rounding; on numeric
    factors the two never disagree: the level of the reported score is the
    reported level. *)
Theorem reported_scores_agree_with_levels
  (l : option PartialLikelihood) (i : option PartialImpact) :
  numeric (givenLikelihood l) -> numeric (givenImpact i) ->
  getLevel (likelihoodScore (calculateRiskRating l i))
  = likelihoodLevel (calculateRiskRating l i)
  /\ getLevel (impactScore (calculateRiskRating l i))
     = impactLevel (calculateRiskRating l i).
Proof.
  intros Hl Hi.
  destruct (likelihood_mean _ (validateLikelihood_factors l Hl))
    as [s1 [Hs1 E1]].
  destruct (impact_mean _ (validateImpact_factors i Hi)) as [s2 [Hs2 E2]].
  unfold calculateRiskRating;
    cbn [likelihoodScore impactScore likelihoodLevel impactLevel].
  rewrite E1, E2. split.
  - now apply rounded_likelihood.
  - now apply rounded_impact.
Qed.

Lemma reported_scores_witness :
  getLevel (likelihoodScore (calculateRiskRating (Some roughLikelihood)
                                                 (Some roughImpact)))
  = likelihoodLevel (calculateRiskRating (Some roughLikelihood)
                                         (Some roughImpact))
  /\ getLevel (impactScore (calculateRiskRating (Some roughLikelihood)
                                                (Some roughImpact)))
     = impactLevel (calculateRiskRating (Some roughLikelihood)
                                        (Some roughImpact)).
Proof.
  apply (reported_scores_agree_with_levels
           (Some roughLikelihood) (Some roughImpact));
    repeat constructor; discriminate.
Defined.

(** X3.  On numeric factors the likelihood score and the impact score of a
    rating lie between 0 and 9, and the overall risk score between 0 and
    81. *)
Theorem scores_stay_on_the_scale
  (l : option PartialLikelihood) (i : option PartialImpact) :
  numeric (givenLikelihood l) -> numeric (givenImpact i) ->
  between 0 9 (likelihoodScore (calculateRiskRating l i))
  /\ between 0 9 (impactScore (calculateRiskRating l i))
  /\ between 0 81 (overallRiskScore (calculateRiskRating l i)).
Proof.
  intros Hl Hi.
  destruct (likelihood_mean _ (validateLikelihood_factors l Hl))
    as [s1 [Hs1 E1]].
  destruct (impact_mean _ (validateImpact_factors i Hi)) as [s2 [Hs2 E2]].
  unfold calculateRiskRating;
    cbn [likelihoodScore impactScore overallRiskScore].
  rewrite E1, E2. split; [ | split].
  - now apply rounded_likelihood.
  - now apply rounded_impact.
  - now apply overall_bounded.
Qed.

Lemma scores_on_the_scale_witness :
  between 0 9 (likelihoodScore (calculateRiskRating (Some roughLikelihood)
                                                    (Some roughImpact)))
  /\ between 0 9 (impactScore (calculateRiskRating (Some roughLikelihood)
                                                   (Some roughImpact)))
  /\ between 0 81
       (overallRiskScore (calculateRiskRating (Some roughLikelihood)
                                              (Some roughImpact))).
Proof.
  apply (scores_stay_on_the_scale (Some roughLikelihood) (Some roughImpact));
    repeat constructor; discriminate.
Defined.


Lemma getLevel_mean (s : Z) (d : positive) :
  getLevel (Fin (mean s d))
  = if (s <? 3 * Zpos d)%Z then LOW
    else if (s <? 6 * Zpos d)%Z then MEDIUM else HIGH.
Proof.
  unfold getLevel, lt, ofZ, Qltb, mean, Qdiv, Qmult, Qinv, inject_Z.
  cbn [Qnum Qden].
  rewrite !Z.mul_1_r, Pos.mul_1_l. reflexivity.
Qed.

Lemma getLevel_monotone (s1 s2 : Z) (d : positive) :
  (s1 <= s2)%Z ->
  levelRank (getLevel (Fin (mean s1 d)))
  <= levelRank (getLevel (Fin (mean s2 d))).
Proof.
  intros H. rewrite !getLevel_mean.
  destruct (Z.ltb_spec s1 (3 * Zpos d)), (Z.ltb_spec s2 (3 * Zpos d)),
    (Z.ltb_spec s1 (6 * Zpos d)), (Z.ltb_spec s2 (6 * Zpos d));
    simpl; lia.
Qed.

Lemma matrix_monotone (i1 i2 l1 l2 : RiskLevel) :
  levelRank i1 <= levelRank i2 -> levelRank l1 <= levelRank l2 ->
  rank (getRiskSeverity i1 l1) <= rank (getRiskSeverity i2 l2).
Proof. destruct i1, i2, l1, l2; simpl; lia. Qed.

Lemma clamp_le (a b : jsnum) :
  le a b ->
  exists ka kb, clamp a = ofZ ka /\ clamp b = ofZ kb
                /\ (0 <= ka)%Z /\ (ka <= kb)%Z /\ (kb <= 9)%Z.
Proof.
  intros [Ha [Hb H]].
  destruct a as [ | | | x], b as [ | | | y]; try congruence;
    try discriminate H.
  - exists 9%Z, 9%Z. repeat split; lia.
  - exists 0%Z, 9%Z. repeat split; lia.
  - exists 0%Z, 0%Z. repeat split; lia.
  - rewrite clamp_Fin. eexists 0%Z, _. repeat split; lia.
  - rewrite clamp_Fin. eexists _, 9%Z. repeat split; lia.
  - rewrite !clamp_Fin. eexists _, _. repeat split; try lia.
    cbn in H. apply Qltb_ge in H.
    assert (Hf : (Qfloor (x + (1 # 2)) <= Qfloor (y + (1 # 2)))%Z).
    { apply Qfloor_resp_le. apply Qplus_le_compat; [exact H | apply Qle_refl]. }
    lia.
Qed.

Lemma likelihood_means_ordered (l1 l2 : OwaspLikelihood) :
  Forall2 le (likelihoodFactors l1) (likelihoodFactors l2) ->
  exists s1 s2,
    rawLikelihoodScore (validateLikelihood (Some (partialOfLikelihood l1)))
    = Fin (mean s1 8)
    /\ rawLikelihoodScore (validateLikelihood (Some (partialOfLikelihood l2)))
       = Fin (mean s2 8)
    /\ (s1 <= s2)%Z.
Proof.
  destruct l1 as [a1 b1 c1 d1 e1 f1 g1 h1], l2 as [a2 b2 c2 d2 e2 f2 g2 h2].
  unfold likelihoodFactors;
    cbn [skillLevel motive opportunity size easeOfDiscovery easeOfExploit
         awareness intrusionDetection].
  intros H.
  repeat match goal with
         | H : Forall2 _ (_ :: _) (_ :: _) |- _ => inversion H; clear H; subst
         end.
  repeat match goal with
         | H : le _ _ |- _ =>
             apply clamp_le in H;
             destruct H as [? [? [? [? [? [? ?]]]]]]
         end.
  unfold rawLikelihoodScore, validateLikelihood, partialOfLikelihood;
    cbn [skillLevel motive opportunity size easeOfDiscovery easeOfExploit
         awareness intrusionDetection skillLevel' motive' opportunity' size'
         easeOfDiscovery' easeOfExploit' awareness' intrusionDetection'
         nullish].
  repeat match goal with
         | H : clamp _ = ofZ _ |- _ => rewrite H; clear H
         end.
  rewrite !add_ofZ. eexists _, _. split; [reflexivity | ].
  split; [reflexivity | ]. lia.
Qed.

Lemma impact_means_ordered (i1 i2 : OwaspImpact) :
  Forall2 le (impactFactors i1) (impactFactors i2) ->
  exists s1 s2,
    rawImpactScore (validateImpact (Some (partialOfImpact i1)))
    = Fin (mean s1 4)
    /\ rawImpactScore (validateImpact (Some (partialOfImpact i2)))
       = Fin (mean s2 4)
    /\ (s1 <= s2)%Z.
Proof.
  destruct i1 as [a1 b1 c1 d1], i2 as [a2 b2 c2 d2].
  unfold impactFactors;
    cbn [confidentiality integrity availability accountability].
  intros H.
  repeat match goal with
         | H : Forall2 _ (_ :: _) (_ :: _) |- _ => inversion H; clear H; subst
         end.
  repeat match goal with
         | H : le _ _ |- _ =>
             apply clamp_le in H;
             destruct H as [? [? [? [? [? [? ?]]]]]]
         end.
  unfold rawImpactScore, validateImpact, partialOfImpact;
    cbn [confidentiality integrity availability accountability
         confidentiality' integrity' availability' accountability' nullish].
  repeat match goal with
         | H : clamp _ = ofZ _ |- _ => rewrite H; clear H
         end.
  rewrite !add_ofZ. eexists _, _. split; [reflexivity | ].
  split; [reflexivity | ]. lia.
Qed.

(** X4.  The severity is monotone in the factors: a rating whose twelve
    factors are each at least those of another rating is at least as
    severe. *)
Theorem graver_factors_never_lower_the_severity
  (l1 l2 : OwaspLikelihood) (i1 i2 : OwaspImpact) :
  Forall2 le (likelihoodFactors l1) (likelihoodFactors l2) ->
  Forall2 le (impactFactors i1) (impactFactors i2) ->
  rank (riskSeverity (rate l1 i1)) <= rank (riskSeverity (rate l2 i2)).
Proof.
  intros Hl Hi.
  destruct (likelihood_means_ordered l1 l2 Hl) as [s1 [s2 [E1 [E2 Hs]]]].
  destruct (impact_means_ordered i1 i2 Hi) as [t1 [t2 [F1 [F2 Ht]]]].
  unfold rate, calculateRiskRating; cbn [riskSeverity].
  rewrite E1, E2, F1, F2.
  apply matrix_monotone; now apply getLevel_monotone.
Qed.

Lemma graver_factors_witness :
  rank (riskSeverity (rate mildLikelihood mildImpact))
  <= rank (riskSeverity (rate graveLikelihood graveImpact)).
Proof.
  apply (graver_factors_never_lower_the_severity
           mildLikelihood graveLikelihood mildImpact graveImpact);
    repeat constructor; discriminate.
Defined.

End RatingFacts.

(* ================================================================== *)
(** * Facts: the generators *)
(* ================================================================== *)

Module DemoFacts.
Import JsNum RiskEngine Json Generator Orchestrator.
Import RiskEngineFacts RecoverySpec DemoSpec.
Local Open Scope list_scope.

Lemma findingThreats_app (findings : list Repo.SecurityFinding) :
  forall threats,
    exists added,
      findingThreats findings threats = threats ++ added
      /\ List.length added = List.length findings
      /\ Forall (fun t => severity t = Repo.Medium) added.
Proof.
  induction findings as [ | f rest IH]; intros threats; cbn [findingThreats].
  - exists []. rewrite app_nil_r. repeat split. constructor.
  - destruct (IH (threats ++
        [{| strideCategory :=
              nth (List.length threats mod 6) categories Spoofing;
            severity :=
              match severityMap (Repo.Severity_text (Repo.severity f)) with
              | Some s => s
              | None => Repo.Medium
              end;
            owaspLikelihood := None; owaspImpact := None |}]))
      as [added [E [Hl Hs]]].
    eexists (_ :: added). rewrite E, <- app_assoc. split; [reflexivity | ].
    split; [cbn; now rewrite Hl | ].
    constructor; [ | exact Hs]. cbn [severity].
    now destruct (Repo.severity f).
Qed.

Lemma pushRows_app (rows : list (StrideCategory * Repo.Severity)) :
  forall threats,
    fold_left
      (fun threats aT =>
         threats ++ [{| strideCategory := fst aT; severity := snd aT;
                        owaspLikelihood := None; owaspImpact := None |}])
      rows threats
    = threats
        ++ map (fun aT => {| strideCategory := fst aT; severity := snd aT;
                             owaspLikelihood := None; owaspImpact := None |})
             rows.
Proof.
  induction rows as [ | r rows IH]; intros threats; cbn [fold_left map].
  - now rewrite app_nil_r.
  - rewrite IH, <- app_assoc. reflexivity.
Qed.

(** X5.  The demo generator returns six threats when the analysis has no
    finding, seven when it has one and eight otherwise: one per finding up
    to six, then architecture threats up to eight in all, two at least. *)
Theorem demo_threats_are_six_to_eight (analysis : Repo.RepoAnalysis) :
  List.length (generateDemoThreats analysis)
  = Nat.min 8 (6 + findingCount analysis).
Proof.
  unfold generateDemoThreats, findingCount. rewrite pushRows_app.
  destruct (findingThreats_app (firstn 6 (Repo.securityFindings analysis)) [])
    as [added [E [Hl _]]].
  rewrite E. cbn [app]. rewrite length_app, length_map, length_firstn, Hl.
  rewrite length_firstn. cbn [archThreats List.length]. lia.
Qed.

(** X6.  Every threat the demo generator derives from a finding has
    severity Medium, whatever the severity of the finding: the keys of
    [severityMap] are in lower case, the severities of findings are
    capitalised, so the lookup never succeeds. *)
Theorem finding_threats_are_always_medium (analysis : Repo.RepoAnalysis) :
  List.length (fromFindings analysis) = Nat.min 6 (findingCount analysis)
  /\ Forall (fun t => severity t = Repo.Medium) (fromFindings analysis)
  /\ (forall s : Repo.Severity, severityMap (Repo.Severity_text s) = None).
Proof.
  unfold fromFindings, generateDemoThreats, findingCount.
  rewrite pushRows_app.
  destruct (findingThreats_app (firstn 6 (Repo.securityFindings analysis)) [])
    as [added [E [Hl Hs]]].
  rewrite E. cbn [app]. rewrite length_firstn in Hl.
  rewrite <- Hl, firstn_app, Nat.sub_diag, firstn_all. cbn [firstn].
  rewrite app_nil_r. split; [reflexivity | split; [exact Hs | ]].
  intros s; now destruct s.
Qed.


Lemma demoCategories_by_count (analysis : Repo.RepoAnalysis) :
  demoCategories analysis
  = match findingCount analysis with
    | 0 => map fst archThreats
    | 1 => Spoofing :: map fst archThreats
    | 2 => [Spoofing; Tampering] ++ map fst archThreats
    | 3 => [Spoofing; Tampering; Repudiation] ++ map fst (firstn 5 archThreats)
    | 4 => [Spoofing; Tampering; Repudiation; InformationDisclosure]
             ++ map fst (firstn 4 archThreats)
    | 5 => [Spoofing; Tampering; Repudiation; InformationDisclosure;
            DenialOfService] ++ map fst (firstn 3 archThreats)
    | _ => categories ++ map fst (firstn 2 archThreats)
    end.
Proof.
  unfold demoCategories, findingCount.
  destruct analysis as [u ls fs cs ds ts findings tree es].
  cbn [Repo.securityFindings].
  destruct findings as [ | f1 [ | f2 [ | f3 [ | f4 [ | f5 [ | f6 rest]]]]]];
    reflexivity.
Qed.

(** X7.  With three, four or five findings the demo model has no threat of
    the category Elevation of Privilege (and has each of the other five);
    with fewer or more findings it has all six categories. *)
Theorem demo_threats_can_miss_a_category (analysis : Repo.RepoAnalysis) :
  (3 <= findingCount analysis <= 5 ->
   ~ In ElevationOfPrivilege (demoCategories analysis)
   /\ (forall c, c <> ElevationOfPrivilege -> In c (demoCategories analysis)))
  /\ (findingCount analysis <= 2 \/ 6 <= findingCount analysis ->
      forall c, In c (demoCategories analysis)).
Proof.
  rewrite demoCategories_by_count.
  destruct (findingCount analysis) as [ | [ | [ | [ | [ | [ | n]]]]]];
    (split; [intros H | intros [H | H] c]); try lia;
    try (destruct c; cbn; tauto);
    (split; [cbn; intuition discriminate
            | intros c Hc; destruct c; cbn; tauto]).
Qed.

Lemma severity_texts_agree (s : RiskSeverity) :
  Repo.Severity_text (asSeverity (noteAsLow s))
  = RiskSeverity_text (noteAsLow s).
Proof. now destruct s. Qed.

Lemma validateThreat_stored (raw : json) (gt : GeneratedThreat) :
  validateThreat raw = Some gt -> storedAsGenerated gt.
Proof.
  unfold validateThreat. destruct (throwsOn raw); [discriminate | ].
  intros E. injection E as E. subst gt. intros sid i.
  unfold threatRecord, asPartialLikelihood, asPartialImpact.
  cbn [owaspLikelihood owaspImpact severity recordSeverity option_map
       createdRow row_severity].
  pose proof (calculateRiskRating_idem
                (asLikelihood (prop raw "owaspLikelihood"))
                (asImpact (prop raw "owaspImpact"))) as Hidem.
  cbv zeta in Hidem. rewrite severity_texts_agree.
  apply (f_equal (fun s => RiskSeverity_text (noteAsLow s))).
  exact (f_equal riskSeverity Hidem).
Qed.

Lemma normalise_stored (parsed : list json) :
  Forall storedAsGenerated (normalise parsed).
Proof.
  unfold normalise. induction parsed as [ | raw rest IH]; cbn [flat_map].
  - constructor.
  - apply Forall_app. split; [ | exact IH].
    destruct (validateThreat raw) as [gt | ] eqn:E; constructor.
    + now apply (validateThreat_stored raw).
    + constructor.
Qed.

(** X8.  On the model path the second rating changes nothing: every threat
    that [parseThreatsResponse] returns carries the severity that the
    route then stores for it (rating the factors of a rating gives the
    same rating). *)
Theorem model_threats_are_stored_with_their_severity
  (response : text) (gts : list GeneratedThreat) :
  parseThreatsResponse response = Returns gts ->
  Forall storedAsGenerated gts.
Proof.
  unfold parseThreatsResponse.
  destruct (parsedArray response) as [parsed | msg]; [ | discriminate].
  intros E. injection E as E. subst gts. apply normalise_stored.
Qed.

Lemma model_threats_stored_witness :
  exists gts : list GeneratedThreat,
    parseThreatsResponse (ofString criticalAnswer) = Returns gts
    /\ map severity gts = [Repo.Critical]
    /\ Forall storedAsGenerated gts.
Proof.
  eexists. split; [vm_compute; reflexivity | ].
  split; [reflexivity | ].
  apply (model_threats_are_stored_with_their_severity
           (ofString criticalAnswer)).
  vm_compute. reflexivity.
Defined.

(** X9.  The repair step on an array text that holds complete objects and
    is cut inside the next one: it returns the text up to the closing
    brace of the last complete object, closed by a bracket, whatever
    brackets, braces, quotes and escapes the objects contain. *)
Theorem repair_returns_the_complete_objects
  (front : list (text * text)) (e sep partial rest : text) :
  Forall wellFormedChunk front -> elementText e -> plains sep ->
  elementText (partial ++ rest) -> rest <> [] ->
  repairTruncatedJsonArray
    ("["%char :: joinElements front ++ e ++ sep ++ partial)
  = Some ("["%char :: joinElements front ++ e ++ ["]"%char]).
Proof. apply RecoveryFacts.repair_keeps_complete_elements. Qed.

Lemma repair_returns_witness :
  repairTruncatedJsonArray
    ("["%char :: joinElements [(firstThreat, [","%char])]
       ++ secondThreat ++ [","%char] ++ cutThreat)
  = Some ("["%char :: joinElements [(firstThreat, [","%char])]
            ++ secondThreat ++ ["]"%char])
  /\ parsedLength
       (parsedOf ("["%char :: joinElements [(firstThreat, [","%char])]
                    ++ secondThreat ++ ["]"%char])) = Some 2.
Proof.
  split; [ | vm_compute; reflexivity].
  apply (repair_returns_the_complete_objects
           [(firstThreat, [","%char])] secondThreat [","%char]
           cutThreat missingEnd).
  - constructor; [ | constructor]. split.
    + exists 10, [(ofString "title", JString (ofString "A"));
                  (ofString "impactedAssets",
                   JArray [JString (ofString "db")])].
      vm_compute. reflexivity.
    + repeat constructor.
  - exists 10, [(ofString "title", JString (ofString "B"));
                (ofString "impactedAssets",
                 JArray [JString (ofString "x")])].
    vm_compute. reflexivity.
  - repeat constructor.
  - exists 10, [(ofString "title", JString (ofString "C"))].
    vm_compute. reflexivity.
  - discriminate.
Defined.

End DemoFacts.

(* ================================================================== *)
(** * Facts: the security scan *)
(* ================================================================== *)

Module ScanFacts.
Import Repo Scanner ScannerFacts ScanSpec.
Local Open Scope string_scope.
Local Open Scope list_scope.

Lemma countFor_other (rel relFile content : string) (lines : list string)
  (p : SecurityPattern) (ms : list nat) :
  rel <> relFile ->
  countFor rel (map (findingAt relFile content lines p) ms) = 0.
Proof.
  intros Hne. induction ms as [ | m ms IH]; [reflexivity | ].
  unfold countFor in *. cbn [map filter file findingAt].
  destruct (String.eqb_spec relFile rel) as [E | _]; [now elim Hne | exact IH].
Qed.

Lemma scanFile_other (patterns : list SecurityPattern)
  (rel relFile content : string) :
  rel <> relFile ->
  forall findings,
    countFor rel (scanFile patterns relFile content findings)
    = countFor rel findings.
Proof.
  intros Hne. unfold scanFile.
  induction patterns as [ | p ps IH]; intros findings; cbn [fold_left].
  - reflexivity.
  - rewrite IH, scanMatches_closed, countFor_app, countFor_other by exact Hne.
    lia.
Qed.

Lemma scanOne_other (patterns : list SecurityPattern) (fs : FileSystem)
  (rel relFile : string) (findings : list SecurityFinding) :
  rel <> relFile ->
  countFor rel (scanOne patterns fs findings relFile) = countFor rel findings.
Proof.
  intros Hne. unfold scanOne.
  destruct (negb (isScanned relFile)); [reflexivity | ].
  destruct (fs relFile); [now apply scanFile_other | reflexivity].
Qed.

Lemma scanOne_same (patterns : list SecurityPattern) (fs : FileSystem)
  (rel : string) (findings : list SecurityFinding) :
  countFor rel (scanOne patterns fs findings rel)
  <= Nat.max 9 (countFor rel findings) + List.length patterns.
Proof.
  unfold scanOne.
  destruct (negb (isScanned rel)); [lia | ].
  destruct (fs rel) as [content | ]; [ | lia].
  destruct patterns as [ | p ps];
    [unfold scanFile; cbn [fold_left List.length]; lia | ].
  destruct (scanFile_bound (p :: ps) rel content findings) as [H _].
  cbn [List.length] in *. lia.
Qed.

Lemma scanFiles_other (patterns : list SecurityPattern) (fs : FileSystem)
  (rel : string) (files : list string) :
  ~ In rel files ->
  forall findings,
    countFor rel (fold_left (scanOne patterns fs) files findings)
    = countFor rel findings.
Proof.
  induction files as [ | f files IH]; intros Hn findings; cbn [fold_left].
  - reflexivity.
  - rewrite IH by (intros H; apply Hn; now right).
    apply scanOne_other. intros E. apply Hn. now left.
Qed.

Lemma scanFiles_bound (patterns : list SecurityPattern) (fs : FileSystem)
  (rel : string) (files : list string) :
  NoDup files ->
  forall findings,
    countFor rel (fold_left (scanOne patterns fs) files findings)
    <= Nat.max 9 (countFor rel findings) + List.length patterns.
Proof.
  induction 1 as [ | f files Hf Hnd IH]; intros findings; cbn [fold_left].
  - lia.
  - destruct (String.eqb_spec rel f) as [E | Hne].
    + subst f. rewrite scanFiles_other by exact Hf. apply scanOne_same.
    + rewrite IH, scanOne_other by exact Hne. lia.
Qed.

(** X10.  Whatever the detectors match, a file of a tree without repeated
    paths gets at most nine findings more than there are detectors (19
    with the ten detectors of the registry): the first detector to reach
    ten leaves its loop, each later detector still adds one. *)
Theorem findings_per_file_are_bounded
  (patterns : list SecurityPattern) (fs : FileSystem)
  (files : list string) (rel : string) :
  NoDup files ->
  countFor rel (scanSecurity patterns fs files) <= 9 + List.length patterns.
Proof.
  intros Hnd.
  pose proof (scanFiles_bound patterns fs rel files Hnd []) as H.
  change (fold_left (scanOne patterns fs) files [])
    with (scanSecurity patterns fs files) in H.
  change (countFor rel []) with 0 in H. lia.
Qed.

Lemma findings_per_file_witness :
  countFor "src/run.js"
    (scanSecurity literalPatterns (oneFile "src/run.js" evalScript)
       ["src/run.js"])
  <= 9 + List.length literalPatterns.
Proof.
  apply (findings_per_file_are_bounded literalPatterns
           (oneFile "src/run.js" evalScript) ["src/run.js"] "src/run.js").
  repeat constructor. intros [].
Defined.













End ScanFacts.

(* ================================================================== *)
(** * Facts: the diagram *)
(* ================================================================== *)

Module DfdFacts.
Import Repo Dfd DfdSpec.
Local Open Scope string_scope.
Local Open Scope list_scope.

(** ** Labels *)







(** ** Maps and sets *)






(** ** Node identifiers *)






End DfdFacts.

(* ================================================================== *)
(** * Facts: the walk and the detectors *)
(* ================================================================== *)

Module AnalyzerFacts.
Import Repo Scanner Extractor Analyzer AnalyzerSpec.
Local Open Scope string_scope.
Local Open Scope list_scope.

(** ** The walk *)

Lemma Dirent_induction (P : Dirent -> Prop) :
  (forall name size, P (FileEntry name size)) ->
  (forall name, P (DirEntry name None)) ->
  (forall name entries, Forall P entries -> P (DirEntry name (Some entries))) ->
  forall entry, P entry.
Proof.
  intros Hfile Hnone Hdir. fix IH 1. intros [name size | name [entries | ]].
  - apply Hfile.
  - apply Hdir. induction entries as [ | e es IHes]; constructor.
    + apply IH.
    + exact IHes.
  - apply Hnone.
Qed.

Lemma walkEntry_dir (dir name : string) (listing : option (list Dirent))
  (files : list string) :
  walkEntry dir (DirEntry name listing) files
  = if skipsName name then Some files
    else walkDir (joinPath dir name) listing files.
Proof.
  cbn [walkEntry]. unfold walkDir. destruct (skipsName name); [reflexivity | ].
  destruct (MAX_FILES <=? List.length files)%nat; [reflexivity | ].
  destruct listing as [entries | ]; [ | reflexivity].
  revert files. induction entries as [ | e es IH]; intros files;
    cbn [walkEntries]; [reflexivity | ].
  destruct (MAX_FILES <=? List.length files)%nat; [reflexivity | ].
  destruct (walkEntry (joinPath dir name) e files); [apply IH | reflexivity].
Qed.

Lemma adds_refl (dir : string) (entries : list Dirent) (files : list string) :
  adds dir entries files files.
Proof.
  exists []. rewrite app_nil_r. split; [reflexivity | ].
  split; [lia | constructor].
Qed.


Lemma adds_trans (dir : string) (entries : list Dirent)
  (files mid out : list string) :
  adds dir entries files mid -> adds dir entries mid out ->
  adds dir entries files out.
Proof.
  intros [a1 [E1 [L1 F1]]] [a2 [E2 [L2 F2]]]. exists (a1 ++ a2).
  subst mid out. rewrite <- app_assoc. split; [reflexivity | ].
  split; [rewrite <- app_assoc in L2; lia | ].
  apply Forall_app. now split.
Qed.

Lemma pathOf_cons (dir name : string) (segments : list string) :
  pathOf dir (name :: segments) = pathOf (joinPath dir name) segments.
Proof. reflexivity. Qed.

Lemma listed_below (dir name : string) (entries sub : list Dirent)
  (p : string) :
  In (DirEntry name (Some sub)) entries -> skipsName name = false ->
  listed (joinPath dir name) sub p -> listed dir entries p.
Proof.
  intros Hin Hskip [dirs [n [size [E [Hat [Hsize [Hseg Hext]]]]]]].
  exists (name :: dirs), n, size. cbn [app].
  rewrite pathOf_cons. split; [exact E | ].
  split; [exists sub; now split | ].
  split; [exact Hsize | split; [ | exact Hext]].
  now constructor.
Qed.

Lemma adds_below (dir name : string) (entries sub : list Dirent)
  (files out : list string) :
  In (DirEntry name (Some sub)) entries -> skipsName name = false ->
  adds (joinPath dir name) sub files out -> adds dir entries files out.
Proof.
  intros Hin Hskip [added [E [L F]]]. exists added.
  split; [exact E | split; [exact L | ]].
  eapply Forall_impl; [ | exact F]. intros p. now apply listed_below.
Qed.

Lemma walkEntries_adds (dir : string) (entries : list Dirent) :
  forall es, Forall turnAdds es -> incl es entries ->
  forall files out,
    walkEntries dir es files = Some out -> adds dir entries files out.
Proof.
  induction es as [ | e es IH]; intros Hes Hincl files out;
    cbn [walkEntries].
  - intros E. injection E as E. subst out. apply adds_refl.
  - inversion Hes as [ | ? ? He Hrest]; subst.
    destruct (Nat.leb_spec MAX_FILES (List.length files)) as [Hfull | Hroom].
    + intros E. injection E as E. subst out. apply adds_refl.
    + destruct (walkEntry dir e files) as [mid | ] eqn:Emid; [ | discriminate].
      intros E. apply adds_trans with (mid := mid).
      * apply (He dir entries files mid); [apply Hincl; now left | lia | ].
        exact Emid.
      * apply IH; [exact Hrest | | exact E].
        intros x Hx. apply Hincl. now right.
Qed.

Lemma walkEntry_adds (entry : Dirent) : turnAdds entry.
Proof.
  induction entry as [name size | name | name sub IH] using Dirent_induction;
    intros dir entries files out Hin Hroom.
  - cbn [walkEntry]. destruct (skipsName name) eqn:Hskip.
    { intros E. injection E as E. subst out. apply adds_refl. }
    destruct (has SKIP_EXTENSIONS (Str.toLowerCaseUtf8 (extname name))) eqn:Hext.
    { intros E. injection E as E. subst out. apply adds_refl. }
    destruct size as [n | ].
    2: { intros E. injection E as E. subst out. apply adds_refl. }
    destruct (N.leb_spec n MAX_FILE_SIZE) as [Hn | Hn].
    2: { intros E. injection E as E. subst out. apply adds_refl. }
    intros E. injection E as E. subst out.
    exists [joinPath dir name]. split; [reflexivity | ].
    split; [rewrite length_app; cbn [List.length]; lia | ].
    constructor; [ | constructor].
    exists [], name, n. cbn [app]. split; [reflexivity | ].
    split; [exact Hin | split; [exact Hn | split; [ | exact Hext]]].
    constructor; [exact Hskip | constructor].
  - rewrite walkEntry_dir. unfold walkDir.
    destruct (skipsName name);
      [intros E; injection E as E; subst out; apply adds_refl | ].
    destruct (MAX_FILES <=? List.length files)%nat; [ | discriminate].
    intros E. injection E as E. subst out. apply adds_refl.
  - rewrite walkEntry_dir. unfold walkDir.
    destruct (skipsName name) eqn:Hskip;
      [intros E; injection E as E; subst out; apply adds_refl | ].
    destruct (MAX_FILES <=? List.length files)%nat;
      [intros E; injection E as E; subst out; apply adds_refl | ].
    intros E. apply (adds_below dir name entries sub); try assumption.
    apply (walkEntries_adds (joinPath dir name) sub sub IH (incl_refl sub)).
    exact E.
Qed.

Lemma walkDir_adds (dir : string) (entries : list Dirent)
  (files out : list string) :
  walkDir dir (Some entries) files = Some out -> adds dir entries files out.
Proof.
  unfold walkDir. destruct (MAX_FILES <=? List.length files)%nat.
  - intros E. injection E as E. subst out. apply adds_refl.
  - apply walkEntries_adds; [ | apply incl_refl].
    apply Forall_forall. intros e _. apply walkEntry_adds.
Qed.

(** X13.  A walk that returns lists at most 500 paths. *)
Theorem walk_lists_at_most_500_files
  (entries : list Dirent) (files : list string) :
  walkDir EmptyString (Some entries) [] = Some files ->
  List.length files <= 500.
Proof.
  intros H. destruct (walkDir_adds _ _ _ _ H) as [added [E [L _]]].
  cbn [List.length] in L. unfold MAX_FILES in L. lia.
Qed.

Lemma walk_lists_witness :
  walkDir EmptyString (Some sampleTree) []
  = Some ["package.json"; "app.min.js"; ".env"; "src/index.ts";
          "src/api/users.ts"; "cmd/tool.go"]
  /\ List.length ["package.json"; "app.min.js"; ".env"; "src/index.ts";
                  "src/api/users.ts"; "cmd/tool.go"] <= 500.
Proof.
  split; [vm_compute; reflexivity | ].
  apply (walk_lists_at_most_500_files sampleTree).
  vm_compute. reflexivity.
Defined.




(** ** Extensions *)

Lemma lastDot_shift (s : string) :
  forall i acc,
    lastDot s i acc
    = match lastDot s 0 None with
      | Some k => Some (i + k)
      | None => acc
      end.
Proof.
  induction s as [ | c r IH]; intros i acc; cbn [lastDot]; [reflexivity | ].
  rewrite (IH (S i)), (IH 1).
  destruct (lastDot r 0 None) as [k | ]; [f_equal; lia | ].
  destruct (Ascii.eqb c "."); [f_equal; lia | reflexivity].
Qed.

Lemma substring_all (s : string) :
  String.substring 0 (String.length s) s = s.
Proof. induction s as [ | c r IH]; cbn; [ | rewrite IH]; reflexivity. Qed.

Lemma after_lastDot (s : string) :
  match lastDot s 0 None with
  | Some k =>
      exists t, String.substring k (String.length s - k) s = String "." t
                /\ noDot t = true
  | None => noDot s = true
  end.
Proof.
  induction s as [ | c r IH]; cbn [lastDot]; [reflexivity | ].
  rewrite (lastDot_shift r 1).
  destruct (lastDot r 0 None) as [k | ].
  - destruct IH as [t [E Ht]]. exists t. split; [ | exact Ht].
    cbn [Nat.add String.length Nat.sub String.substring]. exact E.
  - destruct (Ascii.eqb_spec c ".") as [Ec | Hc].
    + subst c. exists r. split; [ | exact IH].
      cbn [String.length Nat.sub String.substring].
      now rewrite substring_all.
    + cbn [noDot]. rewrite IH.
      destruct (Ascii.eqb_spec c "."); [now elim Hc | reflexivity].
Qed.

Lemma extname_shape (p : string) :
  extname p = EmptyString
  \/ exists t, extname p = String "." t /\ noDot t = true.
Proof.
  unfold extname. destruct (String.eqb (basename p) ".."); [now left | ].
  pose proof (after_lastDot (basename p)) as H.
  destruct (lastDot (basename p) 0 None) as [[ | k] | ]; [now left | | now left].
  right. exact H.
Qed.

Lemma lowerChar_dot (c : ascii) :
  Str.lowerChar c = "."%char -> c = "."%char.
Proof.
  destruct c as [[] [] [] [] [] [] [] []]; vm_compute; intros H;
    solve [reflexivity | discriminate H].
Qed.

Lemma noDot_lowerChar (c : ascii) (r : string) :
  negb (Ascii.eqb c ".") = true -> noDot r = true ->
  noDot (String (Str.lowerChar c) r) = true.
Proof.
  intros Hc Hr. cbn [noDot]. rewrite Hr, andb_true_r.
  destruct (Ascii.eqb_spec (Str.lowerChar c) ".") as [E | _];
    [ | reflexivity].
  apply lowerChar_dot in E. subst c. discriminate Hc.
Qed.

Lemma toLowerCaseUtf8_cons (c1 : ascii) (r1 : string) :
  Str.toLowerCaseUtf8 (String c1 r1)
  = match r1 with
    | EmptyString => String (Str.lowerChar c1) EmptyString
    | String c2 r2 =>
        if ((nat_of_ascii c1 =? 196) && (nat_of_ascii c2 =? 176))%nat
        then String "i" (String "204" (String "135" (Str.toLowerCaseUtf8 r2)))
        else
          match r2 with
          | EmptyString =>
              String (Str.lowerChar c1) (Str.toLowerCaseUtf8 r1)
          | String c3 r3 =>
              if ((nat_of_ascii c1 =? 226) && (nat_of_ascii c2 =? 132)
                  && (nat_of_ascii c3 =? 170))%nat
              then String "k" (Str.toLowerCaseUtf8 r3)
              else String (Str.lowerChar c1) (Str.toLowerCaseUtf8 r1)
          end
    end.
Proof. destruct r1 as [ | c2 [ | c3 r3]]; reflexivity. Qed.

Lemma noDot_lower_below (n : nat) :
  forall t : string,
    String.length t <= n -> noDot t = true ->
    noDot (Str.toLowerCaseUtf8 t) = true.
Proof.
  induction n as [ | n IH]; intros t Hn Ht.
  - destruct t; [reflexivity | cbn in Hn; lia].
  - destruct t as [ | c1 r1]; [reflexivity | ].
    rewrite toLowerCaseUtf8_cons.
    cbn [noDot] in Ht. apply andb_prop in Ht. destruct Ht as [H1 Hr1].
    cbn [String.length] in Hn.
    assert (Hrest : noDot (String (Str.lowerChar c1) (Str.toLowerCaseUtf8 r1))
                    = true).
    { apply noDot_lowerChar; [exact H1 | ]. apply IH; [lia | exact Hr1]. }
    destruct r1 as [ | c2 r2]; [now apply noDot_lowerChar | ].
    cbn [noDot] in Hr1. apply andb_prop in Hr1. destruct Hr1 as [H2 Hr2].
    cbn [String.length] in Hn.
    match goal with
    | |- context [if ?test then _ else _] => destruct test
    end.
    { cbn [noDot]. rewrite (IH r2); [reflexivity | lia | exact Hr2]. }
    destruct r2 as [ | c3 r3]; [exact Hrest | ].
    cbn [noDot] in Hr2. apply andb_prop in Hr2. destruct Hr2 as [H3 Hr3].
    cbn [String.length] in Hn.
    match goal with
    | |- context [if ?test then _ else _] => destruct test
    end.
    { cbn [noDot]. rewrite (IH r3); [reflexivity | lia | exact Hr3]. }
    exact Hrest.
Qed.

Lemma noDot_lower (t : string) :
  noDot t = true -> noDot (Str.toLowerCaseUtf8 t) = true.
Proof. apply (noDot_lower_below (String.length t)). lia. Qed.

Lemma extensionOf_shape (name : string) :
  extensionOf name = EmptyString
  \/ exists t, extensionOf name = String "." t /\ noDot t = true.
Proof.
  unfold extensionOf.
  destruct (extname_shape name) as [E | [t [E Ht]]]; rewrite E.
  - now left.
  - right. exists (Str.toLowerCaseUtf8 t). split; [ | now apply noDot_lower].
    destruct t as [ | c2 [ | c3 r3]]; reflexivity.
Qed.

(** X15.  [path.extname] returns an extension with a single dot, so the
    entries [.min.js] and [.min.css] of [SKIP_EXTENSIONS] never match: the
    set skips what it would skip without them, and a minified script is
    listed like any script. *)
Theorem two_dot_extensions_never_match (name : string) :
  extensionOf name <> ".min.js"
  /\ extensionOf name <> ".min.css"
  /\ has SKIP_EXTENSIONS (extensionOf name)
     = has singleDotExtensions (extensionOf name)
  /\ walkDir EmptyString (Some [FileEntry "app.min.js" (Some 10%N)]) []
     = Some ["app.min.js"].
Proof.
  assert (H : extensionOf name <> ".min.js"
              /\ extensionOf name <> ".min.css").
  { destruct (extensionOf_shape name) as [E | [t [E Ht]]]; rewrite E;
      [split; discriminate | ].
    split; intros H; injection H as H; subst t; discriminate Ht. }
  destruct H as [H1 H2]. repeat split; try assumption.
  unfold has, SKIP_EXTENSIONS, singleDotExtensions. cbn [existsb].
  destruct (String.eqb_spec (extensionOf name) ".min.js");
    [contradiction | ].
  destruct (String.eqb_spec (extensionOf name) ".min.css");
    [contradiction | ].
  cbn [orb]. reflexivity.
Qed.

(** ** Languages *)

Lemma has_In (set : list string) (x : string) :
  has set x = true <-> In x set.
Proof.
  unfold has. rewrite existsb_exists. split.
  - intros [y [Hy E]]. apply String.eqb_eq in E. now subst y.
  - intros H. exists x. split; [exact H | apply String.eqb_refl].
Qed.

Lemma add_In (set : list string) (x y : string) :
  In y (add set x) <-> y = x \/ In y set.
Proof.
  unfold add. destruct (has set x) eqn:E.
  - apply has_In in E. split; [now right | intros [H | H]; congruence].
  - rewrite in_app_iff. cbn. intuition.
Qed.

Lemma add_NoDup (set : list string) (x : string) :
  NoDup set -> NoDup (add set x).
Proof.
  intros H. unfold add. destruct (has set x) eqn:E; [exact H | ].
  apply NoDup_app; [exact H | repeat constructor; intros [] | ].
  intros y Hy [Hx | []]. subst y. apply has_In in Hy. congruence.
Qed.

Lemma detectLanguages_from (files : list string) :
  forall langs,
    NoDup langs ->
    NoDup (fold_left
             (fun langs f =>
                match langMap (Str.toLowerCaseUtf8 (extname f)) with
                | Some lang => add langs lang
                | None => langs
                end) files langs)
    /\ forall lang,
         In lang (fold_left
                    (fun langs f =>
                       match langMap (Str.toLowerCaseUtf8 (extname f)) with
                       | Some lang => add langs lang
                       | None => langs
                       end) files langs)
         <-> In lang langs
             \/ exists f, In f files /\ langMap (extensionOf f) = Some lang.
Proof.
  induction files as [ | f files IH]; intros langs Hnd; cbn [fold_left].
  - split; [exact Hnd | ]. intros lang. split; [now left | ].
    intros [H | [f [[] _]]]. exact H.
  - destruct (langMap (Str.toLowerCaseUtf8 (extname f))) as [l | ] eqn:E.
    + destruct (IH (add langs l) (add_NoDup _ _ Hnd)) as [H1 H2].
      split; [exact H1 | ]. intros lang. rewrite H2, add_In. split.
      * intros [[H | H] | [g [Hg Hl]]].
        -- subst lang. right. exists f. split; [now left | exact E].
        -- now left.
        -- right. exists g. split; [now right | exact Hl].
      * intros [H | [g [[Hg | Hg] Hl]]].
        -- left. now right.
        -- subst g. unfold extensionOf in Hl. left. left. congruence.
        -- right. exists g. now split.
    + destruct (IH langs Hnd) as [H1 H2].
      split; [exact H1 | ]. intros lang. rewrite H2. split.
      * intros [H | [g [Hg Hl]]]; [now left | ].
        right. exists g. split; [now right | exact Hl].
      * intros [H | [g [[Hg | Hg] Hl]]]; [now left | | ].
        -- subst g. unfold extensionOf in Hl. congruence.
        -- right. exists g. now split.
Qed.

(** X16.  [detectLanguages] reports each language once, and reports a
    language exactly when a listed file has an extension that [langMap]
    maps to it, whatever the case of the extension. *)
Theorem languages_are_those_of_the_extensions (files : list string) :
  NoDup (detectLanguages files)
  /\ forall lang,
       In lang (detectLanguages files)
       <-> exists f, In f files /\ langMap (extensionOf f) = Some lang.
Proof.
  destruct (detectLanguages_from files [] (NoDup_nil _)) as [H1 H2].
  split; [exact H1 | ]. intros lang. unfold detectLanguages.
  rewrite H2. cbn. intuition.
Qed.


(** ** Prefixes and suffixes *)

Lemma startsWith_iff (s p : string) :
  Str.startsWith s p = true <-> exists r, s = (p ++ r)%string.
Proof.
  unfold Str.startsWith. revert s. induction p as [ | c p IH]; intros s.
  - destruct s; cbn; (split; [intros _; eexists; reflexivity
                             | intros _; reflexivity]).
  - destruct s as [ | d s]; cbn.
    + split; [discriminate | intros [r H]; discriminate H].
    + destruct (Ascii.ascii_dec c d) as [E | Hne].
      * subst d. rewrite IH. split; intros [r H]; exists r; congruence.
      * split; [discriminate | intros [r H]; congruence].
Qed.

Lemma startsWith_app (a b p : string) :
  Str.startsWith a p = true -> Str.startsWith (a ++ b) p = true.
Proof.
  rewrite !startsWith_iff. intros [r E]. exists (r ++ b)%string.
  subst a. clear. induction p as [ | c p IH]; cbn; [ | rewrite IH];
    reflexivity.
Qed.

Lemma append_assoc (a b c : string) :
  ((a ++ b) ++ c = a ++ (b ++ c))%string.
Proof. induction a as [ | x a IH]; cbn; [ | rewrite IH]; reflexivity. Qed.

Lemma append_length (a b : string) :
  String.length (a ++ b) = String.length a + String.length b.
Proof. induction a as [ | x a IH]; cbn; [ | rewrite IH]; reflexivity. Qed.

Lemma substring_skip (a b : string) (m : nat) :
  String.substring (String.length a) m (a ++ b) = String.substring 0 m b.
Proof. induction a as [ | x a IH]; cbn; [reflexivity | exact IH]. Qed.

Lemma substring_split (s : string) :
  forall k, k <= String.length s ->
    s = (String.substring 0 k s
         ++ String.substring k (String.length s - k) s)%string.
Proof.
  induction s as [ | c r IH]; intros k Hk.
  - destruct k; reflexivity.
  - destruct k as [ | k]; cbn [String.substring String.length Nat.sub].
    + cbn. now rewrite substring_all.
    + cbn [append]. f_equal. apply IH. cbn in Hk. lia.
Qed.

Lemma endsWith_iff (s suffix : string) :
  Str.endsWith s suffix = true <-> exists pre, s = (pre ++ suffix)%string.
Proof.
  unfold Str.endsWith. split.
  - destruct (Nat.leb_spec (String.length suffix) (String.length s))
      as [Hle | _]; [ | discriminate].
    intros H. apply String.eqb_eq in H.
    exists (String.substring 0 (String.length s - String.length suffix) s).
    pose proof (substring_split s (String.length s - String.length suffix)
                  ltac:(lia)) as Hs.
    replace (String.length s - (String.length s - String.length suffix))
      with (String.length suffix) in Hs by lia.
    rewrite H in Hs. exact Hs.
  - intros [pre E]. subst s. rewrite append_length.
    replace (String.length suffix
             <=? String.length pre + String.length suffix)%nat
      with true by (symmetry; apply Nat.leb_le; lia).
    replace (String.length pre + String.length suffix - String.length suffix)
      with (String.length pre) by lia.
    rewrite substring_skip, substring_all. apply String.eqb_refl.
Qed.

(** X17.  The URL handed to [git clone] always ends in [.git] and starts
    with [http] or [git@]: a bare host path gets [https://] in front, and
    normalising a normalised URL changes nothing. *)
Theorem clone_urls_are_normalised (url : string) :
  Str.endsWith (gitUrlOf url) ".git" = true
  /\ (Str.startsWith (gitUrlOf url) "http" = true
      \/ Str.startsWith (gitUrlOf url) "git@" = true)
  /\ gitUrlOf (gitUrlOf url) = gitUrlOf url.
Proof.
  assert (H : Str.endsWith (gitUrlOf url) ".git" = true
              /\ (Str.startsWith (gitUrlOf url) "http" = true
                  \/ Str.startsWith (gitUrlOf url) "git@" = true)).
  { unfold gitUrlOf.
    set (g := if negb (Str.startsWith url "http")
                 && negb (Str.startsWith url "git@")
              then ("https://" ++ url)%string else url).
    assert (Hg : Str.startsWith g "http" = true
                 \/ Str.startsWith g "git@" = true).
    { unfold g. destruct (Str.startsWith url "http") eqn:E1; [now left | ].
      destruct (Str.startsWith url "git@") eqn:E2; [now right | ].
      left. reflexivity. }
    destruct (Str.endsWith g ".git") eqn:E; cbn [negb].
    - now split.
    - split; [apply endsWith_iff; now exists g | ].
      destruct Hg as [Hg | Hg]; [left | right]; now apply startsWith_app. }
  destruct H as [He Hs]. split; [exact He | split; [exact Hs | ]].
  unfold gitUrlOf at 1.
  replace (negb (Str.startsWith (gitUrlOf url) "http")
           && negb (Str.startsWith (gitUrlOf url) "git@")) with false
    by (destruct Hs as [Hs | Hs]; rewrite Hs;
        [reflexivity | now rewrite andb_false_r]).
  now rewrite He.
Qed.

(** ** Framework signatures *)

Lemma noSlash_app (x y : string) : noSlash (x ++ String "/" y) = false.
Proof.
  induction x as [ | c x IH]; simpl in *; [reflexivity | ].
  rewrite IH. apply andb_false_r.
Qed.

Lemma last_slash_unique (a b n m : string) :
  noSlash n = true -> noSlash m = true ->
  (a ++ "/" ++ n = b ++ "/" ++ m)%string -> a = b /\ n = m.
Proof.
  intros Hn Hm. revert b. induction a as [ | c a IH]; intros [ | d b] E;
    cbn in E.
  - injection E as E. now split.
  - injection E as Ec E. subst n. now rewrite noSlash_app in Hn.
  - injection E as Ec E. subst m. now rewrite noSlash_app in Hm.
  - injection E as Ec E. destruct (IH b E) as [Ha Hnm]. subst. now split.
Qed.

Lemma skipsName_dot (n : string) :
  skipsName n = false -> Str.startsWith n ".g" = false.
Proof.
  unfold skipsName. intros H. apply orb_false_elim in H. destruct H as [_ H].
  destruct (Str.startsWith n ".g") eqn:E; [ | reflexivity].
  apply startsWith_iff in E. destruct E as [r E]. subst n. cbn in H.
  discriminate H.
Qed.

Lemma skipsName_github : skipsName ".github" = true.
Proof. reflexivity. Qed.

Lemma offWorkflows_step (d n : string) :
  offWorkflows d -> skipsName n = false -> noSlash n = true ->
  offWorkflows (joinPath d n).
Proof.
  intros [Hj Hk] Hskip Hslash. unfold joinPath.
  destruct (String.eqb_spec d EmptyString) as [Ed | Hd].
  - split; [now apply skipsName_dot | ].
    destruct (Str.endsWith n "/.github") eqn:E; [ | reflexivity].
    apply endsWith_iff in E. destruct E as [pre E]. subst n.
    now rewrite noSlash_app in Hslash.
  - split.
    + destruct (Str.startsWith (d ++ "/" ++ n) ".g") eqn:E; [ | reflexivity].
      apply startsWith_iff in E. destruct E as [r E].
      destruct d as [ | c [ | c2 d]]; [now elim Hd | | ]; cbn in E.
      * injection E as _ E. discriminate E.
      * injection E as E1 E2 E3. subst c c2.
        assert (Hs : Str.startsWith (String "." (String "g" d)) ".g" = true)
          by (apply startsWith_iff; now exists d).
        congruence.
    + destruct (Str.endsWith (d ++ "/" ++ n) "/.github") eqn:E;
        [ | reflexivity].
      apply endsWith_iff in E. destruct E as [pre E].
      change "/.github" with ("/" ++ ".github")%string in E.
      apply last_slash_unique in E; [ | exact Hslash | reflexivity].
      destruct E as [_ E]. subst n. discriminate Hskip.
Qed.

Lemma offWorkflows_path (segments : list string) :
  forall d,
    offWorkflows d ->
    Forall (fun n => skipsName n = false) segments ->
    Forall (fun n => noSlash n = true) segments ->
    offWorkflows (pathOf d segments).
Proof.
  unfold pathOf. induction segments as [ | n segments IH];
    intros d Hd Hskip Hslash; cbn [fold_left]; [exact Hd | ].
  inversion Hskip; inversion Hslash; subst.
  apply IH; try assumption. now apply offWorkflows_step.
Qed.

Lemma fileAt_plain (dirs : list string) :
  forall entries name size,
    forallb plainNames entries = true -> fileAt entries dirs name size ->
    Forall (fun n => noSlash n = true) (dirs ++ [name]).
Proof.
  induction dirs as [ | d dirs IH]; intros entries name size Hp Hat;
    cbn [fileAt app] in *.
  - rewrite forallb_forall in Hp. specialize (Hp _ Hat). cbn in Hp.
    constructor; [exact Hp | constructor].
  - destruct Hat as [sub [Hin Hat]].
    rewrite forallb_forall in Hp. specialize (Hp _ Hin). cbn in Hp.
    apply andb_prop in Hp. destruct Hp as [Hd Hsub].
    constructor; [exact Hd | ]. now apply (IH sub name size).
Qed.

Lemma workflows_never_match (entries : list Dirent) (p : string) :
  forallb plainNames entries = true -> listed EmptyString entries p ->
  matchesSignature workflowsSignature p = false.
Proof.
  intros Hp [dirs [name [size [E [Hat [_ [Hskip _]]]]]]].
  pose proof (fileAt_plain dirs entries name size Hp Hat) as Hslash.
  assert (Hoff0 : offWorkflows EmptyString) by (split; reflexivity).
  pose proof (offWorkflows_path _ _ Hoff0 Hskip Hslash) as [Hj Hk].
  rewrite <- E in Hj, Hk.
  apply Forall_app in Hskip, Hslash.
  destruct Hskip as [Hskipd Hskipn], Hslash as [Hslashd Hslashn].
  pose proof (offWorkflows_path _ _ Hoff0 Hskipd Hslashd) as [_ Hkd].
  inversion Hskipn as [ | ? ? Hsn _]; inversion Hslashn as [ | ? ? Hln _];
    subst.
  unfold matchesSignature, workflowsSignature, signature; cbn [sigFile].
  change ("/" ++ ".github/workflows")%string with "/.github/workflows".
  set (p := pathOf EmptyString (dirs ++ [name])) in *.
  assert (Hstart : Str.startsWith p ".github/workflows" = false).
  { destruct (Str.startsWith p ".github/workflows") eqn:Es; [ | reflexivity].
    apply startsWith_iff in Es. destruct Es as [r Es].
    rewrite Es in Hj. discriminate Hj. }
  rewrite Hstart, orb_false_r.
  destruct (String.eqb_spec p ".github/workflows") as [Ep | _].
  { rewrite Ep in Hstart. discriminate Hstart. }
  cbn [orb].
  destruct (Str.endsWith p "/.github/workflows") eqn:Ee; [ | reflexivity].
  apply endsWith_iff in Ee. destruct Ee as [pre Ee].
  unfold p, pathOf in Ee. rewrite fold_left_app in Ee. cbn [fold_left] in Ee.
  fold (pathOf EmptyString dirs) in Ee.
  unfold joinPath in Ee.
  destruct (String.eqb (pathOf EmptyString dirs) EmptyString).
  - subst name. now rewrite noSlash_app in Hln.
  - change "/.github/workflows"
      with ("/.github" ++ "/" ++ "workflows")%string in Ee.
    rewrite <- (append_assoc pre "/.github") in Ee.
    apply last_slash_unique in Ee; [ | exact Hln | reflexivity].
    destruct Ee as [Ed _].
    assert (Hend : Str.endsWith (pathOf EmptyString dirs) "/.github" = true)
      by (apply endsWith_iff; now exists pre).
    unfold pathOf in Hend, Hkd. congruence.
Qed.

Lemma detectFrameworks_from (fs : FileSystem) (files : list string)
  (fw : string) (sigs : list FrameworkSignature) :
  forall detected,
    In fw (fold_left (detectOne fs files) sigs detected) ->
    In fw detected
    \/ exists sig matched,
         In sig sigs /\ framework sig = fw
         /\ find (matchesSignature sig) files = Some matched.
Proof.
  induction sigs as [ | sig sigs IH]; intros detected H; cbn [fold_left] in H.
  - now left.
  - destruct (IH _ H) as [Hd | [s [m [Hs [Hf Hm]]]]].
    + unfold detectOne in Hd.
      destruct (find (matchesSignature sig) files) as [matched | ] eqn:Ef;
        [ | now left].
      assert (Hadd : In fw (add detected (framework sig)) ->
                     In fw detected
                     \/ exists sig0 matched0,
                          In sig0 (sig :: sigs) /\ framework sig0 = fw
                          /\ find (matchesSignature sig0) files
                             = Some matched0).
      { intros Hin. apply add_In in Hin. destruct Hin as [Hin | Hin];
          [ | now left].
        right. exists sig, matched. split; [now left | now split]. }
      destruct (String.eqb matched EmptyString); [now left | ].
      destruct (key sig) as [k | ]; [ | now apply Hadd].
      destruct (fs matched) as [content | ]; [ | now left].
      destruct (Str.includes _ _); [now apply Hadd | now left].
    + right. exists s, m. split; [now right | now split].
Qed.

Lemma only_workflows_is_actions (sig : FrameworkSignature) :
  In sig FRAMEWORK_SIGNATURES -> framework sig = "GitHub Actions" ->
  sig = workflowsSignature.
Proof.
  unfold FRAMEWORK_SIGNATURES. intros Hin Hf. cbn [In] in Hin.
  repeat (destruct Hin as [Hin | Hin];
          [subst sig; try discriminate Hf; reflexivity | ]).
  destruct Hin.
Qed.

Lemma detectFrameworks_unfold (fs : FileSystem) (files : list string) :
  detectFrameworks fs files
  = fold_left (detectOne fs files) FRAMEWORK_SIGNATURES [].
Proof. reflexivity. Qed.

(** X18.  An analysis never reports the framework GitHub Actions: the
    signature asks for a path at or below [.github/workflows], and the
    walk skips every directory whose name starts with a dot, [.github]
    among them. *)
Theorem github_actions_is_never_detected
  (patterns : list SecurityPattern) (git : Git) (repoUrl : string)
  (tree : WorkingTree) (entries : list Dirent) (analysis : RepoAnalysis) :
  git (gitUrlOf repoUrl) = Some tree ->
  rootListing tree = Some entries ->
  forallb plainNames entries = true ->
  analyzeRepo patterns git repoUrl = Some analysis ->
  ~ In "GitHub Actions" (frameworks analysis).
Proof.
  intros Hgit Hroot Hplain. unfold analyzeRepo. rewrite Hgit, Hroot.
  destruct (walkDir EmptyString (Some entries) []) as [files | ] eqn:Hwalk;
    [ | discriminate].
  intros E. injection E as E. subst analysis. cbn [frameworks].
  intros Hin. rewrite detectFrameworks_unfold in Hin.
  apply detectFrameworks_from in Hin.
  destruct Hin as [[] | [sig [matched [Hs [Hf Hm]]]]].
  apply only_workflows_is_actions in Hs; [ | exact Hf]. subst sig.
  apply find_some in Hm. destruct Hm as [Hin Hm].
  pose proof (walkDir_adds _ _ _ _ Hwalk) as [added [Ea [_ Hl]]].
  cbn [app] in Ea. subst added.
  rewrite Forall_forall in Hl.
  rewrite (workflows_never_match entries matched Hplain (Hl _ Hin)) in Hm.
  discriminate Hm.
Qed.

Lemma github_actions_witness :
  exists analysis,
    analyzeRepo literalPatterns (cloneOf sampleTree ExtractorSpec.noContent)
      "github.com/acme/shop" = Some analysis
    /\ ~ In "GitHub Actions" (frameworks analysis).
Proof.
  eexists. split; [vm_compute; reflexivity | ].
  apply (github_actions_is_never_detected literalPatterns
           (cloneOf sampleTree ExtractorSpec.noContent)
           "github.com/acme/shop"
           {| rootListing := Some sampleTree;
              contents := ExtractorSpec.noContent |}
           sampleTree);
    vm_compute; reflexivity.
Defined.

End AnalyzerFacts.

(* ================================================================== *)
(** * Facts: the diagram of an analysed repository *)
(* ================================================================== *)

Module DiagramFacts.
Import Repo Scanner Extractor Analyzer Dfd.
Import ExtractorSpec ExtractorFacts DfdSpec DfdFacts DiagramSpec.
Local Open Scope string_scope.
Local Open Scope list_scope.

(** ** Node lines never throw *)













(** ** The diagram of an analysed repository *)














End DiagramFacts.

(* ================================================================== *)
(** * Facts: the identifiers of a run *)
(* ================================================================== *)

Module PersistenceFacts.
Import Generator Orchestrator PersistenceSpec.
Local Open Scope list_scope.

Lemma append_cancel (p a b : string) :
  String.append p a = String.append p b -> a = b.
Proof.
  induction p as [ | c p IH]; cbn; intros H; [exact H | ].
  injection H as H. now apply IH.
Qed.

Lemma ofNat_injective (a b : nat) : Str.ofNat a = Str.ofNat b -> a = b.
Proof.
  unfold Str.ofNat. intros H.
  apply (f_equal NilEmpty.uint_of_string) in H.
  rewrite !NilEmpty.usu in H. injection H as H.
  apply (f_equal Nat.of_uint) in H.
  now rewrite !DecimalNat.Unsigned.of_to in H.
Qed.

Lemma nzhead_head (d : Decimal.uint) :
  match Decimal.nzhead d with
  | Decimal.D0 _ => False
  | _ => True
  end.
Proof. induction d; cbn; trivial. Qed.

(** The decimal text of a positive number starts with a digit other than
    zero. *)
Lemma ofNat_head (n : nat) :
  exists c r, Str.ofNat (S n) = String c r /\ c <> "0"%char.
Proof.
  unfold Str.ofNat.
  pose proof (DecimalNat.Unsigned.to_of (Nat.to_uint (S n))) as H.
  rewrite DecimalNat.Unsigned.of_to in H.
  pose proof (nzhead_head (Nat.to_uint (S n))) as Hh.
  unfold Decimal.unorm in H.
  destruct (Decimal.nzhead (Nat.to_uint (S n))) eqn:E;
    try (rewrite H; cbn; eexists _, _; split; [reflexivity | discriminate]).
  - apply (f_equal Nat.of_uint) in H.
    rewrite DecimalNat.Unsigned.of_to in H. discriminate H.
  - destruct Hh.
Qed.

Lemma padded_injective (a b : nat) :
  padStart 3 "0" (Str.ofNat (S a)) = padStart 3 "0" (Str.ofNat (S b)) ->
  a = b.
Proof.
  destruct (ofNat_head a) as [c [r [Ea Hc]]].
  destruct (ofNat_head b) as [c' [r' [Eb Hc']]].
  intros H. assert (E : Str.ofNat (S a) = Str.ofNat (S b)).
  { rewrite Ea, Eb in H |- *. unfold padStart in H.
    destruct r as [ | d [ | e r]], r' as [ | d' [ | e' r']];
      cbn in H; injection H; intros; subst; congruence. }
  apply ofNat_injective in E. now injection E.
Qed.

Lemma threatId_injective (sid : string) (i j : nat) :
  threatId sid i = threatId sid j -> i = j.
Proof.
  unfold threatId. intros H.
  do 3 apply append_cancel in H.
  rewrite !Nat.add_1_r in H. now apply padded_injective.
Qed.

Lemma createThreat_fresh (sid : string) (i : nat) (gt : GeneratedThreat)
  (db : Database) :
  In sid (sessions db) -> writtenBefore sid i (threats db) ->
  createThreat (threatRecord sid i gt) db
  = Returns {| sessions := sessions db;
               threats := threats db ++ [createdRow (threatRecord sid i gt)] |}.
Proof.
  intros Hs Hw. unfold createThreat.
  replace (severityCheck (recordSeverity (threatRecord sid i gt))) with true
    by (symmetry; apply OrchestratorFacts.passed_severity).
  cbn [negb].
  replace (existsb _ (threats db)) with false.
  - replace (existsb _ (sessions db)) with true; [reflexivity | ].
    symmetry. apply existsb_exists. exists sid. split; [exact Hs | ].
    apply String.eqb_refl.
  - symmetry. apply not_true_is_false. intros H.
    apply existsb_exists in H. destruct H as [row [Hin Hrow]].
    apply String.eqb_eq in Hrow. unfold writtenBefore in Hw.
    rewrite Forall_forall in Hw. destruct (Hw row Hin) as [j [Hj Ej]].
    rewrite Ej in Hrow. apply threatId_injective in Hrow. lia.
Qed.

Lemma persistFrom_fresh (sid : string) (gts : list GeneratedThreat) :
  forall (i : nat) (db : Database),
    In sid (sessions db) -> writtenBefore sid i (threats db) ->
    exists db',
      persistFrom sid i gts db = Returns db'
      /\ writtenBefore sid (i + List.length gts) (threats db').
Proof.
  induction gts as [ | gt rest IH]; intros i db Hs Hw; cbn [persistFrom].
  - exists db. split; [reflexivity | ]. rewrite Nat.add_0_r. exact Hw.
  - rewrite (createThreat_fresh sid i gt db Hs Hw).
    destruct (IH (S i)
                {| sessions := sessions db;
                   threats := threats db
                              ++ [createdRow (threatRecord sid i gt)] |})
      as [db' [E Hw']].
    + exact Hs.
    + apply Forall_app. split.
      * eapply Forall_impl; [ | exact Hw].
        intros row [j [Hj Ej]]. exists j. split; [lia | exact Ej].
      * constructor; [ | constructor]. exists i. split; [lia | reflexivity].
    + exists db'. split; [exact E | ].
      cbn [List.length]. now rewrite Nat.add_succ_r.
Qed.

Lemma rows_distinct (sid : string) (gts : list GeneratedThreat) :
  forall i, NoDup (map row_id (map createdRow (recordsFrom sid i gts))).
Proof.
  assert (Hin : forall gts i x,
             In x (map row_id (map createdRow (recordsFrom sid i gts))) ->
             exists j, i <= j /\ x = threatId sid j).
  { clear gts. induction gts as [ | gt rest IH]; intros i x H; cbn in H.
    - destruct H.
    - destruct H as [H | H].
      + exists i. split; [lia | now symmetry].
      + destruct (IH _ _ H) as [j [Hj E]]. exists j. split; [lia | exact E]. }
  induction gts as [ | gt rest IH]; intros i; cbn; constructor.
  - intros H. apply Hin in H. destruct H as [j [Hj E]].
    apply threatId_injective in E. lia.
  - apply IH.
Qed.

(** X21.  On a database that holds the session and no threat yet, the
    persisting loop never fails, whatever threats were generated: the
    severity it passes always satisfies the [CHECK] of the table, and the
    identifiers [TC-...-001], [TC-...-002], ... of one run are pairwise
    distinct, so that the primary key is never violated.  The loop adds
    one row per generated threat, in order. *)
Theorem fresh_session_is_persisted
  (sid : string) (gts : list GeneratedThreat) (db : Database) :
  In sid (sessions db) -> threats db = [] ->
  exists db' : Database,
    persistFrom sid 0 gts db = Returns db'
    /\ threats db' = map createdRow (recordsFrom sid 0 gts)
    /\ NoDup (map row_id (threats db')).
Proof.
  intros Hs He.
  destruct (persistFrom_fresh sid gts 0 db Hs) as [db' [E _]].
  { rewrite He. constructor. }
  exists db'. split; [exact E | ].
  apply OrchestratorFacts.persistFrom_returns in E. destruct E as [_ E].
  rewrite He in E. cbn [app] in E. split; [exact E | ].
  rewrite E. apply rows_distinct.
Qed.

Lemma fresh_session_witness :
  exists db' : Database,
    persistFrom "tm-1a2b3c4d" 0 threeThreats (freshSession "tm-1a2b3c4d")
    = Returns db'
    /\ threats db'
       = map createdRow (recordsFrom "tm-1a2b3c4d" 0 threeThreats)
    /\ NoDup (map row_id (threats db'))
    /\ map row_id (threats db')
       = ["TC-1a2b3c4d-001"%string; "TC-1a2b3c4d-002"%string;
          "TC-1a2b3c4d-003"%string].
Proof.
  destruct (fresh_session_is_persisted "tm-1a2b3c4d" threeThreats
              (freshSession "tm-1a2b3c4d")) as [db' [E [Ht Hn]]].
  - now left.
  - reflexivity.
  - exists db'. repeat split; try assumption.
    rewrite Ht. vm_compute. reflexivity.
Defined.

End PersistenceFacts.
